(** * Feature-tree subsystem of Makistry: a shallow embedding

    The development follows the Python sources

    - [app/models/feature_tree.py]                       (data model, [add_node], [remove_node], [validate_tree])
    - [app/services/feature_tree_code_generator.py]      (dependency resolver and code generator)
    - [app/services/feature_tree_validator.py]           (validation of node additions)
    - [app/services/feature_tree_parser.py]              (script to tree)
    - [app/services/cadam_style_parameter_extractor.py]  ([update_parameter_in_code])
    - [app/services/ast_parameter_modifier.py]           ([get_modified_code_simple])
    - [app/services/feature_tree_storage.py]             (the mutation wrappers that set the state flags)

    Python dictionaries whose iteration order is observable are association
    lists in insertion order; dictionaries and sets that are only probed are
    [gmap]s and [gset]s.  Exceptions are explicit ([result]).  Recursive
    methods take the depth of the call stack they may use as fuel and raise
    [RecursionError] when it is exhausted, as the interpreter does; a loop
    takes a bound on its steps and reports [Unfinished] beyond it, and comes
    with a lemma that the bound it is run with is enough.  Floats are
    binary64 values, written and read as the interpreter writes and reads
    them. *)

From Stdlib Require Import ZArith List String Ascii Bool Lia.
From Stdlib Require Floats.
From stdpp Require Import base option list relations gmap strings pretty.

Import ListNotations.
#[local] Set Warnings "-register-all,-level-tolerance,-clear-no-such-hyp".
Local Open Scope string_scope.
Local Open Scope list_scope.

(** ** Python values and exceptions *)

Module Py.

(** The values a [Parameter] may hold ([Union[float, int, str, bool, List[float]]])
    and the values the parser reads off a syntax tree. *)
Inductive pyval :=
| VNone
| VBool (b : bool)
| VInt (z : Z)
| VFloat (f : PrimFloat.float)
| VStr (s : string)
| VList (l : list pyval)
| VTuple (l : list pyval).

Inductive exn :=
| RecursionError
| KeyError (key : string)
| ValueError (msg : string)
| TypeError (msg : string)
| OverflowError (msg : string)
| ZeroDivisionError (msg : string)
| IndexError (msg : string)
| Unfinished.

Inductive result (A : Type) :=
| Ok (a : A)
| Raise (e : exn).
Arguments Ok {A} a.
Arguments Raise {A} e.

Definition bind {A B} (r : result A) (k : A -> result B) : result B :=
  match r with
  | Ok a => k a
  | Raise e => Raise e
  end.

(** [for x in xs: s = body(s, x)] where the body may raise. *)
Fixpoint for_each {S X} (body : S -> X -> result S) (xs : list X) (s : S) : result S :=
  match xs with
  | [] => Ok s
  | x :: xs' => bind (body s x) (for_each body xs')
  end.

(** [isinstance(v, int)]: [bool] is a subclass of [int]. *)
Definition is_int (v : pyval) : bool :=
  match v with VInt _ | VBool _ => true | _ => false end.
Definition is_float (v : pyval) : bool :=
  match v with VFloat _ => true | _ => false end.
Definition is_str (v : pyval) : bool :=
  match v with VStr _ => true | _ => false end.
Definition is_bool (v : pyval) : bool :=
  match v with VBool _ => true | _ => false end.

(** [x in xs] for a list of strings. *)
Definition mem (x : string) (xs : list string) : bool :=
  bool_decide (x ∈ xs).

(** [xs.remove(x)]: drops the first occurrence only. *)
Fixpoint remove_first (x : string) (xs : list string) : list string :=
  match xs with
  | [] => []
  | y :: ys => if decide (x = y) then ys else y :: remove_first x ys
  end.

(** [xs.index(x)] *)
Fixpoint index_of (x : string) (xs : list string) : option nat :=
  match xs with
  | [] => None
  | y :: ys => if decide (x = y) then Some 0
               else option_map S (index_of x ys)
  end.

End Py.
Export Py.

#[global] Instance result_ret : MRet result := fun A a => Ok a.
#[global] Instance result_bind : MBind result := fun A B k r => bind r k.

(** ** Insertion-ordered dictionaries with string keys *)

Module Dict.

Abbreviation t V := (list (string * V)).

Definition keys {V} (d : t V) : list string := map fst d.
Definition values {V} (d : t V) : list V := map snd d.

Fixpoint get {V} (k : string) (d : t V) : option V :=
  match d with
  | [] => None
  | (k', v) :: d' => if decide (k = k') then Some v else get k d'
  end.

Definition contains {V} (k : string) (d : t V) : bool :=
  match get k d with Some _ => true | None => false end.

(** [d[k] = v]: an existing key keeps its position, a new key goes last. *)
Fixpoint set {V} (k : string) (v : V) (d : t V) : t V :=
  match d with
  | [] => [(k, v)]
  | (k', v') :: d' => if decide (k = k') then (k, v) :: d' else (k', v') :: set k v d'
  end.

(** [del d[k]] *)
Fixpoint del {V} (k : string) (d : t V) : t V :=
  match d with
  | [] => []
  | (k', v') :: d' => if decide (k = k') then d' else (k', v') :: del k d'
  end.

Definition map_values {V W} (f : V -> W) (d : t V) : t W :=
  map (fun kv => (fst kv, f (snd kv))) d.

End Dict.

(** ** The data model ([app/models/feature_tree.py]) *)

Inductive FeatureType :=
| WORKPLANE | SKETCH | EXTRUDE | REVOLVE | LOFT | SWEEP
| BOX | CYLINDER | SPHERE | CONE | TORUS
| UNION | DIFFERENCE | INTERSECTION
| FILLET | CHAMFER | MIRROR | PATTERN_LINEAR | PATTERN_CIRCULAR
| ASSEMBLY_ROOT | COMPONENT | CONSTRAINT
| DATUM_PLANE | DATUM_AXIS | DATUM_POINT.

#[global] Instance FeatureType_eq_dec : EqDecision FeatureType.
Proof. solve_decision. Defined.

(** [FeatureType.X.value] *)
Definition feature_type_value (ft : FeatureType) : string :=
  match ft with
  | WORKPLANE => "workplane" | SKETCH => "sketch" | EXTRUDE => "extrude"
  | REVOLVE => "revolve" | LOFT => "loft" | SWEEP => "sweep"
  | BOX => "box" | CYLINDER => "cylinder" | SPHERE => "sphere"
  | CONE => "cone" | TORUS => "torus"
  | UNION => "union" | DIFFERENCE => "difference" | INTERSECTION => "intersection"
  | FILLET => "fillet" | CHAMFER => "chamfer" | MIRROR => "mirror"
  | PATTERN_LINEAR => "pattern_linear" | PATTERN_CIRCULAR => "pattern_circular"
  | ASSEMBLY_ROOT => "assembly_root" | COMPONENT => "component"
  | CONSTRAINT => "constraint"
  | DATUM_PLANE => "datum_plane" | DATUM_AXIS => "datum_axis"
  | DATUM_POINT => "datum_point"
  end.

Inductive ParameterType :=
| FLOAT | INTEGER | STRING | BOOLEAN | VECTOR3D | POINT3D | ANGLE | LENGTH.

#[global] Instance ParameterType_eq_dec : EqDecision ParameterType.
Proof. solve_decision. Defined.

(** The class [Parameter]; the name is reserved in Rocq. *)
Record Param := mkParam {
  p_name : string;
  p_value : pyval;
  p_type : ParameterType;
  p_description : option string;
  p_units : option string;
  p_min_value : option PrimFloat.float;
  p_max_value : option PrimFloat.float;
  p_original_variable_name : option string
}.

Record FeatureReference := mkFeatureReference {
  feature_id : string;
  entity_type : string;
  entity_index : option Z
}.

(** The timestamps and the visual properties of a node are never read by
    the operations below and are left out. *)
Record FeatureNode := mkFeatureNode {
  id : string;
  name : string;
  feature_type : FeatureType;
  description : option string;
  parameters : list Param;
  parent_references : list FeatureReference;
  child_ids : list string;
  code_fragment : option string;
  is_valid : bool;
  error_message : option string
}.

Record FeatureTree := mkFeatureTree {
  tree_id : string;
  project_id : string;
  version : Z;
  tree_name : string;
  root_node_id : option string;
  nodes : Dict.t FeatureNode;
  regeneration_order : list string;
  global_parameters : list Param;
  generated_code : option string;
  dirty : bool;
  needs_full_regeneration : bool;
  last_good_artifact_id : option string;
  created_by : string
}.

Definition set_child_ids (n : FeatureNode) (cs : list string) : FeatureNode :=
  mkFeatureNode (id n) (name n) (feature_type n) (description n) (parameters n)
    (parent_references n) cs (code_fragment n) (is_valid n) (error_message n).

Definition set_parent_references (n : FeatureNode) (rs : list FeatureReference) : FeatureNode :=
  mkFeatureNode (id n) (name n) (feature_type n) (description n) (parameters n)
    rs (child_ids n) (code_fragment n) (is_valid n) (error_message n).

Definition set_structure (t : FeatureTree) (root : option string)
    (ns : Dict.t FeatureNode) (order : list string) : FeatureTree :=
  mkFeatureTree (tree_id t) (project_id t) (version t) (tree_name t) root ns order
    (global_parameters t) (generated_code t) (dirty t) (needs_full_regeneration t)
    (last_good_artifact_id t) (created_by t).

Definition set_flags (t : FeatureTree) (d full : bool) : FeatureTree :=
  mkFeatureTree (tree_id t) (project_id t) (version t) (tree_name t) (root_node_id t)
    (nodes t) (regeneration_order t) (global_parameters t) (generated_code t) d full
    (last_good_artifact_id t) (created_by t).

(** Truthiness of an [Optional[str]]: [None] and the empty string are false. *)
Definition truthy_id (o : option string) : bool :=
  match o with
  | Some s => negb (bool_decide (s = ""))
  | None => false
  end.

(** [FeatureTree.add_node] *)
Definition add_node (node : FeatureNode) (parent_id : option string) (t : FeatureTree) : FeatureTree :=
  let nodes1 := Dict.set (id node) node (nodes t) in
  let order1 := regeneration_order t ++ [id node] in
  let nodes2 :=
    match parent_id with
    | Some p =>
        if truthy_id parent_id then
          match Dict.get p nodes1 with
          | Some pn =>
              if mem (id node) (child_ids pn) then nodes1
              else Dict.set p (set_child_ids pn (child_ids pn ++ [id node])) nodes1
          | None => nodes1
          end
        else nodes1
    | None => nodes1
    end in
  let root1 := if truthy_id (root_node_id t) then root_node_id t else Some (id node) in
  set_structure t root1 nodes2 order1.

(** The loop [for other_node in self.nodes.values(): if node_id in
    other_node.child_ids: other_node.child_ids.remove(node_id)]. *)
Definition unlink_child (node_id : string) (n : FeatureNode) : FeatureNode :=
  if mem node_id (child_ids n) then set_child_ids n (remove_first node_id (child_ids n))
  else n.

(** [FeatureTree.remove_node]; [depth] bounds the nesting of the recursive calls. *)
Fixpoint remove_node (depth : nat) (node_id : string) (t : FeatureTree) : result FeatureTree :=
  match depth with
  | O => Raise RecursionError
  | S depth' =>
      match Dict.get node_id (nodes t) with
      | None => Ok t
      | Some node =>
          t1 ← for_each (fun t' child_id => remove_node depth' child_id t') (child_ids node) t;
          let nodes2 := Dict.map_values (unlink_child node_id) (nodes t1) in
          let order2 :=
            if mem node_id (regeneration_order t1)
            then remove_first node_id (regeneration_order t1)
            else regeneration_order t1 in
          if Dict.contains node_id nodes2 then
            let nodes3 := Dict.del node_id nodes2 in
            let root3 :=
              if decide (root_node_id t1 = Some node_id)
              then head order2
              else root_node_id t1 in
            Ok (set_structure t1 root3 nodes3 order2)
          else Raise (KeyError node_id)
      end
  end.

(** ** Facts about lists and dictionaries *)

Lemma mem_true (x : string) (xs : list string) : mem x xs = true <-> x ∈ xs.
Proof. unfold mem. apply bool_decide_eq_true. Qed.

Lemma mem_false (x : string) (xs : list string) : mem x xs = false <-> x ∉ xs.
Proof. unfold mem. apply bool_decide_eq_false. Qed.

Lemma filter_all {A} (P : A -> Prop) `{!forall x, Decision (P x)} (l : list A) :
  Forall P l -> filter P l = l.
Proof.
  induction 1 as [|x l Hx Hl IH]; [done|].
  by rewrite filter_cons_True, IH.
Qed.

Lemma remove_first_filter (x : string) (l : list string) :
  NoDup l -> remove_first x l = filter (fun y => y ≠ x) l.
Proof.
  induction 1 as [|y l Hy Hl IH]; simpl; [done|].
  destruct (decide (x = y)) as [->|Hne].
  - rewrite filter_cons_False by (intros ?; congruence).
    symmetry. apply filter_all, Forall_forall.
    intros z Hz ->. done.
  - rewrite filter_cons_True by congruence. by rewrite IH.
Qed.

Lemma filter_not_elem (x : string) (l : list string) :
  x ∉ l -> filter (fun y => y ≠ x) l = l.
Proof.
  intros Hx. apply filter_all, Forall_forall. intros z Hz ->. done.
Qed.

Section dict_facts.
Context {V : Type}.
Implicit Types (d : Dict.t V) (k : string).

Lemma get_Some_keys k d v : Dict.get k d = Some v -> k ∈ Dict.keys d.
Proof.
  induction d as [|[k' v'] d IH]; simpl; [done|].
  destruct (decide (k = k')) as [->|]; intros; [left | right; auto].
Qed.

Lemma get_None_keys k d : Dict.get k d = None <-> k ∉ Dict.keys d.
Proof.
  induction d as [|[k' v'] d IH]; simpl.
  - split; [intros _; apply not_elem_of_nil | done].
  - rewrite not_elem_of_cons. destruct (decide (k = k')) as [->|Hne]; [|tauto].
    split; [done | intros [Hk _]; by destruct Hk].
Qed.

Lemma keys_get_Some k d : k ∈ Dict.keys d -> exists v, Dict.get k d = Some v.
Proof.
  intros Hk. destruct (Dict.get k d) eqn:E; [eauto|].
  by apply get_None_keys in E.
Qed.

Lemma get_Some_values k d v : Dict.get k d = Some v -> v ∈ Dict.values d.
Proof.
  induction d as [|[k' v'] d IH]; simpl; [done|].
  destruct (decide (k = k')); intros; simplify_eq; [left | right; auto].
Qed.

Lemma values_get_Some d v :
  v ∈ Dict.values d -> NoDup (Dict.keys d) -> exists k, Dict.get k d = Some v.
Proof.
  induction d as [|[k' v'] d IH]; simpl; [by intros ?%elem_of_nil|].
  intros [->|Hv]%elem_of_cons Hnd; apply NoDup_cons in Hnd as [Hk' Hnd].
  - exists k'. by rewrite decide_True.
  - destruct (IH Hv Hnd) as [k Hk]. exists k.
    rewrite decide_False; [done|]. intros ->.
    by apply get_Some_keys in Hk.
Qed.

Lemma contains_keys k d : Dict.contains k d = true <-> k ∈ Dict.keys d.
Proof.
  unfold Dict.contains. destruct (Dict.get k d) eqn:E.
  - split; [intros _; by eapply get_Some_keys | done].
  - apply get_None_keys in E. naive_solver.
Qed.

Lemma keys_map_values {W} (f : V -> W) d :
  Dict.keys (Dict.map_values f d) = Dict.keys d.
Proof. unfold Dict.keys, Dict.map_values. rewrite map_map. done. Qed.

Lemma get_map_values {W} (f : V -> W) k d :
  Dict.get k (Dict.map_values f d) = f <$> Dict.get k d.
Proof.
  induction d as [|[k' v'] d IH]; simpl; [done|].
  destruct (decide (k = k')); done.
Qed.

Lemma keys_filter (P : string -> Prop) `{!forall x, Decision (P x)} d :
  Dict.keys (filter (fun kv => P kv.1) d) = filter P (Dict.keys d).
Proof.
  unfold Dict.keys. induction d as [|[k' v'] d IH]; [done|].
  rewrite filter_cons. cbn [map fst]. rewrite filter_cons.
  destruct (decide (P k')); cbn [map fst]; by rewrite IH.
Qed.

Lemma get_filter (P : string -> Prop) `{!forall x, Decision (P x)} k d :
  Dict.get k (filter (fun kv => P kv.1) d) = if decide (P k) then Dict.get k d else None.
Proof.
  induction d as [|[k' v'] d IH]; simpl; [by destruct (decide (P k))|].
  rewrite filter_cons. simpl.
  destruct (decide (P k')) as [Hk'|Hk']; simpl.
  - destruct (decide (k = k')) as [->|]; [by rewrite decide_True | done].
  - rewrite IH. destruct (decide (P k)); [|done].
    destruct (decide (k = k')); [by subst | done].
Qed.

Lemma del_filter k d :
  NoDup (Dict.keys d) -> Dict.del k d = filter (fun kv => kv.1 ≠ k) d.
Proof.
  induction d as [|[k' v'] d IH]; simpl; [done|].
  intros [Hk' Hnd]%NoDup_cons. rewrite filter_cons. simpl.
  destruct (decide (k = k')) as [->|Hne].
  - rewrite decide_False by naive_solver.
    symmetry. apply filter_all, Forall_forall. intros [k v] Hkv. simpl.
    intros ->. apply Hk'. apply list_elem_of_fmap. by exists (k', v).
  - rewrite decide_True by congruence. by rewrite IH.
Qed.

Lemma get_set_eq k v d : Dict.get k (Dict.set k v d) = Some v.
Proof.
  induction d as [|[k' v'] d IH]; simpl; [by rewrite decide_True|].
  destruct (decide (k = k')) as [->|Hne]; simpl.
  - by rewrite decide_True.
  - by rewrite decide_False.
Qed.

Lemma get_set_ne k k' v d : k ≠ k' -> Dict.get k' (Dict.set k v d) = Dict.get k' d.
Proof.
  intros Hne. induction d as [|[k0 v0] d IH]; simpl.
  - by rewrite decide_False.
  - destruct (decide (k = k0)) as [->|]; simpl.
    + by rewrite !decide_False.
    + destruct (decide (k' = k0)); done.
Qed.

Lemma keys_set k v d :
  Dict.keys (Dict.set k v d) =
  if decide (k ∈ Dict.keys d) then Dict.keys d else Dict.keys d ++ [k].
Proof.
  induction d as [|[k0 v0] d IH]; simpl; [done|].
  destruct (decide (k = k0)) as [->|Hne]; simpl.
  - rewrite decide_True; [done | left].
  - rewrite IH. destruct (decide (k ∈ Dict.keys d)) as [Hin|Hin].
    + rewrite decide_True; [done | by right].
    + rewrite decide_False; [done|]. rewrite not_elem_of_cons. done.
Qed.

End dict_facts.

(** ** [remove_node]: what is removed

    Removing a node erases a set [D] of keys from the tree: the nodes with
    these keys, every occurrence of the keys in the remaining [child_ids],
    and their entries of the regeneration order.  [purge] is that erasure. *)

Definition purge_node (D : list string) (n : FeatureNode) : FeatureNode :=
  set_child_ids n (filter (fun c => c ∉ D) (child_ids n)).

Definition purge_nodes (D : list string) (ns : Dict.t FeatureNode) : Dict.t FeatureNode :=
  Dict.map_values (purge_node D) (filter (fun kv => kv.1 ∉ D) ns).

Definition purge (D : list string) (root : option string) (t : FeatureTree) : FeatureTree :=
  set_structure t root (purge_nodes D (nodes t))
    (filter (fun c => c ∉ D) (regeneration_order t)).

(** The parent-to-child relation stored in [child_ids]. *)
Definition child_edge (t : FeatureTree) (a b : string) : Prop :=
  exists n, Dict.get a (nodes t) = Some n /\ b ∈ child_ids n.

(** What [remove_node] relies on: a dictionary has distinct keys, and the
    lists it calls [remove] on hold each id once. *)
Record tree_wf (t : FeatureTree) : Prop := mk_tree_wf {
  wf_keys : NoDup (Dict.keys (nodes t));
  wf_children : Forall (fun n => NoDup (child_ids n)) (Dict.values (nodes t));
  wf_order : NoDup (regeneration_order t)
}.

(** [D] holds the present nodes of [start] and is closed under present children. *)
Record closed_set (t : FeatureTree) (start D : list string) : Prop := mk_closed_set {
  cs_start : forall s, s ∈ start -> s ∈ Dict.keys (nodes t) -> s ∈ D;
  cs_incl : forall d, d ∈ D -> d ∈ Dict.keys (nodes t);
  cs_closed : forall d n c, d ∈ D -> Dict.get d (nodes t) = Some n ->
      c ∈ child_ids n -> c ∈ Dict.keys (nodes t) -> c ∈ D
}.

Definition reach_set (t : FeatureTree) (start D : list string) : Prop :=
  forall d, d ∈ D -> exists s, s ∈ start /\ rtc (child_edge t) s d.

Lemma set_child_ids_same n : set_child_ids n (child_ids n) = n.
Proof. by destruct n. Qed.

Lemma purge_node_nil n : purge_node [] n = n.
Proof.
  unfold purge_node. rewrite filter_all; [apply set_child_ids_same|].
  apply Forall_forall. intros x _. apply not_elem_of_nil.
Qed.

Lemma purge_node_app D1 D2 n :
  purge_node D2 (purge_node D1 n) = purge_node (D1 ++ D2) n.
Proof.
  unfold purge_node. destruct n; simpl. unfold set_child_ids; simpl. f_equal.
  rewrite list_filter_filter. apply list_filter_iff.
  intros x. rewrite elem_of_app. tauto.
Qed.

Lemma filter_map_values {V W} (P : string -> Prop) `{!forall x, Decision (P x)}
    (f : V -> W) (d : Dict.t V) :
  filter (fun kv => P kv.1) (Dict.map_values f d) =
  Dict.map_values f (filter (fun kv => P kv.1) d).
Proof.
  unfold Dict.map_values. induction d as [|[k v] d IH]; [done|].
  cbn [map]. rewrite !filter_cons. cbn [fst snd].
  destruct (decide (P k)); cbn [map fst snd]; by rewrite IH.
Qed.

Lemma filter_notin_map_values {V W} (D : list string) (f : V -> W) (d : Dict.t V) :
  filter (fun kv => kv.1 ∉ D) (Dict.map_values f d) =
  Dict.map_values f (filter (fun kv => kv.1 ∉ D) d).
Proof. exact (filter_map_values (fun k => k ∉ D) f d). Qed.

Lemma filter_ne_map_values {V W} (x : string) (f : V -> W) (d : Dict.t V) :
  filter (fun kv => kv.1 ≠ x) (Dict.map_values f d) =
  Dict.map_values f (filter (fun kv => kv.1 ≠ x) d).
Proof. exact (filter_map_values (fun k => k ≠ x) f d). Qed.

Lemma map_values_ext {V W} (f g : V -> W) (d : Dict.t V) :
  Forall (fun v => f v = g v) (Dict.values d) ->
  Dict.map_values f d = Dict.map_values g d.
Proof.
  unfold Dict.map_values, Dict.values.
  induction d as [|[k v] d IH]; [done|]. cbn [map fst snd].
  intros [Hv Hd]%Forall_cons. rewrite Hv, IH; done.
Qed.

Lemma map_values_compose {V W X} (f : V -> W) (g : W -> X) (d : Dict.t V) :
  Dict.map_values g (Dict.map_values f d) = Dict.map_values (fun v => g (f v)) d.
Proof. unfold Dict.map_values. rewrite map_map. done. Qed.

Lemma purge_nodes_nil ns : purge_nodes [] ns = ns.
Proof.
  unfold purge_nodes. rewrite filter_all.
  - unfold Dict.map_values. induction ns as [|[k n] ns IH]; [done|].
    cbn [map fst snd]. by rewrite purge_node_nil, IH.
  - apply Forall_forall. intros x _. apply not_elem_of_nil.
Qed.

Lemma purge_nodes_app D1 D2 ns :
  purge_nodes D2 (purge_nodes D1 ns) = purge_nodes (D1 ++ D2) ns.
Proof.
  unfold purge_nodes.
  rewrite filter_notin_map_values, map_values_compose.
  rewrite list_filter_filter.
  erewrite (list_filter_iff _ (fun kv => kv.1 ∉ D1 ++ D2)).
  - apply map_values_ext, Forall_forall. intros n _. apply purge_node_app.
  - intros [k n]. simpl. rewrite elem_of_app. tauto.
Qed.

Lemma purge_nil t : purge [] (root_node_id t) t = t.
Proof.
  unfold purge. rewrite purge_nodes_nil, filter_all.
  - by destruct t.
  - apply Forall_forall. intros x _. apply not_elem_of_nil.
Qed.

Lemma purge_app D1 D2 r1 r2 t :
  purge D2 r2 (purge D1 r1 t) = purge (D1 ++ D2) r2 t.
Proof.
  unfold purge, set_structure; simpl. f_equal.
  - apply purge_nodes_app.
  - rewrite list_filter_filter. apply list_filter_iff.
    intros x. rewrite elem_of_app. tauto.
Qed.

Lemma keys_purge_nodes D ns :
  Dict.keys (purge_nodes D ns) = filter (fun k => k ∉ D) (Dict.keys ns).
Proof.
  unfold purge_nodes. rewrite keys_map_values.
  exact (keys_filter (fun k => k ∉ D) _).
Qed.

Lemma get_purge_nodes D k ns :
  Dict.get k (purge_nodes D ns) =
  if decide (k ∈ D) then None else purge_node D <$> Dict.get k ns.
Proof.
  unfold purge_nodes. rewrite get_map_values.
  pose proof (get_filter (fun k => k ∉ D) k ns) as ->.
  destruct (decide (k ∈ D)).
  - by rewrite decide_False by tauto.
  - by rewrite decide_True.
Qed.

Lemma purge_wf D r t : tree_wf t -> tree_wf (purge D r t).
Proof.
  intros [Hk Hc Ho]. split; simpl.
  - rewrite keys_purge_nodes. by apply NoDup_filter.
  - apply Forall_forall. intros n' Hn'.
    unfold purge_nodes, Dict.values, Dict.map_values in Hn'.
    rewrite map_map in Hn'. simpl in Hn'.
    apply list_elem_of_fmap in Hn' as [[k n] [-> Hkn]]. simpl.
    apply NoDup_filter.
    apply list_elem_of_filter in Hkn as [_ Hkn].
    rewrite Forall_forall in Hc. apply Hc.
    apply list_elem_of_fmap. by exists (k, n).
  - by apply NoDup_filter.
Qed.

Lemma child_edge_purge D r t a b :
  child_edge (purge D r t) a b -> child_edge t a b.
Proof.
  intros [n' [Hget Hb]]. simpl in Hget. rewrite get_purge_nodes in Hget.
  destruct (decide (a ∈ D)) as [|HaD]; [done|].
  destruct (Dict.get a (nodes t)) as [na|] eqn:E; [|done].
  simpl in Hget. injection Hget as <-. exists na. split; [done|].
  simpl in Hb. by apply list_elem_of_filter in Hb as [_ Hb].
Qed.

Lemma unlink_child_purge x n :
  NoDup (child_ids n) -> unlink_child x n = purge_node [x] n.
Proof.
  intros Hnd. unfold unlink_child, purge_node.
  destruct (mem x (child_ids n)) eqn:E.
  - rewrite remove_first_filter by done. f_equal.
    apply list_filter_iff. intros y. rewrite list_elem_of_singleton. tauto.
  - apply mem_false in E. rewrite filter_all; [by rewrite set_child_ids_same|].
    apply Forall_forall. intros y Hy ->%list_elem_of_singleton. done.
Qed.

(** The last step of [remove_node], after the children are gone. *)
Lemma unlink_and_delete x t :
  tree_wf t ->
  Dict.del x (Dict.map_values (unlink_child x) (nodes t)) = purge_nodes [x] (nodes t).
Proof.
  intros [Hk Hc _]. rewrite del_filter by (by rewrite keys_map_values).
  rewrite filter_ne_map_values. unfold purge_nodes.
  erewrite (list_filter_iff _ (fun kv => kv.1 ∉ [x])).
  - apply map_values_ext. apply Forall_forall. intros n Hn.
    apply unlink_child_purge.
    assert (n ∈ Dict.values (nodes t)) as Hn'.
    { unfold Dict.values in *. apply list_elem_of_fmap in Hn as [kv [-> Hkv]].
      apply list_elem_of_filter in Hkv as [_ Hkv].
      apply list_elem_of_fmap. by exists kv. }
    rewrite Forall_forall in Hc. by apply Hc.
  - intros [k n]. simpl. rewrite list_elem_of_singleton. tauto.
Qed.

Lemma order_remove x (l : list string) :
  NoDup l ->
  (if mem x l then remove_first x l else l) = filter (fun c => c ∉ [x]) l.
Proof.
  intros Hnd. destruct (mem x l) eqn:E.
  - rewrite remove_first_filter by done.
    apply list_filter_iff. intros y. rewrite list_elem_of_singleton. tauto.
  - apply mem_false in E. rewrite filter_all; [done|].
    apply Forall_forall. intros y Hy ->%list_elem_of_singleton. done.
Qed.

Lemma elem_of_filter_notin (D l : list string) (x : string) :
  x ∈ filter (fun c => c ∉ D) l ↔ x ∉ D ∧ x ∈ l.
Proof. exact (list_elem_of_filter (fun c => c ∉ D) l x). Qed.

Lemma bind_Ok {A B} (r : result A) (k : A -> result B) (b : B) :
  (r ≫= k) = Ok b <-> exists a, r = Ok a /\ k a = Ok b.
Proof.
  unfold mbind, result_bind, bind. destruct r as [a|e]; split.
  - intros H. by exists a.
  - by intros [a' [[= ->] H]].
  - done.
  - by intros [a' [? _]].
Qed.

Lemma closed_set_compose t D1 D2 r s1 s2 :
  closed_set t s1 D1 -> closed_set (purge D1 r t) s2 D2 ->
  closed_set t (s1 ++ s2) (D1 ++ D2).
Proof.
  intros [Hs1 Hi1 Hc1] [Hs2 Hi2 Hc2].
  assert (forall x, x ∈ Dict.keys (nodes (purge D1 r t)) ↔
                    x ∉ D1 ∧ x ∈ Dict.keys (nodes t)) as Hkeys.
  { intros x. simpl. rewrite keys_purge_nodes. apply elem_of_filter_notin. }
  split.
  - intros s [Hs|Hs]%elem_of_app Hk; apply elem_of_app.
    + left; auto.
    + destruct (decide (s ∈ D1)); [by left | right].
      apply Hs2; [done|]. by apply Hkeys.
  - intros d [Hd|Hd]%elem_of_app; [auto|].
    apply Hi2, Hkeys in Hd. tauto.
  - intros d n c [Hd|Hd]%elem_of_app Hget Hc Hk; apply elem_of_app.
    + left. eauto.
    + destruct (decide (c ∈ D1)) as [|HcD1]; [by left | right].
      assert (d ∉ D1) as HdD1 by (apply Hi2, Hkeys in Hd; tauto).
      apply (Hc2 d (purge_node D1 n) c); [done | | |].
      * simpl. rewrite get_purge_nodes, decide_False, Hget; done.
      * simpl. by apply elem_of_filter_notin.
      * by apply Hkeys.
Qed.

Lemma reach_set_compose t D1 D2 r s1 s2 :
  reach_set t s1 D1 -> reach_set (purge D1 r t) s2 D2 ->
  reach_set t (s1 ++ s2) (D1 ++ D2).
Proof.
  intros H1 H2 d [Hd|Hd]%elem_of_app.
  - destruct (H1 d Hd) as [s [Hs Hr]]. exists s. split; [|done].
    apply elem_of_app. by left.
  - destruct (H2 d Hd) as [s [Hs Hr]]. exists s. split.
    + apply elem_of_app. by right.
    + eapply rtc_subrel; [|exact Hr]. intros a b. apply child_edge_purge.
Qed.

Section remove_node_depth.

Variable depth : nat.

(** What a call at nesting depth [depth] achieves when it returns. *)
Definition removes_at_depth : Prop :=
  forall node_id t t',
    tree_wf t -> remove_node depth node_id t = Ok t' ->
    exists D root, t' = purge D root t /\
      closed_set t [node_id] D /\ reach_set t [node_id] D.

Hypothesis IH : removes_at_depth.

Lemma remove_children_purges cs : forall t t',
  tree_wf t ->
  for_each (fun t' child_id => remove_node depth child_id t') cs t = Ok t' ->
  exists D root, t' = purge D root t /\ closed_set t cs D /\ reach_set t cs D.
Proof.
  induction cs as [|c cs IHcs]; intros t t' Hwf Hrun.
  - injection Hrun as <-. exists [], (root_node_id t).
    split; [by rewrite purge_nil|]. split.
    + split; intros *; by intros ?%elem_of_nil.
    + intros d Hd. by apply elem_of_nil in Hd.
  - simpl in Hrun.
    destruct (remove_node depth c t) as [t1|e] eqn:Hc; [|done]. simpl in Hrun.
    destruct (IH c t t1 Hwf Hc) as (D1 & r1 & -> & Hcl1 & Hre1).
    destruct (IHcs _ _ (purge_wf D1 r1 t Hwf) Hrun) as (D2 & r2 & -> & Hcl2 & Hre2).
    exists (D1 ++ D2), r2. split; [apply purge_app|]. split.
    + exact (closed_set_compose t D1 D2 r1 [c] cs Hcl1 Hcl2).
    + exact (reach_set_compose t D1 D2 r1 [c] cs Hre1 Hre2).
Qed.

End remove_node_depth.

Lemma remove_node_purges depth : removes_at_depth depth.
Proof.
  induction depth as [|depth IH]; intros node_id t t' Hwf Hrun; [done|].
  simpl in Hrun.
  destruct (Dict.get node_id (nodes t)) as [node|] eqn:Hget.
  2: { injection Hrun as <-. exists [], (root_node_id t).
       split; [by rewrite purge_nil|]. split.
       - split; try (intros *; by intros ?%elem_of_nil).
         intros s ->%list_elem_of_singleton Hk. by apply get_None_keys in Hget.
       - intros d Hd. by apply elem_of_nil in Hd. }
  apply bind_Ok in Hrun as (t1 & Hloop & Hrun).
  destruct (remove_children_purges depth IH _ _ _ Hwf Hloop)
    as (Dc & r1 & Ht1 & Hcl & Hre).
  assert (tree_wf t1) as Hwf1 by (rewrite Ht1; by apply purge_wf).
  destruct (Dict.contains node_id _) eqn:Hcont; [|done].
  injection Hrun as <-.
  rewrite (unlink_and_delete node_id _ Hwf1).
  rewrite (order_remove node_id _ (wf_order _ Hwf1)).
  eexists (Dc ++ [node_id]), _. split.
  { rewrite <- (purge_app Dc [node_id] r1), <- Ht1. reflexivity. }
  assert (node_id ∈ Dict.keys (nodes t1)) as Hin1.
  { apply contains_keys in Hcont. by rewrite keys_map_values in Hcont. }
  split.
  - assert (closed_set (purge Dc r1 t) [node_id] [node_id]) as Hcl2.
    { split.
      - by intros s ->%list_elem_of_singleton _; apply list_elem_of_singleton.
      - intros d ->%list_elem_of_singleton. by rewrite <- Ht1.
      - intros d n c ->%list_elem_of_singleton Hgetd Hc Hk. exfalso.
        simpl in Hgetd, Hk. rewrite get_purge_nodes in Hgetd.
        destruct (decide (node_id ∈ Dc)); [done|].
        rewrite Hget in Hgetd. injection Hgetd as <-. simpl in Hc.
        apply elem_of_filter_notin in Hc as [HcD Hc].
        rewrite keys_purge_nodes in Hk. apply elem_of_filter_notin in Hk as [_ Hk].
        apply HcD. by apply (cs_start _ _ _ Hcl). }
    pose proof (closed_set_compose _ _ _ _ _ _ Hcl Hcl2) as [Hs Hi Hc].
    split; [|done|done].
    intros s Hs' Hk. apply Hs; [|done]. apply elem_of_app. by right.
  - intros d [Hd|Hd]%elem_of_app.
    + destruct (Hre d Hd) as (c & Hc & Hr). exists node_id.
      split; [apply list_elem_of_singleton; done|].
      eapply rtc_l; [|exact Hr]. by exists node.
    + apply list_elem_of_singleton in Hd as ->. exists node_id. split; [by apply list_elem_of_singleton | done].
Qed.

(** ** [remove_node]: when it returns *)

Definition children_acyclic (t : FeatureTree) : Prop :=
  forall x, ~ tc (child_edge t) x x.

Lemma child_edge_finite t x : pred_finite (tc (child_edge t) x).
Proof.
  exists (Dict.values (nodes t) ≫= child_ids). intros y Hy.
  assert (exists z, child_edge t z y) as (z & n & Hget & Hin).
  { induction Hy; eauto. }
  apply list_elem_of_bind. exists n. split; [done|].
  by eapply get_Some_values.
Qed.

Lemma child_edge_sn t x : children_acyclic t -> sn (child_edge t) x.
Proof.
  intros Hac. apply tc_finite_sn; [|apply child_edge_finite].
  intros y Hy. by apply (Hac y).
Qed.

(** A call on a node whose children all return, returns. *)
Lemma remove_node_returns_step t node_id d :
  tree_wf t -> children_acyclic t ->
  (forall c, child_edge t node_id c -> forall D r,
       exists t', remove_node d c (purge D r t) = Ok t') ->
  forall D r, exists t', remove_node (S d) node_id (purge D r t) = Ok t'.
Proof.
  intros Hwf Hac Hch D r. simpl. rewrite get_purge_nodes.
  destruct (decide (node_id ∈ D)) as [|HD]; [eauto|].
  destruct (Dict.get node_id (nodes t)) as [node|] eqn:Hget; [|eauto].
  simpl fmap. cbv iota.
  assert (forall cs : list string, (forall c, c ∈ cs -> c ∈ child_ids node) ->
    forall D0 r0, exists t1,
      for_each (fun t' child_id => remove_node d child_id t') cs (purge D0 r0 t) = Ok t1)
    as Hloop.
  { induction cs as [|c cs IHcs]; intros Hcs D0 r0; [by eexists|].
    simpl. destruct (Hch c) with (D := D0) (r := r0) as [t' Ht'].
    { exists node. split; [done|]. apply Hcs. left. }
    rewrite Ht'. simpl.
    destruct (remove_node_purges d c _ _ (purge_wf D0 r0 t Hwf) Ht')
      as (D1 & r1 & -> & _ & _).
    rewrite purge_app. apply IHcs. intros c' Hc'. apply Hcs. by right. }
  destruct (Hloop (filter (fun c => c ∉ D) (child_ids node))) with (D0 := D) (r0 := r)
    as [t1 Ht1].
  { intros c Hc. by apply elem_of_filter_notin in Hc as [_ Hc]. }
  change (child_ids (purge_node D node))
    with (filter (fun c => c ∉ D) (child_ids node)).
  rewrite Ht1. simpl.
  destruct (remove_children_purges d (remove_node_purges d) _ _ _
              (purge_wf D r t Hwf) Ht1) as (Dc & r1 & -> & _ & Hre).
  assert (Dict.contains node_id
            (Dict.map_values (unlink_child node_id) (nodes (purge Dc r1 (purge D r t))))
          = true) as ->; [|eauto].
  apply contains_keys. rewrite keys_map_values. simpl.
  rewrite !keys_purge_nodes. apply elem_of_filter_notin. split.
  - intros HDc. destruct (Hre _ HDc) as (c & Hc & Hr).
    apply elem_of_filter_notin in Hc as [_ Hc].
    apply (Hac node_id). eapply tc_rtc_r; [apply tc_once; by exists node|].
    eapply rtc_subrel; [|exact Hr]. intros a b. apply child_edge_purge.
  - apply elem_of_filter_notin. split; [done|]. by eapply get_Some_keys.
Qed.

Lemma remove_node_depth_mono d : forall d' node_id t t',
  d <= d' -> remove_node d node_id t = Ok t' -> remove_node d' node_id t = Ok t'.
Proof.
  induction d as [|d IH]; intros d' node_id t t' Hle Hrun; [done|].
  destruct d' as [|d']; [lia|]. simpl in *.
  destruct (Dict.get node_id (nodes t)) as [node|]; [|done].
  apply bind_Ok in Hrun as (t1 & Hloop & Hrun).
  assert (for_each (fun t' child_id => remove_node d' child_id t') (child_ids node) t = Ok t1)
    as ->; [|done].
  clear Hrun. revert t Hloop. induction (child_ids node) as [|c cs IHcs]; intros t Hloop; [done|].
  simpl in *. destruct (remove_node d c t) as [t2|] eqn:Ht2; [|done].
  rewrite (IH d' c t t2); [|lia|done]. simpl in *. by apply IHcs.
Qed.

Lemma remove_node_returns t :
  tree_wf t -> children_acyclic t ->
  forall node_id, exists d, forall D r,
    exists t', remove_node d node_id (purge D r t) = Ok t'.
Proof.
  intros Hwf Hac node_id.
  induction (child_edge_sn t node_id Hac) as [x _ IH].
  assert (exists d, forall c, child_edge t x c ->
            forall D r, exists t', remove_node d c (purge D r t) = Ok t') as [d Hd].
  { destruct (Dict.get x (nodes t)) as [node|] eqn:Hget.
    2: { exists 0. intros c (n & Hn & _). congruence. }
    assert (forall cs : list string, (forall c, c ∈ cs -> c ∈ child_ids node) ->
      exists d, forall c, c ∈ cs ->
        forall D r, exists t', remove_node d c (purge D r t) = Ok t') as Hcs.
    { induction cs as [|c cs IHcs]; intros Hsub.
      - exists 0. by intros c ?%elem_of_nil.
      - destruct IHcs as [d1 Hd1]; [intros c' Hc'; apply Hsub; by right|].
        destruct (IH c) as [d2 Hd2].
        { exists node. split; [done|]. apply Hsub. left. }
        exists (Nat.max d1 d2). intros c' [->|Hc']%elem_of_cons D r.
        + destruct (Hd2 D r) as [t' Ht']. exists t'.
          eapply remove_node_depth_mono; [|exact Ht']. lia.
        + destruct (Hd1 c' Hc' D r) as [t' Ht']. exists t'.
          eapply remove_node_depth_mono; [|exact Ht']. lia. }
    destruct (Hcs (child_ids node)) as [d Hd]; [done|].
    exists d. intros c (n & Hn & Hc). apply Hd. congruence. }
  exists (S d). by apply remove_node_returns_step.
Qed.

(** ** [remove_node]: the subtree is removed *)

(** C10 (amended). For a tree whose [child_ids] lists and regeneration order
    hold no id twice and whose [child_ids] relation has no cycle,
    [remove_node(node_id)] returns, given enough stack depth.  The nodes
    it deletes are exactly the node and the nodes reachable from it through
    [child_ids]; afterwards no remaining node lists a deleted id among its
    [child_ids], and the regeneration order is set-equal to the remaining
    keys whenever it was set-equal to the keys before. *)
Theorem remove_node_removes_descendants (t : FeatureTree) (node_id : string) :
  tree_wf t -> children_acyclic t ->
  exists depth t',
    remove_node depth node_id t = Ok t' /\
    (forall d, rtc (child_edge t) node_id d -> d ∉ Dict.keys (nodes t')) /\
    (forall k, k ∈ Dict.keys (nodes t) ->
        k ∈ Dict.keys (nodes t') \/ rtc (child_edge t) node_id k) /\
    (forall k n c, Dict.get k (nodes t') = Some n -> c ∈ child_ids n ->
        c ∈ Dict.keys (nodes t) -> c ∈ Dict.keys (nodes t')) /\
    ((forall x, x ∈ regeneration_order t <-> x ∈ Dict.keys (nodes t)) ->
     (forall x, x ∈ regeneration_order t' <-> x ∈ Dict.keys (nodes t'))).
Proof.
  intros Hwf Hac.
  destruct (remove_node_returns t Hwf Hac node_id) as [depth Hret].
  destruct (Hret [] (root_node_id t)) as [t' Hrun].
  rewrite purge_nil in Hrun. exists depth, t'. split; [done|].
  destruct (remove_node_purges depth node_id t t' Hwf Hrun)
    as (D & root & -> & [Hs Hi Hc] & Hre).
  assert (forall x, x ∈ Dict.keys (nodes (purge D root t)) <->
                    x ∉ D /\ x ∈ Dict.keys (nodes t)) as Hkeys.
  { intros x. simpl. rewrite keys_purge_nodes. apply elem_of_filter_notin. }
  repeat split.
  - intros d Hd Hin. apply Hkeys in Hin as [HdD Hdk]. apply HdD. clear HdD.
    revert d Hd Hdk.
    apply (rtc_ind_r (fun d => d ∈ Dict.keys (nodes t) -> d ∈ D)).
    + intros Hk. apply Hs; [apply list_elem_of_singleton; done | done].
    + intros y z Hy (n & Hgety & Hz) IH Hz'. apply (Hc y n z); [|done|done|done].
      apply IH. by eapply get_Some_keys.
  - intros k Hk. destruct (decide (k ∈ D)) as [HkD|HkD].
    + right. destruct (Hre k HkD) as (s & ->%list_elem_of_singleton & Hr). done.
    + left. by apply Hkeys.
  - intros k n c Hget Hcn Hck. apply Hkeys. split; [|done].
    simpl in Hget. rewrite get_purge_nodes in Hget.
    destruct (decide (k ∈ D)) as [|HkD]; [done|].
    destruct (Dict.get k (nodes t)) as [nk|]; [|done].
    injection Hget as <-. simpl in Hcn.
    by apply elem_of_filter_notin in Hcn as [? _].
  - intros Hx. simpl in Hx. apply elem_of_filter_notin in Hx as [HxD Hx].
    apply Hkeys. split; [done|]. by apply H.
  - intros Hx. apply Hkeys in Hx as [HxD Hx]. simpl.
    apply elem_of_filter_notin. split; [done|]. by apply H.
Qed.

(** A rank that decreases along [child_ids] excludes cycles. *)
Lemma children_acyclic_by_rank (t : FeatureTree) (rank : string -> nat) :
  (forall a b, child_edge t a b -> rank b < rank a) -> children_acyclic t.
Proof.
  intros Hrank x Hx.
  assert (forall a b, tc (child_edge t) a b -> rank b < rank a) as Htc.
  { intros a b Hab. induction Hab as [a b Hab|a b c Hab _ IH].
    - by apply Hrank.
    - apply Hrank in Hab. lia. }
  apply Htc in Hx. lia.
Qed.

Definition plain_node (i : string) (ft : FeatureType) (parents children : list string) : FeatureNode :=
  mkFeatureNode i i ft None []
    (map (fun p => mkFeatureReference p "feature" None) parents) children None true None.

Definition plain_tree (ns : Dict.t FeatureNode) (order : list string) : FeatureTree :=
  mkFeatureTree "tree" "project" 1%Z "Feature Tree" (head order) ns order []
    None false false None "user".

(** A workplane with a box on it. *)
Definition box_tree : FeatureTree :=
  plain_tree [("wp", plain_node "wp" WORKPLANE [] ["box"]);
              ("box", plain_node "box" BOX ["wp"] [])]
             ["wp"; "box"].

Lemma box_tree_wf : tree_wf box_tree.
Proof.
  split; simpl.
  - compute_done.
  - repeat constructor; compute_done.
  - compute_done.
Qed.

Lemma box_tree_acyclic : children_acyclic box_tree.
Proof.
  apply (children_acyclic_by_rank _ (fun k => if decide (k = "wp") then 1 else 0)).
  intros a b (n & Hget & Hb). simpl in Hget.
  destruct (decide (a = "wp")) as [->|]; simpl in Hget.
  - injection Hget as <-. simpl in Hb.
    apply list_elem_of_singleton in Hb as ->. simpl. lia.
  - destruct (decide (a = "box")); [|done].
    injection Hget as <-. simpl in Hb. by apply elem_of_nil in Hb.
Qed.

Lemma remove_node_removes_descendants_witness :
  exists depth t',
    remove_node depth "wp" box_tree = Ok t' /\
    (forall d, rtc (child_edge box_tree) "wp" d -> d ∉ Dict.keys (nodes t')) /\
    (forall k, k ∈ Dict.keys (nodes box_tree) ->
        k ∈ Dict.keys (nodes t') \/ rtc (child_edge box_tree) "wp" k) /\
    (forall k n c, Dict.get k (nodes t') = Some n -> c ∈ child_ids n ->
        c ∈ Dict.keys (nodes box_tree) -> c ∈ Dict.keys (nodes t')) /\
    ((forall x, x ∈ regeneration_order box_tree <-> x ∈ Dict.keys (nodes box_tree)) ->
     (forall x, x ∈ regeneration_order t' <-> x ∈ Dict.keys (nodes t'))).
Proof.
  apply (remove_node_removes_descendants box_tree "wp").
  - exact box_tree_wf.
  - exact box_tree_acyclic.
Defined.

(** The claim of C10 as stated, for one tree and one node. *)
Definition remove_node_claim (t : FeatureTree) (node_id : string) : Prop :=
  exists depth t',
    remove_node depth node_id t = Ok t' /\
    (forall d, rtc (child_edge t) node_id d -> d ∉ Dict.keys (nodes t')) /\
    (forall k n c, Dict.get k (nodes t') = Some n -> c ∈ child_ids n ->
        c ∈ Dict.keys (nodes t) -> c ∈ Dict.keys (nodes t')) /\
    ((forall x, x ∈ regeneration_order t <-> x ∈ Dict.keys (nodes t)) ->
     (forall x, x ∈ regeneration_order t' <-> x ∈ Dict.keys (nodes t'))).

(** A workplane that lists its box twice among its [child_ids]. *)
Definition twice_listed_tree : FeatureTree :=
  plain_tree [("wp", plain_node "wp" WORKPLANE [] ["box"; "box"]);
              ("box", plain_node "box" BOX ["wp"] [])]
             ["wp"; "box"].

Lemma remove_node_result_unique d1 d2 node_id t t1 t2 :
  remove_node d1 node_id t = Ok t1 -> remove_node d2 node_id t = Ok t2 -> t1 = t2.
Proof.
  intros H1 H2.
  apply (remove_node_depth_mono d1 (Nat.max d1 d2)) in H1; [|lia].
  apply (remove_node_depth_mono d2 (Nat.max d1 d2)) in H2; [|lia].
  congruence.
Qed.

(** C10 as stated fails: [list.remove] drops one occurrence, so the
    workplane still lists the deleted box. *)
Lemma remove_node_keeps_stale_child : ~ remove_node_claim twice_listed_tree "box".
Proof.
  intros (depth & t' & Hrun & _ & Hstale & _).
  assert (remove_node 1 "box" twice_listed_tree =
          Ok (plain_tree [("wp", plain_node "wp" WORKPLANE [] ["box"])] ["wp"])) as Hone.
  { vm_compute. reflexivity. }
  rewrite (remove_node_result_unique _ _ _ _ _ _ Hrun Hone) in Hstale.
  specialize (Hstale "wp" (plain_node "wp" WORKPLANE [] ["box"]) "box").
  simpl in Hstale.
  assert ("box" ∈ ["wp"]) as Hbad.
  { apply Hstale; [done | left | right; left]. }
  apply list_elem_of_singleton in Hbad. discriminate.
Qed.

(** The other two conditions of the amended claim are needed as well. *)
Example remove_node_cycle_raises :
  let t := plain_tree [("a", plain_node "a" BOX [] ["b"]);
                       ("b", plain_node "b" BOX [] ["a"])] ["a"; "b"] in
  forall depth, remove_node depth "a" t = Raise RecursionError.
Proof.
  intros t depth.
  assert (forall d, remove_node d "a" t = Raise RecursionError /\
                    remove_node d "b" t = Raise RecursionError) as H.
  { induction d as [|d [IHa IHb]]; [done|]. split.
    - simpl. rewrite IHb. reflexivity.
    - simpl. rewrite IHa. reflexivity. }
  apply H.
Qed.

Example remove_node_order_twice :
  let t := plain_tree [("a", plain_node "a" BOX [] [])] ["a"; "a"] in
  remove_node 1 "a" t = Ok (plain_tree [] ["a"]).
Proof. vm_compute. reflexivity. Qed.

(** ** The dependency resolver ([feature_tree_code_generator.py])

    [dependency_graph] is only probed, hence a [gmap]; [in_degree] is
    iterated to seed the queue, hence an ordered dictionary. *)

(** The targets of a node's [parent_references], in order. *)
Definition refs (n : FeatureNode) : list string :=
  map feature_id (parent_references n).

(** The inner loop of [_build_dependency_graph] for one node. *)
Definition add_dependent (node_id : string) (g : gmap string (list string)) (parent_id : string)
    : gmap string (list string) :=
  match g !! parent_id with
  | Some deps => <[parent_id := deps ++ [node_id]]> g
  | None => g
  end.

(** [FeatureTreeCodeGenerator._build_dependency_graph] *)
Definition build_dependency_graph (t : FeatureTree) : gmap string (list string) :=
  let g0 := foldl (fun g node_id => <[node_id := []]> g) ∅ (Dict.keys (nodes t)) in
  foldl (fun g kn => foldl (add_dependent kn.1) g (refs kn.2)) g0 (nodes t).

(** [in_degree[node_id] += 1] and [in_degree[dependent] -= 1] *)
Definition bump (k : string) (delta : Z) (deg : Dict.t Z) : result (Dict.t Z) :=
  match Dict.get k deg with
  | Some d => Ok (Dict.set k (d + delta)%Z deg)
  | None => Raise (KeyError k)
  end.

(** The first two loops of [_resolve_dependencies]. *)
Definition initial_in_degree (t : FeatureTree) : result (Dict.t Z) :=
  let deg0 := foldl (fun deg node_id => Dict.set node_id 0%Z deg) [] (Dict.keys (nodes t)) in
  for_each
    (fun deg kn =>
       for_each
         (fun deg parent_id =>
            if Dict.contains parent_id deg then bump kn.1 1 deg else Ok deg)
         (refs kn.2) deg)
    (nodes t) deg0.

(** One pass of [for dependent in self.dependency_graph[current]]. *)
Definition release (st : Dict.t Z * list string) (dependent : string)
    : result (Dict.t Z * list string) :=
  deg ← bump dependent (-1) st.1;
  if decide (Dict.get dependent deg = Some 0%Z)
  then Ok (deg, st.2 ++ [dependent])
  else Ok (deg, st.2).

(** The [while queue:] loop; [steps] bounds the number of iterations, and a
    loop that has not finished by then is reported as [Unfinished]. *)
Fixpoint kahn_loop (steps : nat) (g : gmap string (list string))
    (deg : Dict.t Z) (queue order : list string) : result (list string) :=
  match steps with
  | O => Raise Unfinished
  | S steps' =>
      match queue with
      | [] => Ok order
      | current :: rest =>
          let order' := order ++ [current] in
          match g !! current with
          | Some deps =>
              st ← for_each release deps (deg, rest);
              kahn_loop steps' g st.1 st.2 order'
          | None => kahn_loop steps' g deg rest order'
          end
      end
  end.

(** [FeatureTreeCodeGenerator._resolve_dependencies]: the value left in
    [self.resolved_order].  The loop dequeues each node at most once, so
    one step per node and one for the final test are enough (see
    [resolve_dependencies_returns]). *)
Definition resolve_dependencies (g : gmap string (list string)) (t : FeatureTree)
    : result (list string) :=
  deg ← initial_in_degree t;
  let queue := (filter (fun kd => kd.2 = 0%Z) deg).*1 in
  order ← kahn_loop (S (length (nodes t))) g deg queue [];
  if decide (length order ≠ length (nodes t))
  then Ok (regeneration_order t)
  else Ok order.

(** The resolver as the generator runs it. *)
Definition resolve (t : FeatureTree) : result (list string) :=
  resolve_dependencies (build_dependency_graph t) t.

Definition diamond_tree : FeatureTree :=
  plain_tree [("u", plain_node "u" UNION ["b1"; "b2"] []);
              ("b2", plain_node "b2" BOX ["wp"] ["u"]);
              ("wp", plain_node "wp" WORKPLANE [] ["b1"; "b2"]);
              ("b1", plain_node "b1" BOX ["wp"] ["u"])]
             ["u"; "b2"; "wp"; "b1"].

Example resolve_diamond : resolve diamond_tree = Ok ["wp"; "b2"; "b1"; "u"].
Proof. vm_compute. reflexivity. Qed.

Definition cyclic_tree : FeatureTree :=
  plain_tree [("a", plain_node "a" BOX ["b"] []);
              ("b", plain_node "b" BOX ["a"] []);
              ("wp", plain_node "wp" WORKPLANE [] [])]
             ["b"; "wp"; "a"].

Example resolve_cyclic : resolve cyclic_tree = Ok ["b"; "wp"; "a"].
Proof. vm_compute. reflexivity. Qed.

(** ** Facts about the dependency graph *)

(** [occ k l]: how often [k] occurs in [l]. *)
Definition occ (k : string) (l : list string) : nat :=
  length (filter (fun x => x = k) l).

(** The nodes that refer to [p], once per reference, in dictionary order. *)
Definition dependents_in (items : Dict.t FeatureNode) (p : string) : list string :=
  items ≫= (fun kn => (fun _ => kn.1) <$> filter (fun r => r = p) (refs kn.2)).

Lemma occ_nil k : occ k [] = 0.
Proof. done. Qed.

Lemma occ_cons k x l : occ k (x :: l) = (if decide (x = k) then 1 else 0) + occ k l.
Proof. unfold occ. rewrite filter_cons. by destruct (decide (x = k)). Qed.

Lemma occ_app k l1 l2 : occ k (l1 ++ l2) = occ k l1 + occ k l2.
Proof. unfold occ. by rewrite filter_app, length_app. Qed.

Lemma occ_zero k l : k ∉ l -> occ k l = 0.
Proof.
  induction l as [|x l IH]; [done|]. rewrite not_elem_of_cons. intros [Hne Hl].
  rewrite occ_cons, decide_False by congruence. by rewrite IH.
Qed.

Lemma occ_pos k l : k ∈ l -> 0 < occ k l.
Proof.
  induction 1 as [x l|x y l _ IH]; rewrite occ_cons.
  - rewrite decide_True by done. lia.
  - lia.
Qed.

Lemma occ_const_fmap {A} k k' (l : list A) :
  occ k ((fun _ => k') <$> l) = if decide (k' = k) then length l else 0.
Proof.
  induction l as [|x l IH]; [by destruct (decide (k' = k))|].
  rewrite fmap_cons, occ_cons, IH. destruct (decide (k' = k)); simpl; lia.
Qed.

Lemma graph_init_lookup (ks : list string) (g : gmap string (list string)) p :
  foldl (fun g node_id => <[node_id := []]> g) g ks !! p =
  if decide (p ∈ ks) then Some [] else g !! p.
Proof.
  revert g. induction ks as [|k ks IH]; intros g; simpl; [done|].
  rewrite IH. destruct (decide (p ∈ ks)) as [Hin|Hin].
  - rewrite decide_True; [done | by right].
  - destruct (decide (p = k)) as [->|Hne].
    + rewrite lookup_insert_eq, decide_True; [done | left].
    + rewrite lookup_insert_ne by done.
      rewrite decide_False; [done|]. rewrite not_elem_of_cons. done.
Qed.

Lemma add_dependents_lookup k (rs : list string) (g : gmap string (list string)) p :
  foldl (add_dependent k) g rs !! p =
  (fun l => l ++ ((fun _ => k) <$> filter (fun r => r = p) rs)) <$> g !! p.
Proof.
  revert g. induction rs as [|r rs IH]; intros g; simpl.
  - destruct (g !! p); simpl; [by rewrite app_nil_r | done].
  - rewrite IH. unfold add_dependent. rewrite filter_cons.
    destruct (decide (r = p)) as [->|Hne].
    + destruct (g !! p) as [l|] eqn:E.
      * rewrite lookup_insert_eq. simpl. by rewrite <- app_assoc.
      * by rewrite E.
    + destruct (g !! r) as [l|] eqn:E; [|done].
      by rewrite lookup_insert_ne.
Qed.

Lemma add_all_dependents_lookup (items : Dict.t FeatureNode) (g : gmap string (list string)) p :
  foldl (fun g kn => foldl (add_dependent kn.1) g (refs kn.2)) g items !! p =
  (fun l => l ++ dependents_in items p) <$> g !! p.
Proof.
  revert g. induction items as [|[k n] items IH]; intros g; cbn [foldl].
  - destruct (g !! p); simpl; [by rewrite app_nil_r | done].
  - rewrite IH, add_dependents_lookup. unfold dependents_in. rewrite bind_cons.
    cbn [fst snd]. destruct (g !! p); simpl; [by rewrite <- app_assoc | done].
Qed.

Lemma build_dependency_graph_lookup t p :
  build_dependency_graph t !! p =
  if decide (p ∈ Dict.keys (nodes t)) then Some (dependents_in (nodes t) p) else None.
Proof.
  unfold build_dependency_graph. rewrite add_all_dependents_lookup, graph_init_lookup.
  rewrite lookup_empty. by destruct (decide (p ∈ Dict.keys (nodes t))).
Qed.

Lemma dependents_in_keys (items : Dict.t FeatureNode) p k :
  k ∈ dependents_in items p -> k ∈ Dict.keys items.
Proof.
  unfold dependents_in. intros ([k' n] & Hk & Hkn)%list_elem_of_bind.
  apply list_elem_of_fmap in Hk as (r & -> & _).
  apply list_elem_of_fmap. by exists (k', n).
Qed.

Lemma occ_dependents_in (items : Dict.t FeatureNode) p k n :
  NoDup (Dict.keys items) -> Dict.get k items = Some n ->
  occ k (dependents_in items p) = occ p (refs n).
Proof.
  induction items as [|[k' n'] items IH]; [done|].
  cbn [Dict.keys map fst Dict.get]. intros [Hk' Hnd]%NoDup_cons.
  unfold dependents_in. rewrite bind_cons, occ_app. cbn [fst snd].
  rewrite occ_const_fmap. fold (dependents_in items p). destruct (decide (k = k')) as [->|Hne].
  - intros [= ->]. rewrite decide_True by done.
    rewrite occ_zero; [unfold occ; lia|].
    intros Hin. by apply dependents_in_keys in Hin.
  - intros Hget. rewrite decide_False by congruence. simpl. by apply IH.
Qed.

(** ** Facts about [in_degree] *)

(** The parent references of [n] that target a node of the tree and have
    not been emitted in [order] yet. *)
Definition pending (t : FeatureTree) (order : list string) (n : FeatureNode) : nat :=
  length (filter (fun r => r ∈ Dict.keys (nodes t) ∧ r ∉ order) (refs n)).

Lemma set_fresh {V} k (v : V) (d : Dict.t V) :
  k ∉ Dict.keys d -> Dict.set k v d = d ++ [(k, v)].
Proof.
  induction d as [|[k' v'] d IH]; [done|]. cbn [Dict.keys map fst Dict.set].
  rewrite not_elem_of_cons. intros [Hne Hd].
  rewrite decide_False by done. rewrite IH by done. done.
Qed.

Lemma in_degree_zero (ks : list string) :
  NoDup ks ->
  foldl (fun deg node_id => Dict.set node_id 0%Z deg) [] ks = (fun k => (k, 0%Z)) <$> ks.
Proof.
  intros Hnd.
  assert (forall acc : Dict.t Z, (forall k, k ∈ ks -> k ∉ Dict.keys acc) ->
    foldl (fun deg node_id => Dict.set node_id 0%Z deg) acc ks
    = acc ++ ((fun k => (k, 0%Z)) <$> ks)) as H.
  { induction Hnd as [|k ks Hk Hnd IH]; intros acc Hacc; cbn [foldl].
    - by rewrite app_nil_r.
    - rewrite set_fresh by (apply Hacc; left). rewrite IH.
      + by rewrite <- app_assoc.
      + intros k' Hk'. unfold Dict.keys. rewrite map_app. cbn [map fst].
        rewrite elem_of_app, list_elem_of_singleton. intros [Hin| ->]; [|done].
        revert Hin. apply Hacc. by right. }
  apply (H []). intros k _. apply not_elem_of_nil.
Qed.

Lemma keys_zero (ks : list string) :
  Dict.keys ((fun k => (k, 0%Z)) <$> ks) = ks.
Proof.
  unfold Dict.keys. induction ks as [|k ks IH]; [done|].
  rewrite fmap_cons. cbn [map fst]. by rewrite IH.
Qed.

Lemma get_zero (ks : list string) k :
  Dict.get k ((fun k => (k, 0%Z)) <$> ks) = if decide (k ∈ ks) then Some 0%Z else None.
Proof.
  induction ks as [|k' ks IH]; [done|]. rewrite fmap_cons. cbn [Dict.get].
  destruct (decide (k = k')) as [->|Hne].
  - rewrite decide_True; [done | left].
  - rewrite IH. destruct (decide (k ∈ ks)).
    + rewrite decide_True; [done | by right].
    + rewrite decide_False; [done|]. rewrite not_elem_of_cons. done.
Qed.

Lemma bump_present k delta (deg : Dict.t Z) :
  k ∈ Dict.keys deg ->
  exists d, Dict.get k deg = Some d /\ bump k delta deg = Ok (Dict.set k (d + delta)%Z deg).
Proof.
  intros [d Hd]%keys_get_Some. exists d. split; [done|]. unfold bump. by rewrite Hd.
Qed.

Lemma keys_set_present {V} k (v : V) (d : Dict.t V) :
  k ∈ Dict.keys d -> Dict.keys (Dict.set k v d) = Dict.keys d.
Proof. intros Hk. by rewrite keys_set, decide_True. Qed.

Lemma get_set {V} k k' (v : V) (d : Dict.t V) :
  Dict.get k' (Dict.set k v d) = if decide (k' = k) then Some v else Dict.get k' d.
Proof.
  destruct (decide (k' = k)) as [->|Hne].
  - apply get_set_eq.
  - apply get_set_ne. congruence.
Qed.

(** The inner loop of the in-degree count, for the node [k]. *)
Lemma count_refs_loop (K : list string) k (rs : list string) : forall deg : Dict.t Z,
  Dict.keys deg = K -> k ∈ K ->
  exists deg',
    for_each (fun deg parent_id =>
                if Dict.contains parent_id deg then bump k 1 deg else Ok deg) rs deg
      = Ok deg' /\
    Dict.keys deg' = K /\
    forall k', Dict.get k' deg' =
      (fun d => d + (if decide (k' = k)
                     then Z.of_nat (length (filter (fun r => r ∈ K) rs)) else 0))%Z
      <$> Dict.get k' deg.
Proof.
  induction rs as [|r rs IH]; intros deg HK Hk.
  - exists deg. split; [done|]. split; [done|]. intros k'.
    destruct (Dict.get k' deg); simpl; [|done]. f_equal. destruct (decide (k' = k)); simpl; lia.
  - cbn [for_each]. rewrite filter_cons.
    destruct (Dict.contains r deg) eqn:Hr.
    + apply contains_keys in Hr. rewrite HK in Hr.
      destruct (bump_present k 1 deg) as (d & Hd & ->); [by rewrite HK|].
      cbn [bind].
      destruct (IH (Dict.set k (d + 1)%Z deg)) as (deg' & Hrun & HK' & Hget); [|done|].
      { rewrite keys_set_present; [done | by rewrite HK]. }
      exists deg'. split; [done|]. split; [done|]. intros k'.
      rewrite Hget, get_set. rewrite (decide_True (P := r ∈ K)) by done.
      destruct (decide (k' = k)) as [->|Hne].
      * rewrite Hd. simpl. f_equal. lia.
      * destruct (Dict.get k' deg); simpl; [f_equal; lia | done].
    + assert (r ∉ K) as HrK.
      { rewrite <- HK. intros Hin. apply contains_keys in Hin. congruence. }
      cbn [bind]. destruct (IH deg HK Hk) as (deg' & Hrun & HK' & Hget).
      exists deg'. split; [done|]. split; [done|]. intros k'.
      rewrite Hget, (decide_False (P := r ∈ K)) by done. done.
Qed.

(** What the in-degree count adds for [k'] over the dictionary entries [items]. *)
Definition counted (K : list string) (items : Dict.t FeatureNode) (k' : string) : nat :=
  sum_list ((fun kn => if decide (kn.1 = k')
                       then length (filter (fun r => r ∈ K) (refs kn.2)) else 0) <$> items).

Lemma in_degree_loop (K : list string) (items : Dict.t FeatureNode) : forall deg : Dict.t Z,
  (forall k, k ∈ Dict.keys items -> k ∈ K) -> Dict.keys deg = K ->
  exists deg',
    for_each
      (fun deg kn =>
         for_each (fun deg parent_id =>
                     if Dict.contains parent_id deg then bump kn.1 1 deg else Ok deg)
                  (refs kn.2) deg)
      items deg = Ok deg' /\
    Dict.keys deg' = K /\
    forall k', Dict.get k' deg' =
      (fun d => d + Z.of_nat (counted K items k'))%Z <$> Dict.get k' deg.
Proof.
  induction items as [|[k n] items IH]; intros deg Hin HK.
  - exists deg. split; [done|]. split; [done|]. intros k'. unfold counted. simpl.
    destruct (Dict.get k' deg); simpl; [f_equal; lia | done].
  - cbn [for_each fst snd].
    destruct (count_refs_loop K k (refs n) deg HK) as (deg1 & -> & HK1 & Hget1).
    { apply Hin. left. }
    cbn [bind]. destruct (IH deg1) as (deg' & Hrun & HK' & Hget); [|done|].
    { intros k' Hk'. apply Hin. by right. }
    exists deg'. split; [done|]. split; [done|]. intros k'.
    rewrite Hget, Hget1. unfold counted. rewrite fmap_cons. cbn [sum_list fst snd].
    destruct (Dict.get k' deg); simpl; [|done]. f_equal.
    destruct (decide (k' = k)) as [->|Hne].
    + rewrite decide_True by done. lia.
    + rewrite decide_False by congruence. lia.
Qed.

Lemma counted_get (K : list string) (items : Dict.t FeatureNode) k n :
  NoDup (Dict.keys items) -> Dict.get k items = Some n ->
  counted K items k = length (filter (fun r => r ∈ K) (refs n)).
Proof.
  unfold counted. induction items as [|[k' n'] items IH]; [done|].
  cbn [Dict.keys map fst Dict.get]. intros [Hk' Hnd]%NoDup_cons.
  rewrite fmap_cons. cbn [sum_list fst snd].
  assert (forall k0, k0 ∉ Dict.keys items ->
    sum_list ((fun kn => if decide (kn.1 = k0)
                then length (filter (fun r => r ∈ K) (refs kn.2)) else 0) <$> items) = 0) as Hz.
  { clear. induction items as [|[k1 n1] items IH]; intros k0; [done|].
    cbn [Dict.keys map fst]. rewrite not_elem_of_cons. intros [Hne Hk0].
    rewrite fmap_cons. cbn [sum_list fst snd]. rewrite decide_False by congruence.
    by rewrite IH. }
  destruct (decide (k = k')) as [->|Hne].
  - intros [= ->]. rewrite decide_True by done. rewrite Hz by done.
    unfold Datatypes.id. lia.
  - intros Hget. rewrite decide_False by congruence. by rewrite IH.
Qed.

Lemma pending_nil t n :
  pending t [] n = length (filter (fun r => r ∈ Dict.keys (nodes t)) (refs n)).
Proof.
  unfold pending. f_equal. apply list_filter_iff. intros r.
  split; [tauto|]. intros Hr. split; [done | apply not_elem_of_nil].
Qed.

Lemma initial_in_degree_spec t :
  NoDup (Dict.keys (nodes t)) ->
  exists deg,
    initial_in_degree t = Ok deg /\
    Dict.keys deg = Dict.keys (nodes t) /\
    forall k n, Dict.get k (nodes t) = Some n ->
      Dict.get k deg = Some (Z.of_nat (pending t [] n)).
Proof.
  intros Hnd. unfold initial_in_degree. rewrite in_degree_zero by done.
  destruct (in_degree_loop (Dict.keys (nodes t)) (nodes t)
              ((fun k => (k, 0%Z)) <$> Dict.keys (nodes t)))
    as (deg & Hrun & HK & Hget); [done | apply keys_zero |].
  exists deg. split; [done|]. split; [done|]. intros k n Hk.
  rewrite Hget, get_zero, decide_True by (by eapply get_Some_keys). simpl.
  rewrite (counted_get _ _ k n), pending_nil by done. done.
Qed.

Lemma occ_not_elem k l : occ k l = 0 -> k ∉ l.
Proof. intros H Hin. apply occ_pos in Hin. lia. Qed.

(** The loop over the dependents of the dequeued node: every in-degree
    drops by the number of occurrences, and the nodes that reach zero are
    queued once each. *)
Lemma release_loop (deps : list string) : forall (deg : Dict.t Z) (q : list string),
  (forall k, k ∈ deps ->
     exists d, Dict.get k deg = Some d /\ (Z.of_nat (occ k deps) <= d)%Z) ->
  exists deg' new,
    for_each release deps (deg, q) = Ok (deg', q ++ new) /\
    Dict.keys deg' = Dict.keys deg /\
    (forall k, Dict.get k deg' = (fun d => d - Z.of_nat (occ k deps))%Z <$> Dict.get k deg) /\
    NoDup new /\
    (forall k, k ∈ new <-> k ∈ deps /\ Dict.get k deg = Some (Z.of_nat (occ k deps))).
Proof.
  induction deps as [|dep deps IH]; intros deg q Hdeg.
  - exists deg, []. rewrite app_nil_r. split; [done|]. split; [done|]. split.
    { intros k. rewrite occ_nil. destruct (Dict.get k deg); simpl; [f_equal; lia | done]. }
    split; [constructor|]. intros k. split; [by intros ?%elem_of_nil|].
    by intros [?%elem_of_nil _].
  - destruct (Hdeg dep) as (d & Hd & Hle); [left|].
    rewrite occ_cons, decide_True in Hle by done.
    cbn [for_each]. unfold release at 1. cbn [fst snd]. unfold bump. rewrite Hd.
    unfold mbind, result_bind. cbn [bind]. rewrite get_set_eq.
    assert (Dict.keys (Dict.set dep (d + -1)%Z deg) = Dict.keys deg) as Hkeys1.
    { apply keys_set_present. by eapply get_Some_keys. }
    destruct (decide (Some (d + -1)%Z = Some 0%Z)) as [Hz|Hnz].
    + assert (d = 1%Z) as -> by (injection Hz; lia).
      assert (dep ∉ deps) as Hfresh by (apply occ_not_elem; lia).
      destruct (IH (Dict.set dep (1 + -1)%Z deg) (q ++ [dep])) as (deg' & new & Hrun & HK & Hget & Hnd & Hnew).
      { intros k Hk. destruct (Hdeg k) as (dk & Hdk & Hlek); [by right|].
        assert (k ≠ dep) as Hne by (intros ->; done).
        exists dk. rewrite get_set_ne by done. split; [done|].
        rewrite occ_cons, decide_False in Hlek by done. lia. }
      exists deg', (dep :: new). cbn [bind]. rewrite Hrun.
      split; [by rewrite <- app_assoc|]. split; [congruence|]. split; [|split].
      * intros k. rewrite Hget, get_set, occ_cons.
        destruct (decide (k = dep)) as [->|Hne].
        -- rewrite decide_True, Hd by done. simpl. f_equal. rewrite occ_zero by done. lia.
        -- rewrite decide_False by congruence.
           destruct (Dict.get k deg); simpl; [f_equal; lia | done].
      * constructor; [|done]. intros Hin. apply Hnew in Hin as [Hin _]. done.
      * intros k. rewrite elem_of_cons, Hnew, get_set, occ_cons.
        destruct (decide (k = dep)) as [->|Hne].
        -- rewrite decide_True by done. rewrite occ_zero by done.
           split; [|auto]. intros _. split; [left | by rewrite Hd].
        -- rewrite decide_False by congruence. rewrite elem_of_cons. simpl. tauto.
    + destruct (IH (Dict.set dep (d + -1)%Z deg) q) as (deg' & new & Hrun & HK & Hget & Hnd & Hnew).
      { intros k Hk. rewrite get_set. destruct (decide (k = dep)) as [->|Hne].
        - eexists. split; [done|]. lia.
        - destruct (Hdeg k) as (dk & Hdk & Hlek); [by right|].
          exists dk. split; [done|].
          rewrite occ_cons, decide_False in Hlek by congruence. lia. }
      exists deg', new. cbn [bind]. rewrite Hrun.
      split; [done|]. split; [congruence|]. split; [|split; [done|]].
      * intros k. rewrite Hget, get_set, occ_cons.
        destruct (decide (k = dep)) as [->|Hne].
        -- rewrite decide_True, Hd by done. simpl. f_equal. lia.
        -- rewrite decide_False by congruence.
           destruct (Dict.get k deg); simpl; [f_equal; lia | done].
      * intros k. rewrite Hnew, get_set, occ_cons, elem_of_cons.
        destruct (decide (k = dep)) as [->|Hne].
        -- rewrite decide_True, Hd by done. split.
           ++ intros [Hin [= Heq]]. split; [by left|]. f_equal. lia.
           ++ intros [_ [= Heq]]. split.
              ** destruct (decide (dep ∈ deps)) as [|Hout]; [done|].
                 exfalso. apply Hnz. f_equal. rewrite (occ_zero dep deps) in Heq by done. lia.
              ** f_equal. lia.
        -- rewrite decide_False by congruence. simpl. tauto.
Qed.

(** ** The invariant of Kahn's loop *)

(** [a] has a parent reference to [b]. *)
Definition parent_edge (t : FeatureTree) (a b : string) : Prop :=
  exists n, Dict.get a (nodes t) = Some n /\ b ∈ refs n.

Definition parents_acyclic (t : FeatureTree) : Prop :=
  forall x, ~ tc (parent_edge t) x x.

Definition parents_present (t : FeatureTree) : Prop :=
  forall a b, parent_edge t a b -> b ∈ Dict.keys (nodes t).

Record kahn_inv (t : FeatureTree) (deg : Dict.t Z) (queue order : list string) : Prop :=
  mk_kahn_inv {
  ki_nodup : NoDup (order ++ queue);
  ki_keys : forall k, k ∈ order ++ queue -> k ∈ Dict.keys (nodes t);
  ki_deg_keys : Dict.keys deg = Dict.keys (nodes t);
  ki_deg : forall k n, Dict.get k (nodes t) = Some n ->
      Dict.get k deg = Some (Z.of_nat (pending t order n));
  ki_ready : forall k n, Dict.get k (nodes t) = Some n ->
      (k ∈ order ++ queue <-> pending t order n = 0);
  ki_topo : forall i k n r, order !! i = Some k -> Dict.get k (nodes t) = Some n ->
      r ∈ refs n -> r ∈ Dict.keys (nodes t) -> r ∈ take i order
}.

Lemma pending_snoc t order c n :
  c ∈ Dict.keys (nodes t) -> c ∉ order ->
  pending t order n = pending t (order ++ [c]) n + occ c (refs n).
Proof.
  intros HcK Hc. unfold pending, occ.
  induction (refs n) as [|r rs IH]; [done|].
  rewrite !filter_cons. destruct (decide (r = c)) as [->|Hne].
  - rewrite decide_True by done.
    rewrite decide_False.
    2:{ intros [_ Hn]. apply Hn. apply elem_of_app. right. left. }
    simpl. lia.
  - destruct (decide (r ∈ Dict.keys (nodes t) ∧ r ∉ order)) as [[H1 H2]|Hno].
    + rewrite decide_True.
      2:{ split; [done|]. rewrite elem_of_app, list_elem_of_singleton. tauto. }
      simpl. lia.
    + rewrite decide_False; [done|].
      intros [H1 H2]. apply Hno. split; [done|]. intros Hin. apply H2.
      apply elem_of_app. by left.
Qed.

Lemma pending_zero t order n :
  pending t order n = 0 <->
  forall r, r ∈ refs n -> r ∈ Dict.keys (nodes t) -> r ∈ order.
Proof.
  unfold pending. split.
  - intros Hz r Hr HrK. destruct (decide (r ∈ order)) as [|Hout]; [done|].
    assert (r ∈ filter (fun r => r ∈ Dict.keys (nodes t) ∧ r ∉ order) (refs n)) as Hin.
    { apply list_elem_of_filter. done. }
    destruct (filter _ (refs n)); [by apply elem_of_nil in Hin | done].
  - intros Hall. destruct (filter _ (refs n)) as [|r rs] eqn:E; [done|].
    assert (r ∈ filter (fun r => r ∈ Dict.keys (nodes t) ∧ r ∉ order) (refs n)) as Hin
      by (rewrite E; left).
    apply list_elem_of_filter in Hin as [[HrK Hout] Hr]. exfalso. auto.
Qed.

Lemma elem_of_dict {V} (d : Dict.t V) k v :
  NoDup (Dict.keys d) -> (k, v) ∈ d <-> Dict.get k d = Some v.
Proof.
  induction d as [|[k' v'] d IH]; cbn [Dict.keys map fst Dict.get].
  - intros _. split; [by intros ?%elem_of_nil | done].
  - intros [Hk' Hnd]%NoDup_cons. rewrite elem_of_cons, IH by done.
    destruct (decide (k = k')) as [->|Hne].
    + split; [|intros [= ->]; by left].
      intros [[= ->]|Hget]; [done|]. by apply get_Some_keys in Hget.
    + split; [|by right]. intros [[= ? ?]|?]; done.
Qed.

(** One iteration of the loop body. *)
Lemma kahn_step t deg current rest order :
  NoDup (Dict.keys (nodes t)) ->
  kahn_inv t deg (current :: rest) order ->
  exists deg' new,
    for_each release (dependents_in (nodes t) current) (deg, rest) = Ok (deg', rest ++ new) /\
    kahn_inv t deg' (rest ++ new) (order ++ [current]).
Proof.
  intros HndK [Hnd Hkeys HdK Hdeg Hready Htopo].
  set (deps := dependents_in (nodes t) current).
  assert (current ∈ Dict.keys (nodes t)) as HcK.
  { apply Hkeys. apply elem_of_app. right. left. }
  assert (current ∉ order) as Hcord.
  { apply NoDup_app in Hnd as (_ & Hdisj & _). intros Hin. apply (Hdisj _ Hin). left. }
  assert (forall k n, Dict.get k (nodes t) = Some n -> occ k deps = occ current (refs n)) as Hocc.
  { intros k n Hk. by apply occ_dependents_in. }
  assert (forall k n, Dict.get k (nodes t) = Some n ->
            pending t order n = pending t (order ++ [current]) n + occ k deps) as Hpend.
  { intros k n Hk. rewrite (Hocc k n Hk). by apply pending_snoc. }
  destruct (release_loop deps deg rest) as (deg' & new & Hrun & HK' & Hget & Hndnew & Hnew).
  { intros k Hk. apply dependents_in_keys, keys_get_Some in Hk as [n Hn].
    exists (Z.of_nat (pending t order n)). split; [by apply Hdeg|].
    rewrite (Hpend k n Hn). lia. }
  exists deg', new. split; [done|].
  assert (forall k, k ∈ new -> k ∈ Dict.keys (nodes t) /\ k ∉ order ++ current :: rest) as Hnew_out.
  { intros k [Hk Hgetk]%Hnew. pose proof (dependents_in_keys _ _ _ Hk) as HkK.
    split; [done|]. apply keys_get_Some in HkK as [n Hn].
    rewrite (Hdeg k n Hn) in Hgetk. injection Hgetk as Hgetk.
    apply occ_pos in Hk. intros Hin. apply (Hready k n Hn) in Hin. lia. }
  split.
  - rewrite <- app_assoc. cbn [app]. rewrite app_comm_cons, app_assoc.
    apply NoDup_app. split; [done|]. split; [|done].
    intros k Hk Hk'. by apply Hnew_out in Hk' as [_ ?].
  - intros k. rewrite <- app_assoc. cbn [app]. rewrite app_comm_cons, app_assoc.
    intros [Hk|Hk]%elem_of_app; [by apply Hkeys | by apply Hnew_out].
  - congruence.
  - intros k n Hk. rewrite Hget, (Hdeg k n Hk). simpl. f_equal.
    rewrite (Hpend k n Hk). lia.
  - intros k n Hk. rewrite <- app_assoc. cbn [app]. rewrite app_comm_cons, app_assoc.
    rewrite elem_of_app, (Hready k n Hk), Hnew, (Hdeg k n Hk), (Hpend k n Hk).
    split.
    + intros [Hz|[Hin [= Heq]]]; lia.
    + intros Hz. destruct (decide (occ k deps = 0)) as [Hz'|Hnz]; [left; lia|].
      right. split; [|f_equal; lia].
      destruct (decide (k ∈ deps)) as [|Hout]; [done|]. by apply occ_zero in Hout.
  - intros i k n r Hi Hk Hr HrK.
    apply lookup_snoc_Some in Hi as [[Hlt Hi]|[-> <-]].
    + rewrite take_app_le by lia. by eapply Htopo.
    + rewrite take_app_length.
      assert (pending t order n = 0) as Hz.
      { apply (Hready current n Hk). apply elem_of_app. right. left. }
      by apply (pending_zero t order n).
Qed.

Lemma kahn_loop_spec t steps : forall deg queue order,
  NoDup (Dict.keys (nodes t)) ->
  kahn_inv t deg queue order ->
  length (nodes t) - length order < steps ->
  exists order' deg',
    kahn_loop steps (build_dependency_graph t) deg queue order = Ok order' /\
    kahn_inv t deg' [] order'.
Proof.
  induction steps as [|steps IH]; intros deg queue order HndK Hinv Hsteps; [lia|].
  destruct queue as [|current rest]; [by exists order, deg|].
  cbn [kahn_loop]. rewrite build_dependency_graph_lookup.
  assert (current ∈ Dict.keys (nodes t)) as HcK.
  { apply (ki_keys _ _ _ _ Hinv). apply elem_of_app. right. left. }
  rewrite decide_True by done.
  destruct (kahn_step t deg current rest order HndK Hinv) as (deg' & new & -> & Hinv').
  unfold mbind, result_bind. cbn [bind fst snd].
  apply (IH _ _ _ HndK Hinv').
  pose proof (ki_nodup _ _ _ _ Hinv) as Hnd.
  assert (length (order ++ current :: rest) <= length (Dict.keys (nodes t))) as Hlen.
  { apply submseteq_length, NoDup_submseteq; [done|]. apply (ki_keys _ _ _ _ Hinv). }
  unfold Dict.keys in Hlen. rewrite length_map in Hlen.
  rewrite !length_app in *. simpl in *. lia.
Qed.

Lemma kahn_initial t deg :
  NoDup (Dict.keys (nodes t)) ->
  Dict.keys deg = Dict.keys (nodes t) ->
  (forall k n, Dict.get k (nodes t) = Some n ->
     Dict.get k deg = Some (Z.of_nat (pending t [] n))) ->
  kahn_inv t deg (filter (fun kd => kd.2 = 0%Z) deg).*1 [].
Proof.
  intros HndK HK Hdeg.
  assert (forall k, k ∈ (filter (fun kd => kd.2 = 0%Z) deg).*1 <->
                    Dict.get k deg = Some 0%Z) as Hq.
  { intros k. rewrite list_elem_of_fmap. split.
    - intros ([k' v] & -> & Hin). apply list_elem_of_filter in Hin as [Hv Hin].
      simpl in *. subst v. apply elem_of_dict; [by rewrite HK | done].
    - intros Hget. exists (k, 0%Z). split; [done|].
      apply list_elem_of_filter. split; [done|].
      apply elem_of_dict; [by rewrite HK | done]. }
  split; cbn [app].
  - apply (sublist_NoDup _ (deg.*1)).
    + change (NoDup (Dict.keys deg)). by rewrite HK.
    + apply fmap_sublist, sublist_filter.
  - intros k Hk%Hq. rewrite <- HK. by eapply get_Some_keys.
  - done.
  - done.
  - intros k n Hk. rewrite Hq, (Hdeg k n Hk). split; [intros [= ?]; lia | intros ->; done].
  - intros i k n r Hi. by rewrite lookup_nil in Hi.
Qed.

(** The loop returns within the step budget, with the invariant. *)
Lemma resolve_loop_spec t :
  NoDup (Dict.keys (nodes t)) ->
  exists deg order deg',
    initial_in_degree t = Ok deg /\
    kahn_loop (S (length (nodes t))) (build_dependency_graph t) deg
      (filter (fun kd => kd.2 = 0%Z) deg).*1 [] = Ok order /\
    kahn_inv t deg' [] order.
Proof.
  intros HndK. destruct (initial_in_degree_spec t HndK) as (deg & Hdeg & HK & Hget).
  destruct (kahn_loop_spec t (S (length (nodes t))) deg
              (filter (fun kd => kd.2 = 0%Z) deg).*1 [])
    as (order & deg' & Hrun & Hinv); [done | by apply kahn_initial | simpl; lia |].
  by exists deg, order, deg'.
Qed.

(** ** The resolved order *)

Lemma parent_edge_finite t x : pred_finite (tc (parent_edge t) x).
Proof.
  exists (Dict.values (nodes t) ≫= refs). intros y Hy.
  assert (exists z, parent_edge t z y) as (z & n & Hget & Hin).
  { induction Hy; eauto. }
  apply list_elem_of_bind. exists n. split; [done|].
  by eapply get_Some_values.
Qed.

Lemma parent_edge_sn t x : parents_acyclic t -> sn (parent_edge t) x.
Proof.
  intros Hac. apply tc_finite_sn; [|apply parent_edge_finite].
  intros y Hy. by apply (Hac y).
Qed.

(** Without a cycle, the loop emits every node. *)
Lemma kahn_complete t deg order :
  kahn_inv t deg [] order -> parents_acyclic t ->
  forall k, k ∈ Dict.keys (nodes t) -> k ∈ order.
Proof.
  intros Hinv Hac k.
  induction (parent_edge_sn t k Hac) as [k _ IH]. intros Hk.
  destruct (keys_get_Some _ _ Hk) as [n Hn].
  pose proof (ki_ready _ _ _ _ Hinv k n Hn) as Hready.
  rewrite app_nil_r in Hready. apply Hready, pending_zero.
  intros r Hr HrK. apply IH; [|done]. by exists n.
Qed.

(** A node on a cycle is never emitted after all its parents. *)
Lemma kahn_incomplete t deg order :
  NoDup (Dict.keys (nodes t)) ->
  kahn_inv t deg [] order -> (exists x, tc (parent_edge t) x x) ->
  length order ≠ length (nodes t).
Proof.
  intros HndK Hinv [x Hx] Hlen.
  pose proof (ki_nodup _ _ _ _ Hinv) as Hnd. rewrite app_nil_r in Hnd.
  assert (order ≡ₚ Dict.keys (nodes t)) as Hperm.
  { apply submseteq_length_Permutation.
    - apply NoDup_submseteq; [done|]. intros k Hk.
      apply (ki_keys _ _ _ _ Hinv). by rewrite app_nil_r.
    - unfold Dict.keys. rewrite length_map. lia. }
  assert (forall a, (exists b, parent_edge t a b) -> a ∈ order) as Hsrc.
  { intros a (b & n & Hn & _). rewrite Hperm. by eapply get_Some_keys. }
  assert (forall a b, tc (parent_edge t) a b -> b ∈ order ->
            forall i, order !! i = Some a -> exists j, j < i /\ order !! j = Some b) as Hdown.
  { intros a b Hab. induction Hab as [a b (n & Hn & Hb)|a c b (n & Hn & Hc) Hcb IH];
      intros Hbo i Hi.
    - assert (b ∈ take i order) as Hin.
      { apply (ki_topo _ _ _ _ Hinv i a n b); [done..|]. by rewrite <- Hperm. }
      apply elem_of_take in Hin as (j & Hj & Hlt). eauto.
    - assert (c ∈ order) as Hco.
      { apply Hsrc. inversion Hcb; eauto. }
      assert (c ∈ take i order) as Hin.
      { apply (ki_topo _ _ _ _ Hinv i a n c); [done..|]. by rewrite <- Hperm. }
      apply elem_of_take in Hin as (j & Hj & Hlt).
      destruct (IH Hbo j Hj) as (j' & Hlt' & Hj'). exists j'. split; [lia | done]. }
  assert (x ∈ order) as Hxo.
  { apply Hsrc. inversion Hx; eauto. }
  apply list_elem_of_lookup in Hxo as [i Hi].
  destruct (Hdown x x Hx (list_elem_of_lookup_2 _ _ _ Hi) i Hi) as (j & Hlt & Hj).
  pose proof (NoDup_lookup _ _ _ _ Hnd Hi Hj). lia.
Qed.

(** C2. For a tree whose parent-reference graph is acyclic and whose parent
    references all target nodes of the tree, the resolver returns an order
    that is a permutation of the keys of [nodes], in which every node comes
    strictly after each target of its [parent_references]. *)
Theorem resolve_topological (t : FeatureTree) :
  NoDup (Dict.keys (nodes t)) ->
  parents_acyclic t -> parents_present t ->
  exists order,
    resolve t = Ok order /\
    order ≡ₚ Dict.keys (nodes t) /\
    forall k n r, Dict.get k (nodes t) = Some n -> r ∈ refs n ->
      exists i j, order !! i = Some r /\ order !! j = Some k /\ i < j.
Proof.
  intros HndK Hac Hpres.
  destruct (resolve_loop_spec t HndK) as (deg & order & deg' & Hdeg & Hrun & Hinv).
  pose proof (ki_nodup _ _ _ _ Hinv) as Hnd. rewrite app_nil_r in Hnd.
  assert (order ≡ₚ Dict.keys (nodes t)) as Hperm.
  { apply NoDup_Permutation; [done..|]. intros k. split.
    - intros Hk. apply (ki_keys _ _ _ _ Hinv). by rewrite app_nil_r.
    - by apply (kahn_complete t deg' order). }
  exists order. split; [|split; [done|]].
  - unfold resolve, resolve_dependencies. rewrite Hdeg.
    unfold mbind, result_bind. cbn [bind]. rewrite Hrun. cbn [bind].
    rewrite decide_False; [done|]. intros Hne. apply Hne.
    rewrite Hperm. unfold Dict.keys. by rewrite length_map.
  - intros k n r Hk Hr.
    assert (k ∈ order) as Hko by (rewrite Hperm; by eapply get_Some_keys).
    apply list_elem_of_lookup in Hko as [j Hj].
    assert (r ∈ take j order) as Hin.
    { apply (ki_topo _ _ _ _ Hinv j k n r); [done..|]. apply (Hpres k r). by exists n. }
    apply elem_of_take in Hin as (i & Hi & Hlt). by exists i, j.
Qed.

(** C3 (amended). On a tree whose parent-reference graph has a cycle the
    resolver raises nothing: it detects the cycle by the length of its
    output and itself falls back to the tree's stored regeneration order. *)
Theorem resolve_cycle_falls_back (t : FeatureTree) :
  NoDup (Dict.keys (nodes t)) ->
  (exists x, tc (parent_edge t) x x) ->
  resolve t = Ok (regeneration_order t).
Proof.
  intros HndK Hcyc.
  destruct (resolve_loop_spec t HndK) as (deg & order & deg' & Hdeg & Hrun & Hinv).
  unfold resolve, resolve_dependencies. rewrite Hdeg.
  unfold mbind, result_bind. cbn [bind]. rewrite Hrun. cbn [bind].
  rewrite decide_True; [done|]. by eapply kahn_incomplete.
Qed.


Lemma get_Some_elem {V} k (v : V) (d : Dict.t V) : Dict.get k d = Some v -> (k, v) ∈ d.
Proof.
  induction d as [|[k' v'] d IH]; cbn [Dict.get]; [done|].
  destruct (decide (k = k')) as [->|]; [intros [= ->]; left | right; auto].
Qed.

(** Decidable forms of the two hypotheses, for concrete trees. *)
Definition ranked (rank : string -> nat) (t : FeatureTree) : Prop :=
  Forall (fun kn => Forall (fun r => rank r < rank kn.1) (refs kn.2)) (nodes t).

Definition all_parents_present (t : FeatureTree) : Prop :=
  Forall (fun kn => Forall (fun r => r ∈ Dict.keys (nodes t)) (refs kn.2)) (nodes t).

Lemma parents_acyclic_by_rank (t : FeatureTree) (rank : string -> nat) :
  ranked rank t -> parents_acyclic t.
Proof.
  intros Hrank x Hx.
  assert (forall a b, tc (parent_edge t) a b -> rank b < rank a) as Htc.
  { intros a b Hab. induction Hab as [a b (n & Hn & Hb)|a b c (n & Hn & Hb) _ IH].
    - apply get_Some_elem in Hn. unfold ranked in Hrank.
      rewrite Forall_forall in Hrank. specialize (Hrank _ Hn).
      rewrite Forall_forall in Hrank. by apply Hrank.
    - apply get_Some_elem in Hn. unfold ranked in Hrank.
      rewrite Forall_forall in Hrank. specialize (Hrank _ Hn).
      rewrite Forall_forall in Hrank. specialize (Hrank _ Hb). simpl in *. lia. }
  apply Htc in Hx. lia.
Qed.

Lemma parents_present_by_check (t : FeatureTree) :
  all_parents_present t -> parents_present t.
Proof.
  intros Hall a b (n & Hn & Hb). apply get_Some_elem in Hn.
  unfold all_parents_present in Hall. rewrite Forall_forall in Hall.
  specialize (Hall _ Hn). rewrite Forall_forall in Hall. by apply Hall.
Qed.

Definition diamond_rank (k : string) : nat :=
  if decide (k = "wp") then 0 else if decide (k = "u") then 2 else 1.

Lemma resolve_topological_witness :
  exists order,
    resolve diamond_tree = Ok order /\
    order ≡ₚ Dict.keys (nodes diamond_tree) /\
    forall k n r, Dict.get k (nodes diamond_tree) = Some n -> r ∈ refs n ->
      exists i j, order !! i = Some r /\ order !! j = Some k /\ i < j.
Proof.
  apply (resolve_topological diamond_tree).
  - compute_done.
  - apply (parents_acyclic_by_rank _ diamond_rank). compute_done.
  - apply parents_present_by_check. compute_done.
Defined.

Lemma cyclic_tree_has_cycle : exists x, tc (parent_edge cyclic_tree) x x.
Proof.
  exists "a". apply (tc_l _ "a" "b" "a").
  - exists (plain_node "a" BOX ["b"] []). split; [done | left].
  - apply tc_once. exists (plain_node "b" BOX ["a"] []). split; [done | left].
Qed.

Lemma resolve_cycle_falls_back_witness :
  resolve cyclic_tree = Ok (regeneration_order cyclic_tree).
Proof.
  apply (resolve_cycle_falls_back cyclic_tree).
  - compute_done.
  - exact cyclic_tree_has_cycle.
Defined.

(** C3 as stated fails: on a cyclic tree the resolver returns an order. *)
Lemma resolve_cycle_returns_order :
  (exists x, tc (parent_edge cyclic_tree) x x) /\
  resolve cyclic_tree = Ok ["b"; "wp"; "a"].
Proof. split; [exact cyclic_tree_has_cycle | vm_compute; reflexivity]. Qed.

(** ** The validator ([feature_tree_validator.py]) *)

(** [FeatureTreeValidator.valid_parent_types]; [None] for a type without an
    entry.  Each set is listed in the order of the source; the order in
    which the interpreter iterates a set of more than one element is not
    fixed, which only shows in the wording of [invalid_parent_message]. *)
Definition valid_parent_types (ft : FeatureType) : option (list FeatureType) :=
  match ft with
  | SKETCH => Some [WORKPLANE; BOX; CYLINDER; SPHERE; EXTRUDE; REVOLVE]
  | EXTRUDE => Some [SKETCH]
  | REVOLVE => Some [SKETCH]
  | BOX => Some [WORKPLANE]
  | CYLINDER => Some [WORKPLANE]
  | SPHERE => Some [WORKPLANE]
  | FILLET => Some [BOX; CYLINDER; SPHERE; EXTRUDE; REVOLVE; UNION; DIFFERENCE]
  | CHAMFER => Some [BOX; CYLINDER; SPHERE; EXTRUDE; REVOLVE; UNION; DIFFERENCE]
  | UNION => Some [BOX; CYLINDER; SPHERE; EXTRUDE; REVOLVE]
  | DIFFERENCE => Some [BOX; CYLINDER; SPHERE; EXTRUDE; REVOLVE]
  | _ => None
  end.

Definition solid_types : list FeatureType :=
  [BOX; CYLINDER; SPHERE; EXTRUDE; REVOLVE; UNION; DIFFERENCE].

Definition surface_operation_types : list FeatureType := [FILLET; CHAMFER].

Definition boolean_operation_types : list FeatureType := [UNION; DIFFERENCE].

Definition is_type_in (ft : FeatureType) (l : list FeatureType) : bool :=
  bool_decide (ft ∈ l).

(** [", ".join(xs)] and friends. *)
Fixpoint join (sep : string) (xs : list string) : string :=
  match xs with
  | [] => ""
  | [x] => x
  | x :: xs' => x +:+ sep +:+ join sep xs'
  end.

(** The text of a list of plain words, as [str] prints it. *)
Definition list_of_words (xs : list string) : string :=
  "[" +:+ join ", " (map (fun x => "'" +:+ x +:+ "'") xs) +:+ "]".

Definition already_exists_message (node_id : string) : string :=
  "Node with ID " +:+ node_id +:+ " already exists in tree".

Definition parent_missing_message (parent_id : string) : string :=
  "Parent node " +:+ parent_id +:+ " does not exist in tree".

Definition reference_missing_message (ref_id : string) : string :=
  "Referenced parent node " +:+ ref_id +:+ " does not exist in tree".

Definition invalid_parent_message (child parent : FeatureType) (valid : list FeatureType) : string :=
  "Invalid parent type: " +:+ feature_type_value child +:+ " cannot be created from "
  +:+ feature_type_value parent +:+ ". Valid parent types: "
  +:+ list_of_words (map feature_type_value valid).

Definition circular_message (node_id : string) : string :=
  "Adding node " +:+ node_id +:+ " would create a circular dependency".

Definition boolean_arity_message (ft : FeatureType) (found : nat) : string :=
  "Boolean operation " +:+ feature_type_value ft +:+ " requires 2 solid parents, but only "
  +:+ pretty found +:+ " found. Add more solid parent references.".

Definition no_impact_message (node_name : string) (ft : FeatureType) : string :=
  "Node " +:+ node_name +:+ " (" +:+ feature_type_value ft +:+ ") will not affect "
  +:+ "the final model result. Ensure it's properly connected to the dependency chain.".

(** The loop of [_validate_parent_references] over the node's references. *)
Definition check_reference (tree : FeatureTree) (new_node : FeatureNode)
    (errors : list string) (ref : FeatureReference) : list string :=
  match Dict.get (feature_id ref) (nodes tree) with
  | None => errors ++ [reference_missing_message (feature_id ref)]
  | Some parent_node =>
      match valid_parent_types (feature_type new_node) with
      | Some valid_parents =>
          if is_type_in (feature_type parent_node) valid_parents then errors
          else errors ++ [invalid_parent_message (feature_type new_node)
                            (feature_type parent_node) valid_parents]
      | None => errors
      end
  end.

(** [_validate_parent_references] *)
Definition validate_parent_references (tree : FeatureTree) (new_node : FeatureNode)
    (parent_id : option string) : list string :=
  match parent_id with
  | Some p =>
      if truthy_id parent_id && negb (Dict.contains p (nodes tree))
      then [parent_missing_message p]
      else foldl (check_reference tree new_node) [] (parent_references new_node)
  | None => foldl (check_reference tree new_node) [] (parent_references new_node)
  end.

(** The warnings [_validate_semantic_constraints] logs; it returns no error. *)
Inductive warning :=
| SurfaceBeforeBoolean (ft : FeatureType) (parent_name : string) (operations : list string)
| SketchReminder (sketch_name : string)
| WorkplaneReminder (workplane_name : string).

(** [_find_future_boolean_operations] *)
Definition find_future_boolean_operations (tree : FeatureTree) (node_id : string)
    : list FeatureNode :=
  List.filter
    (fun other =>
       is_type_in (feature_type other) boolean_operation_types
       && existsb (fun ref => bool_decide (feature_id ref = node_id)) (parent_references other))
    (Dict.values (nodes tree)).

Definition semantic_warnings (tree : FeatureTree) (new_node : FeatureNode)
    (parent_id : option string) : list warning :=
  (match parent_id with
   | Some p =>
       if is_type_in (feature_type new_node) surface_operation_types && truthy_id parent_id then
         match Dict.get p (nodes tree) with
         | Some parent_node =>
             match find_future_boolean_operations tree (id parent_node) with
             | [] => []
             | ops => [SurfaceBeforeBoolean (feature_type new_node) (name parent_node)
                         (map name ops)]
             end
         | None => []
         end
       else []
   | None => []
   end)
  ++ (if decide (feature_type new_node = SKETCH) then [SketchReminder (name new_node)] else [])
  ++ (if decide (feature_type new_node = WORKPLANE) then [WorkplaneReminder (name new_node)] else []).

(** [_validate_semantic_constraints] *)
Definition validate_semantic_constraints (tree : FeatureTree) (new_node : FeatureNode)
    (parent_id : option string) : list string :=
  [].

(** [_create_temp_tree_with_node] *)
Definition create_temp_tree_with_node (tree : FeatureTree) (new_node : FeatureNode) : FeatureTree :=
  mkFeatureTree "" (project_id tree) (version tree) (tree_name tree) None
    (Dict.set (id new_node) new_node (nodes tree))
    (regeneration_order tree ++ [id new_node])
    (global_parameters tree) None false false None (created_by tree).

(** A loop that returns [True] from the enclosing function at the first
    element for which the body does. *)
Fixpoint first_true {S X} (body : X -> S -> result (bool * S)) (xs : list X) (s : S)
    : result (bool * S) :=
  match xs with
  | [] => Ok (false, s)
  | x :: xs' =>
      bind (body x s)
        (fun r => if fst r then Ok (true, snd r) else first_true body xs' (snd r))
  end.

(** The closure [has_cycle] of [_validate_dependencies]; the state is
    [(visited, rec_stack)]. *)
Fixpoint has_cycle (depth : nat) (ns : Dict.t FeatureNode) (node_id : string)
    (st : gset string * gset string) : result (bool * (gset string * gset string)) :=
  match depth with
  | O => Raise RecursionError
  | S depth' =>
      if decide (node_id ∈ snd st) then Ok (true, st)
      else if decide (node_id ∈ fst st) then Ok (false, st)
      else
        let st1 := ({[node_id]} ∪ fst st, {[node_id]} ∪ snd st) in
        bind
          match Dict.get node_id ns with
          | Some node =>
              first_true (fun ref st' => has_cycle depth' ns (feature_id ref) st')
                (parent_references node) st1
          | None => Ok (false, st1)
          end
          (fun r =>
             if fst r then Ok (true, snd r)
             else if decide (node_id ∈ snd (snd r))
                  then Ok (false, (fst (snd r), snd (snd r) ∖ {[node_id]}))
                  else Raise (KeyError node_id))
  end.

(** [_validate_dependencies].  A call of [has_cycle] that recurses adds an
    unvisited node of the tree to [visited], so a stack as deep as the tree
    has nodes, plus one frame, is enough (see [has_cycle_returns]). *)
Definition validate_dependencies (tree : FeatureTree) (new_node : FeatureNode)
    : result (list string) :=
  let temp_tree := create_temp_tree_with_node tree new_node in
  bind (has_cycle (S (length (nodes temp_tree))) (nodes temp_tree) (id new_node) (∅, ∅))
    (fun r => if fst r then Ok [circular_message (id new_node)] else Ok []).

(** [_validate_boolean_operation] *)
Definition solid_parents (tree : FeatureTree) (new_node : FeatureNode) : list FeatureNode :=
  omap (fun ref =>
          match Dict.get (feature_id ref) (nodes tree) with
          | Some parent_node =>
              if is_type_in (feature_type parent_node) solid_types then Some parent_node else None
          | None => None
          end)
       (parent_references new_node).

Definition validate_boolean_operation (tree : FeatureTree) (new_node : FeatureNode)
    : list string :=
  if negb (is_type_in (feature_type new_node) boolean_operation_types) then []
  else
    let found := length (solid_parents tree new_node) in
    if decide (found < 2)
    then [boolean_arity_message (feature_type new_node) found]
    else [].

(** The closure [traces_to_solid] of [_node_affects_result]. *)
Fixpoint traces_to_solid (depth : nat) (ns : Dict.t FeatureNode)
    (dependents : gmap string (list string)) (current_id : string) (visited : gset string)
    : result (bool * gset string) :=
  match depth with
  | O => Raise RecursionError
  | S depth' =>
      if decide (current_id ∈ visited) then Ok (false, visited)
      else
        let visited1 := {[current_id]} ∪ visited in
        match Dict.get current_id ns with
        | None => Ok (false, visited1)
        | Some current_node =>
            let deps := default [] (dependents !! current_id) in
            if is_type_in (feature_type current_node) solid_types
               && bool_decide (length deps = 0)
            then Ok (true, visited1)
            else first_true (fun dependent_id v => traces_to_solid depth' ns dependents dependent_id v)
                   deps visited1
        end
  end.

(** [_node_affects_result]; the table [dependents] is built exactly as the
    generator's [dependency_graph]. *)
Definition node_affects_result (tree : FeatureTree) (node_id : string) : result bool :=
  bind (traces_to_solid (S (length (nodes tree))) (nodes tree)
          (build_dependency_graph tree) node_id ∅)
    (fun r => Ok (fst r)).

(** [_validate_result_impact] *)
Definition validate_result_impact (tree : FeatureTree) (new_node : FeatureNode)
    (parent_id : option string) : result (list string) :=
  let temp_tree := create_temp_tree_with_node tree new_node in
  affects ← node_affects_result temp_tree (id new_node);
  if negb affects && negb (is_type_in (feature_type new_node) [WORKPLANE; SKETCH])
  then Ok [no_impact_message (name new_node) (feature_type new_node)]
  else Ok [].

(** [validate_node_addition] *)
Definition validate_node_addition (tree : FeatureTree) (new_node : FeatureNode)
    (parent_id : option string) : result (bool * list string) :=
  let errors1 :=
    if Dict.contains (id new_node) (nodes tree)
    then [already_exists_message (id new_node)] else [] in
  let parent_errors := validate_parent_references tree new_node parent_id in
  let semantic_errors := validate_semantic_constraints tree new_node parent_id in
  dependency_errors ← validate_dependencies tree new_node;
  let boolean_errors :=
    if is_type_in (feature_type new_node) boolean_operation_types
    then validate_boolean_operation tree new_node else [] in
  impact_errors ← validate_result_impact tree new_node parent_id;
  let errors := errors1 ++ parent_errors ++ semantic_errors ++ dependency_errors
                ++ boolean_errors ++ impact_errors in
  Ok (bool_decide (length errors = 0), errors).

(** ** The validator's searches return *)

(** The nodes of the dictionary a search has not visited yet. *)
Definition unvisited (ns : Dict.t FeatureNode) (visited : gset string) : nat :=
  length (filter (fun k => k ∉ visited) (Dict.keys ns)).

Lemma filter_length_le {A} (P Q : A -> Prop) `{!forall x, Decision (P x)}
    `{!forall x, Decision (Q x)} (l : list A) :
  (forall x, Q x -> P x) -> length (filter Q l) <= length (filter P l).
Proof.
  intros HQP. induction l as [|x l IH]; [done|]. rewrite !filter_cons.
  destruct (decide (Q x)) as [HQ|HQ].
  - rewrite decide_True by auto. simpl. lia.
  - destruct (decide (P x)); simpl; lia.
Qed.

Lemma filter_length_lt {A} (P Q : A -> Prop) `{!forall x, Decision (P x)}
    `{!forall x, Decision (Q x)} (l : list A) (y : A) :
  (forall x, Q x -> P x) -> y ∈ l -> P y -> ~ Q y ->
  length (filter Q l) < length (filter P l).
Proof.
  intros HQP Hy HPy HQy. induction l as [|z l IH]; [by apply elem_of_nil in Hy|].
  rewrite !filter_cons. pose proof (filter_length_le P Q l HQP) as Hle.
  apply elem_of_cons in Hy as [<-|Hy].
  - rewrite (decide_True (P := P y)), (decide_False (P := Q y)) by done. simpl. lia.
  - specialize (IH Hy). destruct (decide (Q z)) as [HQ|HQ].
    + rewrite decide_True by auto. simpl. lia.
    + destruct (decide (P z)); simpl; lia.
Qed.

Lemma unvisited_mono ns (v v' : gset string) :
  v ⊆ v' -> unvisited ns v' <= unvisited ns v.
Proof.
  intros Hsub. unfold unvisited.
  apply (filter_length_le (fun k => k ∉ v) (fun k => k ∉ v')). set_solver.
Qed.

Lemma unvisited_add ns (v : gset string) k :
  k ∈ Dict.keys ns -> k ∉ v -> unvisited ns ({[k]} ∪ v) < unvisited ns v.
Proof.
  intros Hk Hv. unfold unvisited.
  apply (filter_length_lt (fun k => k ∉ v) (fun x => x ∉ {[k]} ∪ v) _ k);
    [set_solver | done | done | set_solver].
Qed.

Lemma unvisited_le ns (v : gset string) : unvisited ns v <= length ns.
Proof.
  unfold unvisited. etrans; [apply length_filter|].
  unfold Dict.keys. by rewrite length_map.
Qed.

(** The parent-reference relation of a dictionary of nodes. *)
Definition ref_edge (ns : Dict.t FeatureNode) (a b : string) : Prop :=
  exists n, Dict.get a ns = Some n /\ b ∈ refs n.

Section first_true_facts.
Context {S X : Type} (body : X -> S -> result (bool * S)).
Context (Inv Post : S -> Prop).

(** A search loop keeps [Inv] while the body answers [False] and ends
    in [Post] as soon as the body answers [True]. *)
Lemma first_true_inv (xs : list X) : forall s,
  Inv s ->
  (forall x s, x ∈ xs -> Inv s ->
     exists b s', body x s = Ok (b, s') /\ (b = false -> Inv s') /\ (b = true -> Post s')) ->
  exists b s', first_true body xs s = Ok (b, s') /\
    (b = false -> Inv s') /\ (b = true -> Post s').
Proof.
  induction xs as [|x xs IH]; intros s Hs Hbody.
  - exists false, s. by split.
  - cbn [first_true]. destruct (Hbody x s) as (b & s' & -> & Hf & Ht); [left | done |].
    cbn [bind fst snd]. destruct b.
    + exists true, s'. split; [done|]. split; [done | auto].
    + apply IH; [auto|]. intros x' s0 Hx'. apply Hbody. by right.
Qed.

End first_true_facts.

(** [has_cycle] returns when the stack is deeper than the number of
    unvisited nodes; it answers [True] only if some node reaches itself. *)
Lemma has_cycle_spec ns depth : forall node_id (v rs : gset string),
  unvisited ns v < depth ->
  exists b v' rs',
    has_cycle depth ns node_id (v, rs) = Ok (b, (v', rs')) /\
    v ⊆ v' /\
    (b = false -> rs' = rs) /\
    ((forall s, s ∈ rs -> tc (ref_edge ns) s node_id) -> b = true ->
     exists x, tc (ref_edge ns) x x).
Proof.
  induction depth as [|depth IH]; intros node_id v rs Hlt; [lia|].
  cbn [has_cycle fst snd].
  destruct (decide (node_id ∈ rs)) as [Hrs|Hrs].
  { exists true, v, rs. split; [done|]. split; [done|]. split; [done|].
    intros Hpre _. exists node_id. by apply Hpre. }
  destruct (decide (node_id ∈ v)) as [Hv|Hv].
  { exists false, v, rs. split; [done|]. split; [done|]. split; done. }
  destruct (Dict.get node_id ns) as [node|] eqn:Hget.
  2:{ cbn [bind fst snd]. rewrite decide_True by set_solver.
      exists false, ({[node_id]} ∪ v), (({[node_id]} ∪ rs) ∖ {[node_id]}).
      split; [done|]. split; [set_solver|]. split; [|done].
      intros _. set_solver. }
  assert (unvisited ns ({[node_id]} ∪ v) < depth) as Hlt1.
  { pose proof (unvisited_add ns v node_id (get_Some_keys _ _ _ Hget) Hv). lia. }
  pose (Inv := fun st : gset string * gset string =>
                 {[node_id]} ∪ v ⊆ st.1 /\ st.2 = {[node_id]} ∪ rs).
  pose (Post := fun st : gset string * gset string =>
                 {[node_id]} ∪ v ⊆ st.1 /\
                 ((forall s, s ∈ rs -> tc (ref_edge ns) s node_id) ->
                  exists x, tc (ref_edge ns) x x)).
  destruct (first_true_inv
              (fun ref st' => has_cycle depth ns (feature_id ref) st')
              Inv Post (parent_references node) ({[node_id]} ∪ v, {[node_id]} ∪ rs))
    as (b & [v' rs'] & Hrun & Hf & Ht).
  { split; [set_solver | done]. }
  { intros ref [v0 rs0] Href [Hv0 Hrs0]. simpl in Hv0, Hrs0. subst rs0.
    destruct (IH (feature_id ref) v0 ({[node_id]} ∪ rs)) as (b & v1 & rs1 & Hrun & Hsub & Hfalse & Htrue).
    { pose proof (unvisited_mono ns _ _ Hv0). lia. }
    exists b, (v1, rs1). split; [done|]. split.
    - intros Hb. split; simpl; [set_solver | auto].
    - intros Hb. split; simpl; [set_solver|]. intros Hpre. apply Htrue; [|done].
      assert (ref_edge ns node_id (feature_id ref)) as Hedge.
      { exists node. split; [done|]. unfold refs.
        apply list_elem_of_fmap. by exists ref. }
      intros s [->%elem_of_singleton|Hs]%elem_of_union.
      + by apply tc_once.
      + eapply tc_r; [by apply Hpre | done]. }
  rewrite Hrun. cbn [bind fst snd]. destruct b.
  - destruct (Ht eq_refl) as [Hsub Hcyc]. simpl in Hsub.
    exists true, v', rs'. split; [done|]. split; [set_solver|].
    split; [done|]. intros Hpre _. by apply Hcyc.
  - destruct (Hf eq_refl) as [Hsub Hrs']. simpl in Hsub, Hrs'. subst rs'.
    rewrite decide_True by set_solver.
    exists false, v', (({[node_id]} ∪ rs) ∖ {[node_id]}).
    split; [done|]. split; [set_solver|]. split; [|done]. intros _. set_solver.
Qed.

Lemma traces_to_solid_returns ns (deps : gmap string (list string)) depth :
  forall current_id (v : gset string),
  unvisited ns v < depth ->
  exists b v', traces_to_solid depth ns deps current_id v = Ok (b, v') /\ v ⊆ v'.
Proof.
  induction depth as [|depth IH]; intros current_id v Hlt; [lia|].
  cbn [traces_to_solid].
  destruct (decide (current_id ∈ v)) as [Hv|Hv]; [by exists false, v|].
  destruct (Dict.get current_id ns) as [node|] eqn:Hget.
  2:{ exists false, ({[current_id]} ∪ v). split; [done | set_solver]. }
  destruct (_ && _).
  { exists true, ({[current_id]} ∪ v). split; [done | set_solver]. }
  assert (unvisited ns ({[current_id]} ∪ v) < depth) as Hlt1.
  { pose proof (unvisited_add ns v current_id (get_Some_keys _ _ _ Hget) Hv). lia. }
  destruct (first_true_inv
              (fun dependent_id v0 => traces_to_solid depth ns deps dependent_id v0)
              (fun v0 : gset string => {[current_id]} ∪ v ⊆ v0)
              (fun v0 : gset string => {[current_id]} ∪ v ⊆ v0)
              (default [] (deps !! current_id)) ({[current_id]} ∪ v))
    as (b & v' & Hrun & Hf & Ht); [done | |].
  { intros d v0 _ Hv0.
    destruct (IH d v0) as (b & v1 & Hrun & Hsub).
    { pose proof (unvisited_mono ns _ _ Hv0). lia. }
    exists b, v1. split; [done|]. split; intros _; set_solver. }
  exists b, v'. split; [done|]. destruct b; [specialize (Ht eq_refl) | specialize (Hf eq_refl)];
    set_solver.
Qed.

Lemma validate_dependencies_returns tree new_node :
  exists errors, validate_dependencies tree new_node = Ok errors.
Proof.
  unfold validate_dependencies.
  destruct (has_cycle_spec (nodes (create_temp_tree_with_node tree new_node))
              (S (length (nodes (create_temp_tree_with_node tree new_node))))
              (id new_node) ∅ ∅) as (b & v' & rs' & -> & _).
  { pose proof (unvisited_le (nodes (create_temp_tree_with_node tree new_node)) ∅). lia. }
  cbn [bind fst]. destruct b; eauto.
Qed.

Lemma validate_result_impact_returns tree new_node parent_id :
  exists errors, validate_result_impact tree new_node parent_id = Ok errors.
Proof.
  unfold validate_result_impact, node_affects_result.
  set (temp := create_temp_tree_with_node tree new_node).
  destruct (traces_to_solid_returns (nodes temp) (build_dependency_graph temp)
              (S (length (nodes temp))) (id new_node) ∅) as (b & v' & -> & _).
  { pose proof (unvisited_le (nodes temp) ∅). lia. }
  unfold mbind, result_bind. cbn [bind fst]. destruct (_ && _); eauto.
Qed.

(** The validator always returns its verdict, and the verdict is the list
    of the errors of its six checks. *)
Lemma validate_node_addition_returns tree new_node parent_id :
  exists dependency_errors impact_errors,
    validate_dependencies tree new_node = Ok dependency_errors /\
    validate_result_impact tree new_node parent_id = Ok impact_errors /\
    let errors :=
      (if Dict.contains (id new_node) (nodes tree)
       then [already_exists_message (id new_node)] else [])
      ++ validate_parent_references tree new_node parent_id
      ++ validate_semantic_constraints tree new_node parent_id
      ++ dependency_errors
      ++ (if is_type_in (feature_type new_node) boolean_operation_types
          then validate_boolean_operation tree new_node else [])
      ++ impact_errors in
    validate_node_addition tree new_node parent_id
    = Ok (bool_decide (length errors = 0), errors).
Proof.
  destruct (validate_dependencies_returns tree new_node) as [de Hde].
  destruct (validate_result_impact_returns tree new_node parent_id) as [ie Hie].
  exists de, ie. split; [done|]. split; [done|].
  unfold validate_node_addition. rewrite Hde, Hie. reflexivity.
Qed.

(** ** Boolean arity *)

(** C7 (amended). A candidate of type UNION or DIFFERENCE whose parent
    references resolve to fewer than two solid nodes is rejected, and the
    errors carry the message that cites the 2 required solid parents and
    reports the number found. *)
Theorem boolean_arity_rejected (tree : FeatureTree) (new_node : FeatureNode)
    (parent_id : option string) :
  feature_type new_node = UNION \/ feature_type new_node = DIFFERENCE ->
  length (solid_parents tree new_node) < 2 ->
  exists errors,
    validate_node_addition tree new_node parent_id = Ok (false, errors) /\
    boolean_arity_message (feature_type new_node) (length (solid_parents tree new_node))
      ∈ errors.
Proof.
  intros Hty Hfew.
  destruct (validate_node_addition_returns tree new_node parent_id)
    as (de & ie & _ & _ & Hrun).
  cbv zeta in Hrun.
  assert (is_type_in (feature_type new_node) boolean_operation_types = true) as Hbool.
  { destruct Hty as [-> | ->]; reflexivity. }
  rewrite Hbool in Hrun. unfold validate_boolean_operation in Hrun.
  rewrite Hbool in Hrun. cbn [negb] in Hrun. rewrite decide_True in Hrun by done.
  eexists. split.
  - rewrite Hrun. f_equal. f_equal. apply bool_decide_eq_false.
    rewrite !length_app. simpl. lia.
  - rewrite !elem_of_app. do 4 right. left. left.
Qed.

Lemma boolean_arity_rejected_witness :
  exists errors,
    validate_node_addition box_tree (plain_node "u" UNION ["box"] []) None
      = Ok (false, errors) /\
    boolean_arity_message UNION 1 ∈ errors.
Proof.
  apply (boolean_arity_rejected box_tree (plain_node "u" UNION ["box"] []) None).
  - by left.
  - simpl. lia.
Defined.

(** The claim of C7 for one candidate. *)
Definition boolean_arity_claim (tree : FeatureTree) (new_node : FeatureNode)
    (parent_id : option string) : Prop :=
  feature_type new_node ∈ [UNION; DIFFERENCE; INTERSECTION] ->
  length (solid_parents tree new_node) < 2 ->
  exists errors,
    validate_node_addition tree new_node parent_id = Ok (false, errors) /\
    boolean_arity_message (feature_type new_node) (length (solid_parents tree new_node))
      ∈ errors.

(** C7 as stated fails for INTERSECTION, which the validator does not count
    among its boolean operations: the only error is the one about the
    result, and no count is reported. *)
Lemma intersection_arity_not_reported :
  ~ boolean_arity_claim box_tree (plain_node "x" INTERSECTION ["box"] []) None.
Proof.
  intros Hclaim. destruct Hclaim as (errors & Hrun & Hin).
  - compute_done.
  - simpl. lia.
  - assert (validate_node_addition box_tree (plain_node "x" INTERSECTION ["box"] []) None
            = Ok (false, [no_impact_message "x" INTERSECTION])) as Hval
      by (vm_compute; reflexivity).
    rewrite Hval in Hrun. injection Hrun as <-.
    apply list_elem_of_singleton in Hin. vm_compute in Hin. discriminate.
Qed.

(** An INTERSECTION without any parent is even accepted when a node of the
    tree already refers to its id. *)
Example intersection_accepted :
  validate_node_addition
    (plain_tree [("wp", plain_node "wp" WORKPLANE [] []);
                 ("box", plain_node "box" BOX ["wp"; "x"] [])] ["wp"; "box"])
    (plain_node "x" INTERSECTION [] []) None
  = Ok (true, []).
Proof. vm_compute. reflexivity. Qed.

(** ** An EXTRUDE needs a SKETCH *)

Lemma elem_of_set {V} k (v : V) (d : Dict.t V) kv :
  kv ∈ Dict.set k v d -> kv = (k, v) \/ kv ∈ d.
Proof.
  induction d as [|[k' v'] d IH]; cbn [Dict.set].
  - intros ->%list_elem_of_singleton. by left.
  - destruct (decide (k = k')) as [->|Hne].
    + intros [->|Hin]%elem_of_cons; [by left | right; by right].
    + intros [->|Hin]%elem_of_cons; [right; left|].
      destruct (IH Hin) as [->|?]; [by left | right; by right].
Qed.

Lemma length_set_fresh {V} k (v : V) (d : Dict.t V) :
  k ∉ Dict.keys d -> length (Dict.set k v d) = S (length d).
Proof. intros Hk. rewrite set_fresh by done. rewrite length_app. simpl. lia. Qed.

Lemma filter_none {A} (P : A -> Prop) `{!forall x, Decision (P x)} (l : list A) :
  Forall (fun x => ~ P x) l -> filter P l = [].
Proof.
  induction 1 as [|x l Hx Hl IH]; [done|].
  by rewrite filter_cons_False, IH.
Qed.

Lemma dependents_in_nil (items : Dict.t FeatureNode) p :
  (forall kn, kn ∈ items -> p ∉ refs kn.2) -> dependents_in items p = [].
Proof.
  unfold dependents_in. induction items as [|[k n] items IH]; intros Hno; [done|].
  rewrite bind_cons. cbn [fst snd]. rewrite IH by (intros kn Hkn; apply Hno; by right).
  rewrite filter_none; [done|].
  apply Forall_forall. intros r Hr ->. by apply (Hno (k, n)); [left|].
Qed.

Section candidate.
Variable tree : FeatureTree.
Variable new_node : FeatureNode.
Hypothesis Hkeys : NoDup (Dict.keys (nodes tree)).
Hypothesis Hacyclic : parents_acyclic tree.
Hypothesis Hpresent : parents_present tree.
Hypothesis Hfresh : id new_node ∉ Dict.keys (nodes tree).
Hypothesis Hrefs : forall r, r ∈ refs new_node -> r ∈ Dict.keys (nodes tree).

Let temp := Dict.set (id new_node) new_node (nodes tree).

Lemma temp_edge_target a b : ref_edge temp a b -> b ∈ Dict.keys (nodes tree).
Proof.
  intros (n & Hn & Hb). unfold temp in Hn.
  destruct (decide (a = id new_node)) as [->|Hne].
  - rewrite get_set_eq in Hn. injection Hn as <-. by apply Hrefs.
  - rewrite get_set_ne in Hn by congruence. apply (Hpresent a b). by exists n.
Qed.

Lemma temp_edge_old a b : ref_edge temp a b -> a ≠ id new_node -> parent_edge tree a b.
Proof.
  intros (n & Hn & Hb) Hne. unfold temp in Hn.
  rewrite get_set_ne in Hn by congruence. by exists n.
Qed.

(** Adding the candidate creates no cycle. *)
Lemma temp_acyclic x : ~ tc (ref_edge temp) x x.
Proof.
  assert (forall a b, tc (ref_edge temp) a b -> b ∈ Dict.keys (nodes tree)) as Htarget.
  { intros a b Hab. induction Hab; eauto using temp_edge_target. }
  assert (forall a b, tc (ref_edge temp) a b -> a ≠ id new_node ->
                      tc (parent_edge tree) a b) as Hold.
  { intros a b Hab. induction Hab as [a b Hab|a c b Hac Hcb IH]; intros Hne.
    - apply tc_once. by apply temp_edge_old.
    - eapply tc_l; [by apply temp_edge_old|]. apply IH.
      intros ->. apply Hfresh. by eapply temp_edge_target. }
  intros Hx. destruct (decide (x = id new_node)) as [->|Hne].
  - apply Hfresh. by eapply Htarget.
  - by apply (Hacyclic x), Hold.
Qed.

Lemma candidate_no_cycle :
  validate_dependencies tree new_node = Ok [].
Proof.
  unfold validate_dependencies. cbn [create_temp_tree_with_node nodes]. fold temp.
  destruct (has_cycle_spec temp (S (length temp)) (id new_node) ∅ ∅)
    as (b & v' & rs' & -> & _ & _ & Hcyc).
  { pose proof (unvisited_le temp ∅). lia. }
  cbn [bind fst]. destruct b; [|done]. exfalso.
  destruct Hcyc as [x Hx]; [set_solver | done |]. by apply (temp_acyclic x).
Qed.

Lemma candidate_has_no_dependents :
  build_dependency_graph (create_temp_tree_with_node tree new_node) !! id new_node = Some [].
Proof.
  rewrite build_dependency_graph_lookup. cbn [create_temp_tree_with_node nodes]. fold temp.
  rewrite decide_True.
  2:{ unfold temp. by eapply get_Some_keys, get_set_eq. }
  f_equal. apply dependents_in_nil. intros [k n] Hkn Hin. cbn [snd] in Hin.
  apply Hfresh. apply (temp_edge_target k). exists n. split; [|done].
  apply elem_of_dict; [|done]. unfold temp. rewrite keys_set, decide_False by done.
  apply NoDup_app. split; [done|]. split; [|apply NoDup_singleton].
  intros y Hy ->%list_elem_of_singleton. done.
Qed.

(** A solid candidate that nothing depends on yet is itself a result. *)
Lemma candidate_affects_result parent_id :
  is_type_in (feature_type new_node) solid_types = true ->
  validate_result_impact tree new_node parent_id = Ok [].
Proof.
  intros Hsolid. unfold validate_result_impact, node_affects_result.
  cbn [traces_to_solid]. rewrite decide_False by set_solver.
  rewrite candidate_has_no_dependents.
  cbn [create_temp_tree_with_node nodes]. rewrite get_set_eq, Hsolid. reflexivity.
Qed.

End candidate.

(** The [parent_id] argument is absent, empty or names a node of the tree. *)
Definition parent_id_ok (tree : FeatureTree) (parent_id : option string) : Prop :=
  match parent_id with
  | Some p => p = "" \/ p ∈ Dict.keys (nodes tree)
  | None => True
  end.

Lemma validate_parent_references_checks tree new_node parent_id :
  parent_id_ok tree parent_id ->
  validate_parent_references tree new_node parent_id
  = foldl (check_reference tree new_node) [] (parent_references new_node).
Proof.
  unfold validate_parent_references, parent_id_ok.
  destruct parent_id as [p|]; [|done]. intros [->|Hp]; [done|].
  apply contains_keys in Hp. rewrite Hp. by rewrite andb_false_r.
Qed.

Lemma verdict_rejected (errors : list string) (e : string) :
  e ∈ errors -> bool_decide (length errors = 0) = false.
Proof.
  intros He. apply bool_decide_eq_false. destruct errors; [by apply elem_of_nil in He | done].
Qed.

(** C8. In a tree with a WORKPLANE and a SKETCH on it, an EXTRUDE
    candidate whose only parent reference targets the WORKPLANE is rejected
    with the type-compatibility error, and the same candidate with its
    parent reference on the SKETCH is accepted without errors. *)
Theorem extrude_needs_sketch (tree : FeatureTree) (wp sk : string)
    (wp_node sk_node candidate : FeatureNode) (to_wp to_sk : FeatureReference)
    (parent_id : option string) :
  NoDup (Dict.keys (nodes tree)) -> parents_acyclic tree -> parents_present tree ->
  Dict.get wp (nodes tree) = Some wp_node -> feature_type wp_node = WORKPLANE ->
  Dict.get sk (nodes tree) = Some sk_node -> feature_type sk_node = SKETCH ->
  wp ∈ refs sk_node ->
  feature_type candidate = EXTRUDE -> id candidate ∉ Dict.keys (nodes tree) ->
  feature_id to_wp = wp -> feature_id to_sk = sk ->
  parent_id_ok tree parent_id ->
  (exists errors,
     validate_node_addition tree (set_parent_references candidate [to_wp]) parent_id
       = Ok (false, errors) /\
     invalid_parent_message EXTRUDE WORKPLANE [SKETCH] ∈ errors) /\
  validate_node_addition tree (set_parent_references candidate [to_sk]) parent_id
    = Ok (true, []).
Proof.
  intros Hkeys Hac Hpres Hwp Hwpty Hsk Hskty Hchild Hty Hfresh Htowp Htosk Hpid.
  assert (Dict.contains (id candidate) (nodes tree) = false) as Hnew.
  { destruct (Dict.contains _ _) eqn:E; [|done]. by apply contains_keys in E. }
  split.
  - destruct (validate_node_addition_returns tree
                (set_parent_references candidate [to_wp]) parent_id)
      as (de & ie & _ & _ & Hrun).
    cbv zeta in Hrun. rewrite validate_parent_references_checks in Hrun by done.
    cbn [set_parent_references id feature_type parent_references foldl] in Hrun.
    unfold check_reference in Hrun.
    cbn [set_parent_references feature_type] in Hrun.
    rewrite Htowp, Hwp, Hty, Hwpty, Hnew in Hrun.
    cbn [valid_parent_types] in Hrun.
    change (is_type_in WORKPLANE [SKETCH]) with false in Hrun. cbv iota in Hrun.
    match type of Hrun with _ = Ok (_, ?l) =>
      assert (invalid_parent_message EXTRUDE WORKPLANE [SKETCH] ∈ l) as Hin
    end.
    { rewrite !elem_of_app. right. left. right. left. }
    eexists. split; [|exact Hin].
    rewrite Hrun. by rewrite (verdict_rejected _ _ Hin).
  - assert (forall r, r ∈ refs (set_parent_references candidate [to_sk]) ->
                      r ∈ Dict.keys (nodes tree)) as Hrefs.
    { intros r. unfold refs. cbn [set_parent_references parent_references map].
      intros ->%list_elem_of_singleton. rewrite Htosk. by eapply get_Some_keys. }
    unfold validate_node_addition.
    rewrite (candidate_no_cycle tree _ Hkeys Hac Hpres); [|done..].
    rewrite (candidate_affects_result tree _ Hkeys Hac Hpres); [|done..|].
    2:{ cbn [set_parent_references feature_type]. by rewrite Hty. }
    rewrite validate_parent_references_checks by done.
    cbn [set_parent_references id feature_type parent_references foldl].
    unfold check_reference. cbn [set_parent_references feature_type].
    rewrite Htosk, Hsk, Hty, Hskty, Hnew. reflexivity.
Qed.

Definition sketch_tree : FeatureTree :=
  plain_tree [("wp", plain_node "wp" WORKPLANE [] ["sk"]);
              ("sk", plain_node "sk" SKETCH ["wp"] [])]
             ["wp"; "sk"].

Lemma extrude_needs_sketch_witness :
  (exists errors,
     validate_node_addition sketch_tree (plain_node "ex" EXTRUDE ["wp"] []) None
       = Ok (false, errors) /\
     invalid_parent_message EXTRUDE WORKPLANE [SKETCH] ∈ errors) /\
  validate_node_addition sketch_tree (plain_node "ex" EXTRUDE ["sk"] []) None
    = Ok (true, []).
Proof.
  apply (extrude_needs_sketch sketch_tree "wp" "sk"
           (plain_node "wp" WORKPLANE [] ["sk"]) (plain_node "sk" SKETCH ["wp"] [])
           (plain_node "ex" EXTRUDE [] [])
           (mkFeatureReference "wp" "feature" None)
           (mkFeatureReference "sk" "feature" None) None).
  - compute_done.
  - apply (parents_acyclic_by_rank _ (fun k => if decide (k = "wp") then 0 else 1)).
    compute_done.
  - apply parents_present_by_check. compute_done.
  - reflexivity.
  - reflexivity.
  - reflexivity.
  - reflexivity.
  - compute_done.
  - reflexivity.
  - compute_done.
  - reflexivity.
  - reflexivity.
  - exact I.
Defined.

(** ** [validate_tree] and the mutation wrappers of the storage service *)

(** [needle in haystack] for strings. *)
Fixpoint is_substring (needle haystack : string) : bool :=
  String.prefix needle haystack
  || match haystack with
     | EmptyString => false
     | String _ rest => is_substring needle rest
     end.

(** [FeatureTree.get_node_dependencies]; the result is only tested for
    membership, so the set stands for the list built from it.  The second
    component is the shared [visited] set. *)
Fixpoint get_node_dependencies (depth : nat) (ns : Dict.t FeatureNode) (node_id : string)
    (visited : gset string) : result (gset string * gset string) :=
  match depth with
  | O => Raise RecursionError
  | S depth' =>
      match Dict.get node_id ns with
      | None => Ok (∅, visited)
      | Some node =>
          if decide (node_id ∈ visited) then Ok (∅, visited)
          else
            for_each
              (fun st ref =>
                 if Dict.contains (feature_id ref) ns then
                   bind (get_node_dependencies depth' ns (feature_id ref) (snd st))
                     (fun sub => Ok (fst st ∪ {[feature_id ref]} ∪ fst sub, snd sub))
                 else Ok st)
              (parent_references node) (∅, {[node_id]} ∪ visited)
      end
  end.

Definition circular_dependency_message (node_id : string) : string :=
  "Circular dependency detected for node " +:+ node_id.

Definition missing_reference_message (node_id ref_id : string) : string :=
  "Node " +:+ node_id +:+ " references non-existent node " +:+ ref_id.

Definition order_mismatch_message : string :=
  "Regeneration order doesn't match node list".

(** [FeatureTree.validate_tree] *)
Definition validate_tree (t : FeatureTree) : result (list string) :=
  errors1 ←
    for_each
      (fun errors node_id =>
         bind (get_node_dependencies (S (length (nodes t))) (nodes t) node_id ∅)
           (fun deps =>
              if decide (node_id ∈ fst deps)
              then Ok (errors ++ [circular_dependency_message node_id])
              else Ok errors))
      (Dict.keys (nodes t)) [];
  let errors2 :=
    foldl
      (fun errors node =>
         foldl
           (fun errors ref =>
              if Dict.contains (feature_id ref) (nodes t) then errors
              else errors ++ [missing_reference_message (id node) (feature_id ref)])
           errors (parent_references node))
      errors1 (Dict.values (nodes t)) in
  if decide ((list_to_set (regeneration_order t) : gset string)
             ≠ list_to_set (Dict.keys (nodes t)))
  then Ok (errors2 ++ [order_mismatch_message])
  else Ok errors2.

(** [suggest_valid_additions] *)
Definition suggest_valid_additions (tree : FeatureTree) (target_parent_id : option string)
    : list (string * string) :=
  match nodes tree with
  | [] => [("workplane", "Start with a workplane to establish coordinate system")]
  | _ =>
      match target_parent_id with
      | Some p =>
          if truthy_id target_parent_id then
            match Dict.get p (nodes tree) with
            | Some parent_node =>
                if decide (feature_type parent_node = WORKPLANE) then
                  [("sketch", "Create a profile for extrusion");
                   ("box", "Create a rectangular solid");
                   ("cylinder", "Create a cylindrical solid");
                   ("sphere", "Create a spherical solid")]
                else if decide (feature_type parent_node = SKETCH) then
                  [("extrude", "Convert sketch to 3D solid");
                   ("revolve", "Revolve sketch around axis")]
                else if is_type_in (feature_type parent_node) solid_types then
                  [("sketch", "Create new sketch on solid face");
                   ("fillet", "Round sharp edges");
                   ("chamfer", "Cut angular edges")]
                  ++ (if existsb (fun n => is_type_in (feature_type n) solid_types
                                           && negb (bool_decide (id n = p)))
                                 (Dict.values (nodes tree))
                      then [("union", "Combine with another solid");
                            ("difference", "Cut using another solid")]
                      else [])
                else []
            | None => []
            end
          else []
      | None => []
      end
  end.

Definition newline : string := String (ascii_of_nat 10) EmptyString.

Definition invalid_addition_message (tree : FeatureTree) (parent_id : option string)
    (errors : list string) : string :=
  let suggestions := suggest_valid_additions tree parent_id in
  let suggestion_text :=
    match suggestions with
    | [] => ""
    | _ => newline +:+ newline +:+ "Suggested alternatives:" +:+ newline
           +:+ join newline
                 (map (fun s => "- " +:+ fst s +:+ ": " +:+ snd s) (take 3 suggestions))
    end in
  "Invalid node addition: " +:+ join ", " errors +:+ suggestion_text.

(** [FeatureTreeStorage.add_node_to_tree], from the tree it has loaded to
    the tree it saves and returns; loading, saving and the operation log
    belong to the document store. *)
Definition add_node_to_tree (tree : FeatureTree) (node : FeatureNode)
    (parent_id : option string) : result FeatureTree :=
  let node1 :=
    match parent_id with
    | Some p =>
        if truthy_id parent_id && Dict.contains p (nodes tree)
           && negb (existsb (fun ref => bool_decide (feature_id ref = p))
                      (parent_references node))
        then set_parent_references node
               (parent_references node ++ [mkFeatureReference p "feature" None])
        else node
    | None => node
    end in
  _ ← (if negb (is_substring "design_params" (id node1)
                && bool_decide (name node1 = "Design Parameters"))
       then
         bind (validate_node_addition tree node1 parent_id)
           (fun verdict =>
              if fst verdict then Ok tt
              else Raise (ValueError (invalid_addition_message tree parent_id (snd verdict))))
       else Ok tt);
  let tree1 := add_node node1 parent_id tree in
  basic_validation_errors ← validate_tree tree1;
  match basic_validation_errors with
  | [] =>
      let is_structural_change :=
        is_type_in (feature_type node1) [WORKPLANE; SKETCH; ASSEMBLY_ROOT]
        || bool_decide (length (nodes tree1) = 1) in
      Ok (set_flags tree1 true is_structural_change)
  | _ =>
      Raise (ValueError ("Tree validation failed after adding node: "
                         +:+ join ", " basic_validation_errors))
  end.



Lemma for_each_inv {S X} (body : S -> X -> result S) (Inv : S -> Prop) (xs : list X) :
  forall s, Inv s ->
  (forall x s, x ∈ xs -> Inv s -> exists s', body s x = Ok s' /\ Inv s') ->
  exists s', for_each body xs s = Ok s' /\ Inv s'.
Proof.
  induction xs as [|x xs IH]; intros s Hs Hbody; [by exists s|].
  cbn [for_each]. destruct (Hbody x s) as (s' & -> & Hs'); [left | done |].
  cbn [bind]. apply IH; [done|]. intros x' s0 Hx'. apply Hbody. by right.
Qed.

Lemma get_node_dependencies_returns ns depth : forall node_id (v : gset string),
  unvisited ns v < depth ->
  exists deps v', get_node_dependencies depth ns node_id v = Ok (deps, v') /\ v ⊆ v'.
Proof.
  induction depth as [|depth IH]; intros node_id v Hlt; [lia|].
  cbn [get_node_dependencies].
  destruct (Dict.get node_id ns) as [node|] eqn:Hget; [|by exists ∅, v].
  destruct (decide (node_id ∈ v)) as [Hv|Hv]; [by exists ∅, v|].
  assert (unvisited ns ({[node_id]} ∪ v) < depth) as Hlt1.
  { pose proof (unvisited_add ns v node_id (get_Some_keys _ _ _ Hget) Hv). lia. }
  destruct (for_each_inv
              (fun st ref =>
                 if Dict.contains (feature_id ref) ns then
                   bind (get_node_dependencies depth ns (feature_id ref) (snd st))
                     (fun sub => Ok (fst st ∪ {[feature_id ref]} ∪ fst sub, snd sub))
                 else Ok st)
              (fun st : gset string * gset string => {[node_id]} ∪ v ⊆ st.2)
              (parent_references node) (∅, {[node_id]} ∪ v))
    as ([deps v'] & Hrun & Hsub); [done | |].
  { intros ref [d0 v0] _ Hv0. simpl in Hv0. destruct (Dict.contains _ _).
    - destruct (IH (feature_id ref) v0) as (sub & v1 & Hrun & Hsub).
      { pose proof (unvisited_mono ns _ _ Hv0). lia. }
      cbn [snd fst]. rewrite Hrun. cbn [bind fst snd]. eexists. split; [done|].
      simpl. set_solver.
    - by exists (d0, v0). }
  exists deps, v'. split; [done|]. simpl in Hsub. set_solver.
Qed.

(** [validate_tree] always returns its list of errors. *)
Lemma validate_tree_returns t : exists errors, validate_tree t = Ok errors.
Proof.
  unfold validate_tree.
  destruct (for_each_inv
              (fun errors node_id =>
                 bind (get_node_dependencies (S (length (nodes t))) (nodes t) node_id ∅)
                   (fun deps =>
                      if decide (node_id ∈ fst deps)
                      then Ok (errors ++ [circular_dependency_message node_id])
                      else Ok errors))
              (fun _ => True) (Dict.keys (nodes t)) []) as (errors1 & -> & _); [done | |].
  { intros node_id errors _ _.
    destruct (get_node_dependencies_returns (nodes t) (S (length (nodes t))) node_id ∅)
      as (deps & v' & -> & _).
    { pose proof (unvisited_le (nodes t) ∅). lia. }
    cbn [bind fst]. destruct (decide _); eauto. }
  unfold mbind, result_bind. cbn [bind]. destruct (decide _); eauto.
Qed.





(** ** The text of Python values

    The generator writes parameter values into the script with [str],
    [repr], [float] and [int].  A float is a binary64 value; its [repr] is
    the shortest decimal that reads back as the same value.  Strings are
    sequences of characters with code points below 256, and integers are
    unbounded (the interpreter's limit on the number of digits of an
    integer conversion is not modelled). *)

Module PyText.

Import Floats.

(** The binary64 value nearest to [±D·10^p] (ties to even). *)
Definition of_decimal (neg : bool) (D : positive) (p : Z) : spec_float :=
  if (0 <=? p)%Z
  then binary_round prec emax neg (D * Z.to_pos (10 ^ p)) 0
  else SFdiv prec emax (S754_finite neg D 0) (S754_finite false (Z.to_pos (10 ^ (- p))) 0).

(** [10^j <= num/den] *)
Definition pow10_le (j num den : Z) : bool :=
  if (0 <=? j)%Z then (10 ^ j * den <=? num)%Z else (den <=? num * 10 ^ (- j))%Z.

(** The estimate of [decimal_exponent] is never above the exponent and
    less than four below it. *)
Fixpoint raise_exponent (fuel : nat) (k num den : Z) : Z :=
  match fuel with
  | O => k
  | S fuel' => if pow10_le (k + 1) num den then raise_exponent fuel' (k + 1)%Z num den else k
  end.

(** The [k] with [10^k <= num/den < 10^(k+1)]. *)
Definition decimal_exponent (num den : Z) : Z :=
  let k0 := (((Z.log2 num - Z.log2 den - 1) * 30103) / 100000 - 1)%Z in
  raise_exponent 4 k0 num den.

Definition reads_back (m : positive) (e : Z) (D p : Z) : bool :=
  match D with
  | Zpos d =>
      match SFcompare (of_decimal false d p) (S754_finite false m e) with
      | Some Eq => true
      | _ => false
      end
  | _ => false
  end.

(** The shortest digits [D] and exponent [p] with [D·10^p] reading back as
    [m·2^e], trying 1 to 17 significant digits; 17 digits tell any two
    binary64 values apart. *)
Fixpoint shortest (todo : nat) (n : Z) (m : positive) (e k num den : Z) : Z * Z :=
  match todo with
  | O => (Zpos m, e)
  | S todo' =>
      let s := (n - 1 - k)%Z in
      let N := if (0 <=? s)%Z then (num * 10 ^ s)%Z else num in
      let Dn := if (0 <=? s)%Z then den else (den * 10 ^ (- s))%Z in
      let lo := (N / Dn)%Z in
      let r := (N mod Dn)%Z in
      let hi := (lo + 1)%Z in
      let ok_lo := reads_back m e lo (- s) in
      let ok_hi := reads_back m e hi (- s) in
      match ok_lo, ok_hi with
      | true, true =>
          match (2 * r ?= Dn)%Z with
          | Lt => (lo, (- s)%Z)
          | Gt => (hi, (- s)%Z)
          | Eq => if Z.even lo then (lo, (- s)%Z) else (hi, (- s)%Z)
          end
      | true, false => (lo, (- s)%Z)
      | false, true => (hi, (- s)%Z)
      | false, false => shortest todo' (n + 1)%Z m e k num den
      end
  end.

(** [D] without its trailing zeros; it has 17 digits at most. *)
Fixpoint strip_zeros (fuel : nat) (D p : Z) : Z * Z :=
  match fuel with
  | O => (D, p)
  | S fuel' => if (D mod 10 =? 0)%Z then strip_zeros fuel' (D / 10)%Z (p + 1)%Z else (D, p)
  end.

Fixpoint zeros (n : nat) : string :=
  match n with O => "" | S n' => "0" +:+ zeros n' end.

Definition take_string (n : nat) (s : string) : string := String.substring 0 n s.
Definition drop_string (n : nat) (s : string) : string :=
  String.substring n (String.length s - n) s.

(** The layout of [repr]: plain notation while the decimal point lies
    within [-4 < decpt <= 16], exponent notation otherwise. *)
Definition layout (ds : string) (decpt : Z) : string :=
  let nd := Z.of_nat (String.length ds) in
  if ((-4 <? decpt) && (decpt <=? 16))%Z then
    if (decpt <=? 0)%Z then "0." +:+ zeros (Z.to_nat (- decpt)) +:+ ds
    else if (nd <=? decpt)%Z then ds +:+ zeros (Z.to_nat (decpt - nd)) +:+ ".0"
    else take_string (Z.to_nat decpt) ds +:+ "." +:+ drop_string (Z.to_nat decpt) ds
  else
    let ex := (decpt - 1)%Z in
    let digits := pretty (Z.abs ex) in
    take_string 1 ds
    +:+ (if (1 <? nd)%Z then "." +:+ drop_string 1 ds else "")
    +:+ "e" +:+ (if (ex <? 0)%Z then "-" else "+")
    +:+ (if (Z.abs ex <? 10)%Z then "0" else "") +:+ digits.

(** [repr(f)] for a float. *)
Definition float_repr (f : float) : string :=
  match Prim2SF f with
  | S754_nan => "nan"
  | S754_infinity s => if s then "-inf" else "inf"
  | S754_zero s => if s then "-0.0" else "0.0"
  | S754_finite s m e =>
      let num := if (0 <=? e)%Z then (Zpos m * 2 ^ e)%Z else Zpos m in
      let den := if (0 <=? e)%Z then 1%Z else (2 ^ (- e))%Z in
      let k := decimal_exponent num den in
      let '(D, p) := shortest 17 1 m e k num den in
      let '(D', p') := strip_zeros 20 D p in
      let ds := pretty D' in
      (if s then "-" else "") +:+ layout ds (Z.of_nat (String.length ds) + p')
  end.

End PyText.



Module PyRead.

Import Floats.

Definition code (a : ascii) : nat := nat_of_ascii a.

(** [str.isspace] on one character. *)
Definition is_space (a : ascii) : bool :=
  bool_decide (code a ∈ [9; 10; 11; 12; 13; 28; 29; 30; 31; 32; 133; 160]).

Definition is_digit (a : ascii) : bool :=
  Nat.leb 48 (code a) && Nat.leb (code a) 57.

Definition digit_value (a : ascii) : Z := Z.of_nat (code a - 48).

Fixpoint drop_spaces (s : list ascii) : list ascii :=
  match s with
  | a :: s' => if is_space a then drop_spaces s' else s
  | [] => []
  end.

(** [s.strip()] *)
Definition strip (s : list ascii) : list ascii :=
  rev (drop_spaces (rev (drop_spaces s))).

(** The digits that continue a number, single underscores allowed between
    two digits. *)
Fixpoint more_digits (s : list ascii) : list ascii * list ascii :=
  match s with
  | a :: s' =>
      if is_digit a then
        let '(ds, rest) := more_digits s' in (a :: ds, rest)
      else if Nat.eqb (code a) 95 then
        match s' with
        | b :: _ => if is_digit b then more_digits s' else ([], s)
        | [] => ([], s)
        end
      else ([], s)
  | [] => ([], [])
  end.

(** A run of digits; it cannot start with an underscore. *)
Definition digit_run (s : list ascii) : list ascii * list ascii :=
  match s with
  | a :: _ => if is_digit a then more_digits s else ([], s)
  | [] => ([], [])
  end.

Definition number_of (ds : list ascii) : Z :=
  fold_left (fun n a => (10 * n + digit_value a)%Z) ds 0%Z.

(** An optional sign: [true] for minus. *)
Definition read_sign (s : list ascii) : bool * list ascii :=
  match s with
  | a :: s' =>
      if Nat.eqb (code a) 45 then (true, s')
      else if Nat.eqb (code a) 43 then (false, s')
      else (false, s)
  | [] => (false, [])
  end.

Definition lower_ascii (a : ascii) : ascii :=
  if Nat.leb 65 (code a) && Nat.leb (code a) 90 then ascii_of_nat (code a + 32) else a.

Definition is_word (w : string) (s : list ascii) : bool :=
  bool_decide (map lower_ascii s = list_ascii_of_string w).

(** [int(s)] for a string, base 10. *)
Definition int_of_string (s : string) : option Z :=
  let '(neg, body) := read_sign (strip (list_ascii_of_string s)) in
  let '(ds, rest) := digit_run body in
  match ds, rest with
  | _ :: _, [] => Some (if neg then (- number_of ds)%Z else number_of ds)
  | _, _ => None
  end.

(** [float(s)] for a string. *)
Definition float_of_string (s : string) : option float :=
  let '(neg, body) := read_sign (strip (list_ascii_of_string s)) in
  if is_word "inf" body || is_word "infinity" body then Some (SF2Prim (S754_infinity neg))
  else if is_word "nan" body then Some (SF2Prim S754_nan)
  else
    let '(int_digits, r1) := digit_run body in
    let '(frac_digits, r2) :=
      match r1 with
      | a :: r1' => if Nat.eqb (code a) 46 then digit_run r1' else ([], r1)
      | [] => ([], [])
      end in
    match int_digits ++ frac_digits with
    | [] => None
    | all_digits =>
        let exponent :=
          match r2 with
          | a :: r2' =>
              if Nat.eqb (code (lower_ascii a)) 101 then
                let '(eneg, r3) := read_sign r2' in
                let '(eds, r4) := digit_run r3 in
                match eds, r4 with
                | _ :: _, [] => Some (if eneg then (- number_of eds)%Z else number_of eds)
                | _, _ => None
                end
              else None
          | [] => Some 0%Z
          end in
        match exponent with
        | Some ex =>
            match number_of all_digits with
            | Zpos D =>
                Some (SF2Prim (PyText.of_decimal neg D (ex - Z.of_nat (length frac_digits))))
            | _ => Some (SF2Prim (S754_zero neg))
            end
        | None => None
        end
    end.

(** [float(n)] for an int: [None] stands for [OverflowError]. *)
Definition float_of_Z (z : Z) : option float :=
  match binary_normalize prec emax z 0 false with
  | S754_infinity _ => None
  | f => Some (SF2Prim f)
  end.

Inductive int_of_float_result :=
| IntValue (z : Z)
| IntOfInfinity
| IntOfNaN.

(** [int(f)] for a float: truncation towards zero. *)
Definition int_of_float (f : float) : int_of_float_result :=
  match Prim2SF f with
  | S754_zero _ => IntValue 0
  | S754_finite s m e =>
      let magnitude :=
        if (0 <=? e)%Z then (Zpos m * 2 ^ e)%Z else (Zpos m / 2 ^ (- e))%Z in
      IntValue (if s then (- magnitude)%Z else magnitude)
  | S754_infinity _ => IntOfInfinity
  | S754_nan => IntOfNaN
  end.

Definition hex_digit (n : nat) : ascii :=
  if Nat.ltb n 10 then ascii_of_nat (48 + n) else ascii_of_nat (87 + n).

Definition printable (a : ascii) : bool :=
  let c := code a in
  (Nat.leb 32 c && Nat.leb c 126) || (Nat.leb 161 c && negb (Nat.eqb c 173)).

Fixpoint escape (quote : ascii) (s : string) : string :=
  match s with
  | EmptyString => EmptyString
  | String a rest =>
      let c := code a in
      (if Nat.eqb c 92 then "\\"
       else if Ascii.eqb a quote then String "\" (String quote "")
       else if Nat.eqb c 9 then "\t"
       else if Nat.eqb c 10 then "\n"
       else if Nat.eqb c 13 then "\r"
       else if printable a then String a ""
       else String "\" (String "x" (String (hex_digit (c / 16)) (String (hex_digit (c mod 16)) ""))))
      +:+ escape quote rest
  end.

Definition dquote : ascii := ascii_of_nat 34.

Definition has_char (c : ascii) (s : string) : bool :=
  existsb (Ascii.eqb c) (list_ascii_of_string s).

(** [repr(s)] for a string. *)
Definition repr_string (s : string) : string :=
  let quote := if has_char "'" s && negb (has_char dquote s) then dquote else "'"%char in
  String quote (escape quote s) +:+ String quote "".

End PyRead.

(** ** Conversions of parameter values

    [str], [repr], [bool], [float] and [int] on the values of a
    [Parameter]. *)

Definition bool_text (b : bool) : string := if b then "True" else "False".

(** [repr(v)] *)
Fixpoint py_repr (v : pyval) : string :=
  match v with
  | VNone => "None"
  | VBool b => bool_text b
  | VInt z => pretty z
  | VFloat f => PyText.float_repr f
  | VStr s => PyRead.repr_string s
  | VList l => "[" +:+ join ", " (map py_repr l) +:+ "]"
  | VTuple l =>
      match l with
      | [x] => "(" +:+ py_repr x +:+ ",)"
      | _ => "(" +:+ join ", " (map py_repr l) +:+ ")"
      end
  end.

(** [str(v)], which is also what an f-string writes for [{v}]. *)
Definition py_str (v : pyval) : string :=
  match v with
  | VStr s => s
  | _ => py_repr v
  end.

(** [bool(v)] *)
Definition py_bool (v : pyval) : bool :=
  match v with
  | VNone => false
  | VBool b => b
  | VInt z => negb (z =? 0)%Z
  | VFloat f => match FloatOps.Prim2SF f with SpecFloat.S754_zero _ => false | _ => true end
  | VStr s => negb (bool_decide (s = ""))
  | VList l | VTuple l => negb (bool_decide (l = []))
  end.

(** [type(v).__name__] *)
Definition type_name (v : pyval) : string :=
  match v with
  | VNone => "NoneType"
  | VBool _ => "bool"
  | VInt _ => "int"
  | VFloat _ => "float"
  | VStr _ => "str"
  | VList _ => "list"
  | VTuple _ => "tuple"
  end.

(** [float(v)] *)
Definition py_float (v : pyval) : result PrimFloat.float :=
  match v with
  | VFloat f => Ok f
  | VBool b => Ok (if b then PrimFloat.one else PrimFloat.zero)
  | VInt z =>
      match PyRead.float_of_Z z with
      | Some f => Ok f
      | None => Raise (OverflowError "int too large to convert to float")
      end
  | VStr s =>
      match PyRead.float_of_string s with
      | Some f => Ok f
      | None => Raise (ValueError ("could not convert string to float: " +:+ PyRead.repr_string s))
      end
  | _ =>
      Raise (TypeError ("float() argument must be a string or a real number, not '"
                        +:+ type_name v +:+ "'"))
  end.

(** [int(v)] *)
Definition py_int (v : pyval) : result Z :=
  match v with
  | VInt z => Ok z
  | VBool b => Ok (if b then 1 else 0)%Z
  | VFloat f =>
      match PyRead.int_of_float f with
      | PyRead.IntValue z => Ok z
      | PyRead.IntOfInfinity => Raise (OverflowError "cannot convert float infinity to integer")
      | PyRead.IntOfNaN => Raise (ValueError "cannot convert float NaN to integer")
      end
  | VStr s =>
      match PyRead.int_of_string s with
      | Some z => Ok z
      | None => Raise (ValueError ("invalid literal for int() with base 10: " +:+ PyRead.repr_string s))
      end
  | _ =>
      Raise (TypeError ("int() argument must be a string, a bytes-like object or a real number, not '"
                        +:+ type_name v +:+ "'"))
  end.

(** [str(e)] for an exception. *)
Definition exn_text (e : exn) : string :=
  match e with
  | RecursionError => "maximum recursion depth exceeded"
  | KeyError key => PyRead.repr_string key
  | ValueError msg | TypeError msg | OverflowError msg | ZeroDivisionError msg
  | IndexError msg => msg
  | Unfinished => ""
  end.

(** [s.lower()] and [s.replace(' ', '_')] *)
Definition lower_char (a : ascii) : ascii :=
  let c := nat_of_ascii a in
  if (Nat.leb 65 c && Nat.leb c 90)
     || (Nat.leb 192 c && Nat.leb c 222 && negb (Nat.eqb c 215))
  then ascii_of_nat (c + 32) else a.

Fixpoint map_string (f : ascii -> ascii) (s : string) : string :=
  match s with
  | EmptyString => EmptyString
  | String a rest => String (f a) (map_string f rest)
  end.

Definition lower (s : string) : string := map_string lower_char s.

Definition spaces_to_underscores (s : string) : string :=
  map_string (fun a => if Ascii.eqb a " " then "_"%char else a) s.

(** [s.isidentifier()] *)
Definition identifier_start (a : ascii) : bool :=
  let c := nat_of_ascii a in
  (Nat.leb 65 c && Nat.leb c 90) || Nat.eqb c 95 || (Nat.leb 97 c && Nat.leb c 122)
  || Nat.eqb c 170 || Nat.eqb c 181 || Nat.eqb c 186
  || (Nat.leb 192 c && Nat.leb c 214) || (Nat.leb 216 c && Nat.leb c 246)
  || Nat.leb 248 c.

Definition identifier_continue (a : ascii) : bool :=
  let c := nat_of_ascii a in
  identifier_start a || (Nat.leb 48 c && Nat.leb c 57) || Nat.eqb c 183.

Definition isidentifier (s : string) : bool :=
  match s with
  | EmptyString => false
  | String a rest => identifier_start a && forallb identifier_continue (list_ascii_of_string rest)
  end.

(** [s.startswith(prefix)] *)
Definition startswith (s pre : string) : bool := String.prefix pre s.

(** [FeatureTreeCodeGenerator._format_parameter_value] *)
Definition format_parameter_value (param : Param) : result string :=
  if bool_decide (p_type param ∈ [FLOAT; LENGTH; ANGLE]) then
    f ← py_float (p_value param); Ok (PyText.float_repr f)
  else if bool_decide (p_type param = INTEGER) then
    z ← py_int (p_value param); Ok (pretty z)
  else if bool_decide (p_type param = STRING) then
    Ok (PyRead.repr_string (py_str (p_value param)))
  else if bool_decide (p_type param = BOOLEAN) then
    Ok (bool_text (py_bool (p_value param)))
  else Ok (py_str (p_value param)).

(** The float literal [0.1]. *)
Definition tenth : PrimFloat.float := FloatOps.SF2Prim (PyText.of_decimal false 1 (-1)).

(** ** The code generator ([feature_tree_code_generator.py]) *)

(** [self.used_variables] and the dictionary [variables] of
    [generate_cadquery_code]; both are only probed. *)
Record Names := mkNames {
  used_variables : gset string;
  variables : gmap string string
}.

(** [variables[k]] *)
Definition lookup_var (k : string) (vars : gmap string string) : result string :=
  match vars !! k with
  | Some v => Ok v
  | None => Raise (KeyError k)
  end.

(** The [while var_name in self.used_variables] loop of
    [_get_variable_name]; [steps] bounds the number of tests. *)
Fixpoint unique_name (steps : nat) (base_name : string) (counter : nat) (var_name : string)
    (used : gset string) : result string :=
  match steps with
  | O => Raise Unfinished
  | S steps' =>
      if decide (var_name ∈ used)
      then unique_name steps' base_name (S counter) (base_name +:+ "_" +:+ pretty counter) used
      else Ok var_name
  end.

(** [FeatureTreeCodeGenerator._get_variable_name]: a set of [n] names
    cannot hold all of the first [n + 1] candidates (see
    [get_variable_name_returns]). *)
Definition get_variable_name (node : FeatureNode) (used : gset string)
    : result (string * gset string) :=
  let base_name := lower (feature_type_value (feature_type node)) in
  var_name ← unique_name (S (size used)) base_name 1 base_name used;
  Ok (var_name, used ∪ {[var_name]}).

(** [{p.name: p.value for p in node.parameters}] *)
Definition params_of (node : FeatureNode) : gmap string pyval :=
  foldl (fun m p => <[p_name p := p_value p]> m) ∅ (parameters node).

(** [FeatureTreeCodeGenerator._get_param_value] *)
Fixpoint get_param_value (params : gmap string pyval) (param_names : list string)
    (default : pyval) : pyval :=
  match param_names with
  | [] => default
  | name :: rest =>
      match params !! name with
      | Some v => v
      | None => get_param_value params rest default
      end
  end.

Definition new_workplane : string := "cq.Workplane()".
Definition unit_box : string := "cq.Workplane().box(1, 1, 1)".

(** [FeatureTreeCodeGenerator._find_workplane_for_sketch] *)
Definition find_workplane_for_sketch (sketch_id : string) (vars : gmap string string)
    (t : FeatureTree) : result string :=
  match Dict.get sketch_id (nodes t) with
  | Some sketch_node =>
      match parent_references sketch_node with
      | ref :: _ =>
          match Dict.get (feature_id ref) (nodes t) with
          | Some parent_node =>
              if decide (feature_type parent_node = WORKPLANE)
              then lookup_var (feature_id ref) vars
              else Ok new_workplane
          | None => Ok new_workplane
          end
      | [] => Ok new_workplane
      end
  | None => Ok new_workplane
  end.

(** The nodes before position [node_index] of the regeneration order,
    nearest first: [for i in range(node_index - 1, -1, -1)]. *)
Definition earlier_nodes (node_index : nat) (t : FeatureTree) : list string :=
  rev (take node_index (regeneration_order t)).

(** The backward scan of [_get_base_variable] for a sketch. *)
Fixpoint sketch_base_scan (prev : list string) (vars : gmap string string)
    (t : FeatureTree) : option string :=
  match prev with
  | [] => None
  | prev_id :: rest =>
      match vars !! prev_id, Dict.get prev_id (nodes t) with
      | Some v, Some prev_node =>
          if decide (feature_type prev_node = WORKPLANE) then Some v
          else if is_type_in (feature_type prev_node) [BOX; CYLINDER; SPHERE; EXTRUDE]
          then Some new_workplane
          else sketch_base_scan rest vars t
      | _, _ => sketch_base_scan rest vars t
      end
  end.

(** The backward scan of [_get_base_variable] for the other nodes. *)
Fixpoint previous_variable (prev : list string) (vars : gmap string string)
    (t : FeatureTree) : option string :=
  match prev with
  | [] => None
  | prev_id :: rest =>
      match vars !! prev_id, Dict.get prev_id (nodes t) with
      | Some v, Some prev_node =>
          if decide (feature_type prev_node = SKETCH)
          then previous_variable rest vars t
          else Some v
      | _, _ => previous_variable rest vars t
      end
  end.

(** The part of [_get_base_variable] that follows the first parent
    reference; [None] when control falls through to the scan. *)
Definition base_from_parent (node : FeatureNode) (vars : gmap string string)
    (t : FeatureTree) : option (result string) :=
  match parent_references node with
  | ref :: _ =>
      let parent_id := feature_id ref in
      match vars !! parent_id, Dict.get parent_id (nodes t) with
      | Some parent_var, Some parent_node =>
          if decide (feature_type node = SKETCH) then
            if decide (feature_type parent_node = WORKPLANE) then Some (Ok parent_var)
            else if decide (feature_type parent_node = SKETCH)
            then Some (find_workplane_for_sketch parent_id vars t)
            else Some (Ok new_workplane)
          else if decide (feature_type parent_node = SKETCH) then Some (Ok parent_var)
          else if is_type_in (feature_type node) [EXTRUDE; REVOLVE]
                  && is_type_in (feature_type parent_node)
                       [EXTRUDE; BOX; CYLINDER; SPHERE; REVOLVE; LOFT; SWEEP]
          then Some (Ok (parent_var +:+ ".faces('>Z').workplane()"))
          else Some (Ok parent_var)
      | _, _ => None
      end
  | [] => None
  end.

(** [FeatureTreeCodeGenerator._get_base_variable] *)
Definition get_base_variable (node : FeatureNode) (vars : gmap string string)
    (t : FeatureTree) : result string :=
  match base_from_parent node vars t with
  | Some r => r
  | None =>
      let found :=
        match index_of (id node) (regeneration_order t) with
        | Some node_index =>
            if decide (0 < node_index) then
              if decide (feature_type node = SKETCH)
              then sketch_base_scan (earlier_nodes node_index t) vars t
              else previous_variable (earlier_nodes node_index t) vars t
            else None
        | None => None
        end in
      Ok (default new_workplane found)
  end.

(** [FeatureTreeCodeGenerator._get_reference_variable] *)
Definition get_reference_variable (node : FeatureNode) (vars : gmap string string)
    (t : FeatureTree) : result string :=
  let second :=
    match parent_references node with
    | _ :: ref :: _ => vars !! feature_id ref
    | _ => None
    end in
  match second with
  | Some v => Ok v
  | None =>
      match index_of (id node) (regeneration_order t) with
      | None => Raise (ValueError (PyRead.repr_string (id node) +:+ " is not in list"))
      | Some node_index =>
          let solids_found :=
            omap (fun prev_id =>
                    match vars !! prev_id, Dict.get prev_id (nodes t) with
                    | Some v, Some prev_node =>
                        if is_type_in (feature_type prev_node) [BOX; CYLINDER; SPHERE]
                        then Some v else None
                    | _, _ => None
                    end)
                 (earlier_nodes node_index t) in
          match solids_found with
          | _ :: second_solid :: _ => Ok second_solid
          | [only_solid] => Ok only_solid
          | [] => Ok unit_box
          end
      end
  end.

(** The loop of the UNION and DIFFERENCE branches that replaces a
    filleted or chamfered operand by the geometry it was made from. *)
Definition original_geometry (node : FeatureNode) (vars : gmap string string)
    (t : FeatureTree) (base_var other_var : string) : string * string :=
  foldl
    (fun operands ir =>
       match Dict.get (feature_id ir.2) (nodes t) with
       | Some parent_node =>
           if is_type_in (feature_type parent_node) [FILLET; CHAMFER] then
             match parent_references parent_node with
             | original :: _ =>
                 match vars !! feature_id original with
                 | Some v => if decide (ir.1 = 0) then (v, operands.2) else (operands.1, v)
                 | None => operands
                 end
             | [] => operands
             end
           else operands
       | None => operands
       end)
    (base_var, other_var)
    (imap (fun i ref => (i, ref)) (parent_references node)).

(** The arguments of the generic method call. *)
Definition generic_args (node : FeatureNode) : list string :=
  map (fun param =>
         if startswith (p_name param) "arg_" then py_str (p_value param)
         else p_name param +:+ "=" +:+ py_repr (p_value param))
      (parameters node).

(** The branches of [_generate_node_code] once the node has its variable.
    The FILLET branch also scans the later nodes for a UNION or DIFFERENCE
    on the unfilleted geometry, but only to log a warning. *)
Definition node_statement (node : FeatureNode) (var_name : string)
    (vars : gmap string string) (t : FeatureTree) : result string :=
  let params := params_of node in
  let value names default := py_str (get_param_value params names default) in
  match feature_type node with
  | WORKPLANE =>
      let plane := default (VStr "XY") (params !! "plane") in
      Ok (var_name +:+ " = cq.Workplane('" +:+ py_str plane +:+ "')")
  | BOX =>
      let width := value ["width"; "arg_0"] (VInt 1) in
      let height := value ["height"; "arg_1"] (VInt 1) in
      let depth := value ["depth"; "arg_2"] (VInt 1) in
      base_var ← get_base_variable node vars t;
      Ok (var_name +:+ " = " +:+ base_var +:+ ".box(" +:+ width +:+ ", " +:+ height
          +:+ ", " +:+ depth +:+ ")")
  | CYLINDER =>
      let radius := value ["radius"; "arg_0"] (VInt 1) in
      let height := value ["height"; "arg_1"] (VInt 1) in
      base_var ← get_base_variable node vars t;
      Ok (var_name +:+ " = " +:+ base_var +:+ ".cylinder(" +:+ radius +:+ ", " +:+ height +:+ ")")
  | SPHERE =>
      let radius := value ["radius"; "arg_0"] (VInt 1) in
      base_var ← get_base_variable node vars t;
      Ok (var_name +:+ " = " +:+ base_var +:+ ".sphere(" +:+ radius +:+ ")")
  | EXTRUDE =>
      let distance := value ["distance"; "arg_0"] (VInt 1) in
      base_var ← get_base_variable node vars t;
      Ok (var_name +:+ " = " +:+ base_var +:+ ".extrude(" +:+ distance +:+ ")")
  | REVOLVE =>
      let angle := value ["angle"; "arg_0"] (VInt 360) in
      base_var ← get_base_variable node vars t;
      Ok (var_name +:+ " = " +:+ base_var +:+ ".revolve(" +:+ angle +:+ ")")
  | FILLET =>
      let radius := value ["radius"; "arg_0"] (VFloat tenth) in
      base_var ← get_base_variable node vars t;
      Ok (var_name +:+ " = " +:+ base_var +:+ ".edges().fillet(" +:+ radius +:+ ")")
  | CHAMFER =>
      let distance := value ["distance"; "arg_0"] (VFloat tenth) in
      base_var ← get_base_variable node vars t;
      Ok (var_name +:+ " = " +:+ base_var +:+ ".edges().chamfer(" +:+ distance +:+ ")")
  | UNION =>
      base_var ← get_base_variable node vars t;
      other_var ← get_reference_variable node vars t;
      let operands := original_geometry node vars t base_var other_var in
      Ok (var_name +:+ " = " +:+ operands.1 +:+ ".union(" +:+ operands.2 +:+ ")")
  | DIFFERENCE =>
      base_var ← get_base_variable node vars t;
      other_var ← get_reference_variable node vars t;
      let operands := original_geometry node vars t base_var other_var in
      Ok (var_name +:+ " = " +:+ operands.1 +:+ ".cut(" +:+ operands.2 +:+ ")")
  | SKETCH =>
      base_var ← get_base_variable node vars t;
      let radius := value ["radius"; "arg_0"] (VInt 5) in
      Ok (var_name +:+ " = " +:+ base_var +:+ ".circle(" +:+ radius +:+ ")")
  | _ =>
      let method_name := feature_type_value (feature_type node) in
      base_var ← get_base_variable node vars t;
      let args :=
        if bool_decide (lower method_name ≠ "sketch") then generic_args node else [] in
      Ok (var_name +:+ " = " +:+ base_var +:+ "." +:+ method_name
          +:+ "(" +:+ join ", " args +:+ ")")
  end.

(** The head of [_generate_node_code]: [variables.get(node.id)], and a new
    name when there is none. *)
Definition assigned_variable (node : FeatureNode) (st : Names) : result (string * Names) :=
  let named :=
    match variables st !! id node with
    | Some v => if bool_decide (v = "") then None else Some v
    | None => None
    end in
  match named with
  | Some v => Ok (v, st)
  | None =>
      r ← get_variable_name node (used_variables st);
      Ok (r.1, mkNames r.2 (<[id node := r.1]> (variables st)))
  end.

(** [FeatureTreeCodeGenerator._generate_node_code]: the names it has added
    stay added when the statement raises. *)
Definition generate_node_code (node : FeatureNode) (st : Names) (t : FeatureTree)
    : result (Names * result string) :=
  r ← assigned_variable node st;
  Ok (r.2, node_statement node r.1 (variables r.2) t).

(** [_extract_design_parameters] *)
Definition design_variable_name (param : Param) : string :=
  match p_original_variable_name param with
  | Some original => if bool_decide (original = "")
                     then spaces_to_underscores (lower (p_name param))
                     else original
  | None => spaces_to_underscores (lower (p_name param))
  end.

Definition is_design_node (node : FeatureNode) : bool :=
  bool_decide (feature_type node = SKETCH)
  && is_substring "design_params" (id node)
  && bool_decide (name node = "Design Parameters").

Definition extract_design_parameters (t : FeatureTree) : Dict.t pyval :=
  match List.find is_design_node (Dict.values (nodes t)) with
  | Some node =>
      foldl
        (fun design_params param =>
           let var_name := design_variable_name param in
           if negb (bool_decide (var_name = "")) && isidentifier var_name
              && negb (mem var_name ["None"; "True"; "False"])
           then Dict.set var_name (p_value param) design_params
           else design_params)
        [] (parameters node)
  | None => []
  end.

Definition priority_types : list (list string) :=
  [["union"; "difference"; "intersection"];
   ["fillet"; "chamfer"];
   ["extrude"; "revolve"; "loft"; "sweep"];
   ["box"; "cylinder"; "sphere"; "cone"]].

(** The first of [ids] whose node has a type of [type_group]. *)
Fixpoint first_of_group (type_group : list string) (ids : list string) (t : FeatureTree)
    : option string :=
  match ids with
  | [] => None
  | node_id :: rest =>
      match Dict.get node_id (nodes t) with
      | Some node =>
          if mem (lower (feature_type_value (feature_type node))) type_group
          then Some node_id
          else first_of_group type_group rest t
      | None => first_of_group type_group rest t
      end
  end.

(** [for type_group in priority_types: for node_id in ids: ...] *)
Fixpoint first_by_priority (groups : list (list string)) (ids : list string) (t : FeatureTree)
    : option string :=
  match groups with
  | [] => None
  | type_group :: rest =>
      match first_of_group type_group ids t with
      | Some node_id => Some node_id
      | None => first_by_priority rest ids t
      end
  end.

(** [FeatureTreeCodeGenerator._find_result_variable] *)
Definition find_result_variable (vars : gmap string string) (t : FeatureTree) : result string :=
  if negb (bool_decide (regeneration_order t = [])) && negb (bool_decide (vars = ∅)) then
    let named := filter (fun node_id => is_Some (vars !! node_id)) (rev (regeneration_order t)) in
    match first_by_priority priority_types named t with
    | Some node_id => lookup_var node_id vars
    | None =>
        match named with
        | node_id :: _ => lookup_var node_id vars
        | [] => Ok unit_box
        end
    end
  else Ok unit_box.

Definition is_leaf (g : gmap string (list string)) (vars : gmap string string)
    (t : FeatureTree) (node_id : string) : bool :=
  match vars !! node_id, g !! node_id, Dict.get node_id (nodes t) with
  | Some _, Some dependents, Some node =>
      bool_decide (length dependents = 0) && negb (bool_decide (feature_type node = WORKPLANE))
  | _, _, _ => false
  end.

(** [FeatureTreeCodeGenerator._find_result_variable_with_dependencies] *)
Definition find_result_variable_with_dependencies (g : gmap string (list string))
    (resolved_order : list string) (vars : gmap string string) (t : FeatureTree)
    : result string :=
  let leaf_nodes := filter (fun node_id => is_leaf g vars t node_id = true) resolved_order in
  match first_by_priority priority_types (rev leaf_nodes) t with
  | Some node_id => lookup_var node_id vars
  | None =>
      match last leaf_nodes with
      | Some result_id => lookup_var result_id vars
      | None => find_result_variable vars t
      end
  end.

(** The body of [for param in feature_tree.global_parameters]. *)
Definition add_global_parameter (st : list string * gset string) (param : Param)
    : result (list string * gset string) :=
  if decide (p_name param ∈ st.2) then Ok st
  else
    text ← format_parameter_value param;
    Ok (st.1 ++ [p_name param +:+ " = " +:+ text], st.2 ∪ {[p_name param]}).

(** The body of [for param_name, param_value in design_params.items()]. *)
Definition add_design_parameter (st : list string * gset string) (kv : string * pyval)
    : list string * gset string :=
  if decide (kv.1 ∈ st.2) then st
  else (st.1 ++ [kv.1 +:+ " = " +:+ py_str kv.2], st.2 ∪ {[kv.1]}).

(** The body of [for node_id in self.resolved_order]: every exception of
    the [try] block becomes an [# ERROR] line.  [Unfinished] is not an
    exception of the program and is never caught. *)
Definition generate_node (t : FeatureTree) (st : list string * Names) (node_id : string)
    : result (list string * Names) :=
  match Dict.get node_id (nodes t) with
  | None => Ok st
  | Some node =>
      if bool_decide (feature_type node = SKETCH) && is_substring "design_params" (id node)
      then Ok st
      else
        r ← get_variable_name node (used_variables st.2);
        let named := mkNames r.2 (<[node_id := r.1]> (variables st.2)) in
        out ← generate_node_code node named t;
        match out.2 with
        | Ok code_line =>
            Ok (if bool_decide (code_line = "") then st.1 else st.1 ++ [code_line], out.1)
        | Raise Unfinished => Raise Unfinished
        | Raise e =>
            Ok (st.1 ++ ["# ERROR: Failed to generate code for " +:+ name node +:+ ": "
                         +:+ exn_text e], out.1)
        end
  end.

(** [FeatureTreeCodeGenerator.generate_cadquery_code]; the outer [try]
    logs and raises again. *)
Definition generate_cadquery_code (t : FeatureTree) : result string :=
  let g := build_dependency_graph t in
  resolved_order ← resolve_dependencies g t;
  let code_lines := ["import cadquery as cq"; ""] in
  st1 ←
    match global_parameters t with
    | [] => Ok (code_lines, ∅)
    | _ =>
        r ← for_each add_global_parameter (global_parameters t)
              (code_lines ++ ["# Global parameters"], ∅);
        Ok (r.1 ++ [""], r.2)
    end;
  let st2 :=
    match extract_design_parameters t with
    | [] => st1
    | design_params =>
        let r := foldl add_design_parameter (st1.1 ++ ["# Design parameters"], st1.2)
                   design_params in
        (r.1 ++ [""], r.2)
    end in
  st3 ← for_each (generate_node t) resolved_order (st2.1, mkNames st2.2 ∅);
  result_var ← find_result_variable_with_dependencies g resolved_order (variables st3.2) t;
  Ok (join newline (st3.1 ++ [""; "result = " +:+ result_var])).

(** [generate(T)] *)
Definition generate := generate_cadquery_code.

(** ** The generator returns *)

(** The names [_get_variable_name] tries, in order. *)
Definition candidate (base_name : string) (j : nat) : string :=
  match j with
  | O => base_name
  | S _ => base_name +:+ "_" +:+ pretty j
  end.

Lemma append_empty_r (s : string) : s +:+ "" = s.
Proof.
  induction s as [|a s IH]; [done|].
  change (String a (s +:+ "") = String a s). by rewrite IH.
Qed.

Lemma candidate_inj (base_name : string) : Inj (=) (=) (candidate base_name).
Proof.
  intros [|i] [|j] Heq; cbn [candidate] in Heq; [done | | |].
  - rewrite <- (append_empty_r base_name) in Heq at 1.
    by apply (inj (String.append base_name)) in Heq.
  - rewrite <- (append_empty_r base_name) in Heq at 2.
    by apply (inj (String.append base_name)) in Heq.
  - apply (inj (String.append base_name)) in Heq.
    apply (inj (String.append "_")) in Heq.
    by apply (inj pretty) in Heq.
Qed.

Lemma candidates_fit (base_name : string) (used : gset string) (j : nat) :
  (forall i, i < j -> candidate base_name i ∈ used) -> j <= size used.
Proof.
  intros Hin.
  pose proof (candidate_inj base_name).
  assert (size (list_to_set (C := gset string) (candidate base_name <$> seq 0 j)) = j) as Hsize.
  { rewrite size_list_to_set; [by rewrite length_fmap, length_seq|].
    apply (NoDup_fmap_2 _), NoDup_seq. }
  rewrite <- Hsize at 1. apply subseteq_size. intros x Hx.
  apply elem_of_list_to_set, list_elem_of_fmap in Hx as (i & -> & Hi).
  apply elem_of_seq in Hi. apply Hin. lia.
Qed.

Lemma unique_name_returns (base_name : string) (used : gset string) (steps : nat) :
  forall j,
    (forall i, i < j -> candidate base_name i ∈ used) ->
    size used < j + steps ->
    exists v, unique_name steps base_name (S j) (candidate base_name j) used = Ok v.
Proof.
  induction steps as [|steps IH]; intros j Hin Hsize.
  - apply candidates_fit in Hin. lia.
  - cbn [unique_name]. destruct (decide _) as [Hj|]; [|eauto].
    apply (IH (S j)); [|lia].
    intros i Hi. destruct (decide (i = j)) as [->|]; [done|]. apply Hin. lia.
Qed.

Lemma get_variable_name_returns (node : FeatureNode) (used : gset string) :
  exists v, get_variable_name node used = Ok (v, used ∪ {[v]}).
Proof.
  unfold get_variable_name.
  destruct (unique_name_returns (lower (feature_type_value (feature_type node))) used
              (S (size used)) 0) as (v & Hv); [lia | lia |].
  cbn [candidate] in Hv. rewrite Hv. by exists v.
Qed.



















(** ** What the generator writes *)

Definition text_param (n : string) (v : pyval) (ty : ParameterType) : Param :=
  mkParam n v ty None None None None None.



(** The same with a length that reads as a number. *)
Definition numbered_length_tree : FeatureTree :=
  mkFeatureTree "tree" "project" 1%Z "Feature Tree" (Some "wp") (nodes box_tree) ["wp"; "box"]
    [text_param "wall" (VStr "2.50") LENGTH; text_param "count" (VFloat tenth) INTEGER]
    None false false None "user".

(** A filleted box and a second box, combined by [op]. *)
Definition filleted_tree (op : FeatureType) : FeatureTree :=
  plain_tree
    [("wp", plain_node "wp" WORKPLANE [] ["body"; "tool"]);
     ("body", plain_node "body" BOX ["wp"] ["round"]);
     ("round", plain_node "round" FILLET ["body"] ["combined"]);
     ("tool", plain_node "tool" BOX ["wp"] ["combined"]);
     ("combined", plain_node "combined" op ["round"; "tool"] [])]
    ["wp"; "body"; "round"; "tool"; "combined"].

(** The weakest requirement of a script that parses: its tokenizer has to
    find the end of every string literal.  A literal in single or double
    quotes ends on its own line unless the line break is escaped, one in
    tripled quotes may run over lines, and a quote in a comment opens
    nothing. *)
Inductive lexer_state :=
| InCode
| InComment
| InString (quote : ascii)
| InTriple (quote : ascii).

Definition is_quote (a : ascii) : bool :=
  Ascii.eqb a "'" || Ascii.eqb a PyRead.dquote.

Definition is_newline (a : ascii) : bool := Ascii.eqb a (ascii_of_nat 10).

Fixpoint literals_close (state : lexer_state) (code : string) : bool :=
  match code with
  | EmptyString =>
      match state with
      | InCode | InComment => true
      | InString _ | InTriple _ => false
      end
  | String a rest =>
      match state with
      | InCode =>
          if Ascii.eqb a "#" then literals_close InComment rest
          else if is_quote a then
            match rest with
            | String b (String c rest') =>
                if Ascii.eqb b a && Ascii.eqb c a
                then literals_close (InTriple a) rest'
                else literals_close (InString a) rest
            | _ => literals_close (InString a) rest
            end
          else literals_close InCode rest
      | InComment =>
          if is_newline a then literals_close InCode rest else literals_close InComment rest
      | InString quote =>
          if Ascii.eqb a "\" then
            match rest with
            | String _ rest' => literals_close (InString quote) rest'
            | EmptyString => false
            end
          else if Ascii.eqb a quote then literals_close InCode rest
          else if is_newline a then false
          else literals_close (InString quote) rest
      | InTriple quote =>
          if Ascii.eqb a "\" then
            match rest with
            | String _ rest' => literals_close (InTriple quote) rest'
            | EmptyString => false
            end
          else if Ascii.eqb a quote then
            match rest with
            | String b (String c rest') =>
                if Ascii.eqb b quote && Ascii.eqb c quote
                then literals_close InCode rest'
                else literals_close (InTriple quote) rest
            | _ => literals_close (InTriple quote) rest
            end
          else literals_close (InTriple quote) rest
      end
  end.

Definition string_literals_closed (code : string) : bool := literals_close InCode code.



Example generate_numbered_length :
  generate numbered_length_tree
  = Ok (join newline ["import cadquery as cq";
                      "";
                      "# Global parameters";
                      "wall = 2.5";
                      "count = 0";
                      "";
                      "workplane = cq.Workplane('XY')";
                      "box = workplane.box(1, 1, 1)";
                      "";
                      "result = box"]).
Proof. vm_compute. reflexivity. Qed.

(** The script of the numbered length passes the test of the literals. *)
Example numbered_length_literals_closed :
  (code ← generate numbered_length_tree; Ok (string_literals_closed code)) = Ok true.
Proof. vm_compute. reflexivity. Qed.




(** C6 at a filleted box combined with a second box.  The UNION and the
    DIFFERENCE are written on the box the fillet was made from; the
    INTERSECTION, which has no branch of its own in [_generate_node_code],
    is written by the generic method call on the fillet's variable and
    without its second operand. *)
Theorem intersection_keeps_fillet_operand :
  generate (filleted_tree UNION)
  = Ok (join newline ["import cadquery as cq";
                      "";
                      "workplane = cq.Workplane('XY')";
                      "box = workplane.box(1, 1, 1)";
                      "box_1 = workplane.box(1, 1, 1)";
                      "fillet = box.edges().fillet(0.1)";
                      "union = box.union(box_1)";
                      "";
                      "result = union"]) /\
  generate (filleted_tree DIFFERENCE)
  = Ok (join newline ["import cadquery as cq";
                      "";
                      "workplane = cq.Workplane('XY')";
                      "box = workplane.box(1, 1, 1)";
                      "box_1 = workplane.box(1, 1, 1)";
                      "fillet = box.edges().fillet(0.1)";
                      "difference = box.cut(box_1)";
                      "";
                      "result = difference"]) /\
  generate (filleted_tree INTERSECTION)
  = Ok (join newline ["import cadquery as cq";
                      "";
                      "workplane = cq.Workplane('XY')";
                      "box = workplane.box(1, 1, 1)";
                      "box_1 = workplane.box(1, 1, 1)";
                      "fillet = box.edges().fillet(0.1)";
                      "intersection = fillet.intersection()";
                      "";
                      "result = intersection"]).
Proof. repeat split; vm_compute; reflexivity. Qed.

(** The UNION branch looks one surface operation back and no further: on a
    chamfered fillet it is written on the fillet. *)
Example union_after_two_surface_operations :
  generate
    (plain_tree
       [("wp", plain_node "wp" WORKPLANE [] ["body"; "tool"]);
        ("body", plain_node "body" BOX ["wp"] ["round"]);
        ("round", plain_node "round" FILLET ["body"] ["edge"]);
        ("edge", plain_node "edge" CHAMFER ["round"] ["combined"]);
        ("tool", plain_node "tool" BOX ["wp"] ["combined"]);
        ("combined", plain_node "combined" UNION ["edge"; "tool"] [])]
       ["wp"; "body"; "round"; "edge"; "tool"; "combined"])
  = Ok (join newline ["import cadquery as cq";
                      "";
                      "workplane = cq.Workplane('XY')";
                      "box = workplane.box(1, 1, 1)";
                      "box_1 = workplane.box(1, 1, 1)";
                      "fillet = box.edges().fillet(0.1)";
                      "chamfer = fillet.edges().chamfer(0.1)";
                      "union = fillet.union(box_1)";
                      "";
                      "result = union"]).
Proof. vm_compute. reflexivity. Qed.

(** ** The parser ([feature_tree_parser.py])

    The parser works on the syntax tree that [ast.parse] returns for the
    script.  The tree keeps the node types the parser looks at; any other
    node is an [AOther] with its children, so that [ast.walk] meets the
    calls below it.  Constants are the values of [pyval], and an argument
    given as [**mapping] is not represented. *)

Inductive operator := Add | Sub | Mult | Div | FloorDiv | Mod | Pow | OtherOperator (op : string).

Inductive unaryop := USub | UAdd | Not | Invert.

(** The classes of [ast]; [Module] and [Import] are reserved words here. *)
Inductive ast :=
| AModule (body : list ast)
| AImport (names : list string)
| AImportFrom (module : option string) (names : list string)
| AAssign (targets : list ast) (value : ast) (lineno : Z)
| AExpr (value : ast)
| AConstant (value : pyval)
| AName (id : string)
| AList (elts : list ast)
| ATuple (elts : list ast)
| ABinOp (left_operand : ast) (op : operator) (right_operand : ast)
| AUnaryOp (op : unaryop) (operand : ast)
| ACall (func : ast) (args : list ast) (keywords : list (string * ast)) (lineno : Z)
| AAttribute (value : ast) (attr : string)
| AOther (type_name : string) (children : list ast).

(** [ast.iter_child_nodes]: a keyword argument is a node of its own above
    its value. *)
Definition child_nodes (node : ast) : list ast :=
  match node with
  | AModule body => body
  | AAssign targets value _ => targets ++ [value]
  | AExpr value => [value]
  | AList elts | ATuple elts => elts
  | ABinOp left_operand _ right_operand => [left_operand; right_operand]
  | AUnaryOp _ operand => [operand]
  | ACall func args keywords _ =>
      func :: args ++ map (fun kw => AOther "keyword" [kw.2]) keywords
  | AAttribute value _ => [value]
  | AOther _ children => children
  | AImport _ | AImportFrom _ _ | AConstant _ | AName _ => []
  end.

(** The number of nodes of a tree. *)
Fixpoint ast_size (node : ast) : nat :=
  let sizes := fix sizes (l : list ast) : nat :=
    match l with
    | [] => 0
    | x :: l' => ast_size x + sizes l'
    end in
  match node with
  | AModule body => S (sizes body)
  | AAssign targets value _ => S (sizes targets + ast_size value)
  | AExpr value => S (ast_size value)
  | AList elts | ATuple elts => S (sizes elts)
  | ABinOp left_operand _ right_operand => S (ast_size left_operand + ast_size right_operand)
  | AUnaryOp _ operand => S (ast_size operand)
  | ACall func args keywords _ =>
      S (ast_size func + sizes args
         + (fix keyword_sizes (l : list (string * ast)) : nat :=
              match l with
              | [] => 0
              | kw :: l' => S (ast_size kw.2) + keyword_sizes l'
              end) keywords)
  | AAttribute value _ => S (ast_size value)
  | AOther _ children => S (sizes children)
  | AImport _ | AImportFrom _ _ | AConstant _ | AName _ => 1
  end.

(** [ast.walk]: the nodes in breadth-first order; every step takes one
    node from the queue. *)
Fixpoint walk_queue (steps : nat) (todo : list ast) : result (list ast) :=
  match todo with
  | [] => Ok []
  | node :: rest =>
      match steps with
      | O => Raise Unfinished
      | S steps' =>
          visited ← walk_queue steps' (rest ++ child_nodes node);
          Ok (node :: visited)
      end
  end.

Definition walk (tree : ast) : result (list ast) := walk_queue (ast_size tree) [tree].

(** [FeatureTreeParser.METHOD_TO_FEATURE] *)
Definition METHOD_TO_FEATURE : list (string * FeatureType) :=
  [("Workplane", WORKPLANE); ("workplane", WORKPLANE);
   ("rect", SKETCH); ("circle", SKETCH); ("ellipse", SKETCH); ("polygon", SKETCH);
   ("polyline", SKETCH); ("spline", SKETCH); ("line", SKETCH); ("arc", SKETCH);
   ("extrude", EXTRUDE); ("revolve", REVOLVE); ("loft", LOFT); ("sweep", SWEEP);
   ("box", BOX); ("cylinder", CYLINDER); ("sphere", SPHERE); ("cone", CONE);
   ("torus", TORUS);
   ("union", UNION); ("cut", DIFFERENCE); ("intersect", INTERSECTION); ("fuse", UNION);
   ("fillet", FILLET); ("chamfer", CHAMFER); ("mirror", MIRROR);
   ("rarray", PATTERN_LINEAR); ("polarArray", PATTERN_CIRCULAR)].

(** The entries of [CodeAnalysis]. *)
Record CallInfo := mkCallInfo {
  call_function : string;
  call_args : list pyval;
  call_kwargs : Dict.t pyval;
  call_lineno : Z
}.

Record Assignment := mkAssignment {
  assignment_variable : string;
  assignment_value : ast;
  assignment_lineno : Z
}.

Record ChainInfo := mkChainInfo {
  chain : list CallInfo;
  chain_base : pyval;
  chain_variable : string;
  chain_lineno : Z
}.

Record CodeAnalysis := mkCodeAnalysis {
  imports : list string;
  function_calls : list CallInfo;
  assignments : list Assignment;
  method_chains : list ChainInfo
}.

(** [isinstance(v, (int, float))]; [bool] is a subclass of [int]. *)
Definition is_number (v : pyval) : bool := is_int v || is_float v.

(** [v != 0] for a number. *)
Definition nonzero (v : pyval) : bool := py_bool v.

Definition unaryop_name (op : unaryop) : string :=
  match op with USub => "USub" | UAdd => "UAdd" | Not => "Not" | Invert => "Invert" end.

(** [-v] and [+v] *)
Definition negative (v : pyval) : result pyval :=
  match v with
  | VInt z => Ok (VInt (- z))
  | VBool b => Ok (VInt (if b then -1 else 0))
  | VFloat f => Ok (VFloat (PrimFloat.opp f))
  | _ => Raise (TypeError ("bad operand type for unary -: '" +:+ type_name v +:+ "'"))
  end.

Definition positive_of (v : pyval) : result pyval :=
  match v with
  | VInt z => Ok (VInt z)
  | VBool b => Ok (VInt (if b then 1 else 0))
  | VFloat f => Ok (VFloat f)
  | _ => Raise (TypeError ("bad operand type for unary +: '" +:+ type_name v +:+ "'"))
  end.

(** [type(node).__name__] *)
Definition ast_type_name (node : ast) : string :=
  match node with
  | AModule _ => "Module" | AImport _ => "Import" | AImportFrom _ _ => "ImportFrom"
  | AAssign _ _ _ => "Assign" | AExpr _ => "Expr" | AConstant _ => "Constant"
  | AName _ => "Name" | AList _ => "List" | ATuple _ => "Tuple" | ABinOp _ _ _ => "BinOp"
  | AUnaryOp _ _ => "UnaryOp" | ACall _ _ _ _ => "Call" | AAttribute _ _ => "Attribute"
  | AOther type_name _ => type_name
  end.

Section parser.

(** The arithmetic of the interpreter on two numbers, and the identifiers
    that [uuid.uuid4] hands out, in the order they are drawn. *)
Variable arith : operator -> pyval -> pyval -> result pyval.
Variable uuid4 : nat -> string.

(** [except (TypeError, ValueError, ZeroDivisionError)] *)
Definition is_value_error (e : exn) : bool :=
  match e with
  | TypeError _ | ValueError _ | ZeroDivisionError _ => true
  | _ => false
  end.

(** The arithmetic branch of [_extract_value] on the two operand values. *)
Definition binop_value (op : operator) (l r : pyval) : result pyval :=
  if is_number l && is_number r then
    match op with
    | Add | Sub | Mult | Pow => arith op l r
    | Div | FloorDiv => if nonzero r then arith op l r else Ok (VFloat PrimFloat.one)
    | Mod => if nonzero r then arith op l r else Ok (VFloat PrimFloat.zero)
    | OtherOperator _ => Ok (VFloat PrimFloat.one)
    end
  else Ok (VFloat PrimFloat.one).

(** [FeatureTreeParser._extract_value] *)
Fixpoint extract_value (tracker : gmap string pyval) (node : ast) : result pyval :=
  let values := fix values (l : list ast) : result (list pyval) :=
    match l with
    | [] => Ok []
    | x :: l' => v ← extract_value tracker x; vs ← values l'; Ok (v :: vs)
    end in
  match node with
  | AConstant value => Ok value
  | AName id =>
      match tracker !! id with
      | Some resolved_value =>
          if is_number resolved_value then Ok resolved_value else Ok (VFloat PrimFloat.one)
      | None => Ok (VFloat PrimFloat.one)
      end
  | AList elts => vs ← values elts; Ok (VList vs)
  | ATuple elts => vs ← values elts; Ok (VTuple vs)
  | ABinOp left_operand op right_operand =>
      let computed :=
        l ← extract_value tracker left_operand;
        r ← extract_value tracker right_operand;
        binop_value op l r in
      match computed with
      | Raise e => if is_value_error e then Ok (VFloat PrimFloat.one) else Raise e
      | Ok v => Ok v
      end
  | AUnaryOp op operand =>
      let placeholder := VStr ("<UnaryOp:" +:+ unaryop_name op +:+ ">") in
      let computed :=
        v ← extract_value tracker operand;
        match op with
        | USub => negative v
        | UAdd => positive_of v
        | _ => Ok placeholder
        end in
      match computed with
      | Raise (TypeError _) | Raise (ValueError _) => Ok placeholder
      | _ => computed
      end
  | _ => Ok (VStr ("<" +:+ ast_type_name node +:+ ">"))
  end.

Fixpoint extract_values (tracker : gmap string pyval) (l : list ast) : result (list pyval) :=
  match l with
  | [] => Ok []
  | x :: l' => v ← extract_value tracker x; vs ← extract_values tracker l'; Ok (v :: vs)
  end.

(** [FeatureTreeParser._extract_call_info] on the fields of a call. *)
Definition extract_call_info (tracker : gmap string pyval) (func : ast) (args : list ast)
    (keywords : list (string * ast)) (lineno : Z) : result (option CallInfo) :=
  let func_name :=
    match func with
    | AName id => Some id
    | AAttribute _ attr => Some attr
    | _ => None
    end in
  match func_name with
  | None => Ok None
  | Some func_name =>
      arg_values ← extract_values tracker args;
      kwargs ← for_each (fun kwargs kw =>
                           v ← extract_value tracker kw.2; Ok (Dict.set kw.1 v kwargs))
                        keywords [];
      Ok (Some (mkCallInfo func_name arg_values kwargs lineno))
  end.

(** The [while isinstance(current, ast.Call)] loop of
    [_extract_method_chain]: the calls, innermost first, and the node the
    loop stops at. *)
Fixpoint chain_calls (tracker : gmap string pyval) (current : ast)
    : result (list CallInfo * ast) :=
  match current with
  | ACall func args keywords lineno =>
      call_info ← extract_call_info tracker func args keywords lineno;
      match func with
      | AAttribute value _ =>
          r ← chain_calls tracker value;
          Ok (r.1 ++ option_list call_info, r.2)
      | _ => Ok (option_list call_info, current)
      end
  | _ => Ok ([], current)
  end.

(** [FeatureTreeParser._extract_method_chain]; the variable and the line
    are filled in by the caller. *)
Definition extract_method_chain (tracker : gmap string pyval) (node : ast)
    (variable : string) (lineno : Z) : result (option ChainInfo) :=
  r ← chain_calls tracker node;
  match r.1 with
  | [] => Ok None
  | calls =>
      base ← extract_value tracker r.2;
      Ok (Some (mkChainInfo calls base variable lineno))
  end.

(** The body of [for node in ast.walk(tree)]. *)
Definition analyze_node (tracker : gmap string pyval) (analysis : CodeAnalysis) (node : ast)
    : result CodeAnalysis :=
  match node with
  | AImport names =>
      Ok (mkCodeAnalysis (imports analysis ++ names) (function_calls analysis)
            (assignments analysis) (method_chains analysis))
  | AImportFrom module names =>
      Ok (mkCodeAnalysis
            (imports analysis ++ map (fun n => default "" module +:+ "." +:+ n) names)
            (function_calls analysis) (assignments analysis) (method_chains analysis))
  | AAssign [AName var_name] value lineno =>
      Ok (mkCodeAnalysis (imports analysis) (function_calls analysis)
            (assignments analysis ++ [mkAssignment var_name value lineno])
            (method_chains analysis))
  | ACall func args keywords lineno =>
      call_info ← extract_call_info tracker func args keywords lineno;
      Ok (mkCodeAnalysis (imports analysis) (function_calls analysis ++ option_list call_info)
            (assignments analysis) (method_chains analysis))
  | _ => Ok analysis
  end.

(** [FeatureTreeParser._analyze_ast]; [tracker] is [self.variable_tracker]
    as it is when the method runs. *)
Definition analyze_ast (tracker : gmap string pyval) (tree : ast) : result CodeAnalysis :=
  visited ← walk tree;
  analysis ← for_each (analyze_node tracker) visited (mkCodeAnalysis [] [] [] []);
  chains ←
    for_each
      (fun chains assignment =>
         match assignment_value assignment with
         | ACall _ _ _ _ =>
             found ← extract_method_chain tracker (assignment_value assignment)
                       (assignment_variable assignment) (assignment_lineno assignment);
             Ok (chains ++ option_list found)
         | _ => Ok chains
         end)
      (assignments analysis) [];
  Ok (mkCodeAnalysis (imports analysis) (function_calls analysis) (assignments analysis) chains).

(** The state of a [FeatureTreeParser]; [drawn] counts the identifiers
    taken from [uuid4]. *)
Record Parser := mkParser {
  current_tree : FeatureTree;
  variable_tracker : gmap string pyval;
  node_counter : nat;
  drawn : nat
}.

(** [s.isdigit()] and the test of [_build_variable_tracker] for the text of
    a number. *)
Definition isdigit_char (a : ascii) : bool :=
  let c := nat_of_ascii a in
  (Nat.leb 48 c && Nat.leb c 57) || Nat.eqb c 178 || Nat.eqb c 179 || Nat.eqb c 185.

Definition isdigit (s : string) : bool :=
  negb (bool_decide (s = "")) && forallb isdigit_char (list_ascii_of_string s).

Fixpoint remove_char (c : ascii) (s : string) : string :=
  match s with
  | EmptyString => EmptyString
  | String a rest => if Ascii.eqb a c then remove_char c rest else String a (remove_char c rest)
  end.

Definition looks_numeric (s : string) : bool :=
  isdigit (remove_char "-" (remove_char "." s)).

(** The first loop of [_build_variable_tracker]. *)
Definition track_literals (assigned : list Assignment) (tracker : gmap string pyval)
    : gmap string pyval :=
  foldl
    (fun tracker assignment =>
       match assignment_value assignment with
       | AConstant value => <[assignment_variable assignment := value]> tracker
       | _ => tracker
       end)
    tracker assigned.

(** The body of the inner loop of a pass; the second component is
    [resolved_any]. *)
Definition track_expression (last_pass : bool) (st : gmap string pyval * bool)
    (assignment : Assignment) : gmap string pyval * bool :=
  let var_name := assignment_variable assignment in
  let by_default :=
    if last_pass then (<[var_name := VFloat PrimFloat.one]> st.1, st.2) else st in
  match st.1 !! var_name with
  | Some _ => st
  | None =>
      match extract_value st.1 (assignment_value assignment) with
      | Ok var_value =>
          if is_number var_value then (<[var_name := var_value]> st.1, true)
          else
            match var_value with
            | VStr text =>
                if looks_numeric text then
                  if PyRead.has_char "." text then
                    match PyRead.float_of_string text with
                    | Some f => (<[var_name := VFloat f]> st.1, true)
                    | None => (<[var_name := var_value]> st.1, st.2)
                    end
                  else
                    match PyRead.int_of_string text with
                    | Some z => (<[var_name := VInt z]> st.1, true)
                    | None => (<[var_name := var_value]> st.1, st.2)
                    end
                else by_default
            | _ => by_default
            end
      | Raise _ => by_default
      end
  end.

(** [for pass_num in range(max_passes)], with [remaining] passes to go. *)
Fixpoint track_passes (remaining : nat) (assigned : list Assignment)
    (tracker : gmap string pyval) : gmap string pyval :=
  match remaining with
  | O => tracker
  | S remaining' =>
      let st := foldl (track_expression (bool_decide (remaining' = 0))) (tracker, false)
                  assigned in
      if st.2 then track_passes remaining' assigned st.1 else st.1
  end.

(** [FeatureTreeParser._build_variable_tracker] *)
Definition build_variable_tracker (analysis : CodeAnalysis) (tracker : gmap string pyval)
    : gmap string pyval :=
  track_passes 3 (assignments analysis) (track_literals (assignments analysis) tracker).

(** [FeatureTreeParser._infer_parameter_type] *)
Definition infer_parameter_type (v : pyval) : ParameterType :=
  match v with
  | VBool _ => BOOLEAN
  | VInt _ => INTEGER
  | VFloat _ => FLOAT
  | VStr _ => STRING
  | VList l | VTuple l => if bool_decide (length l = 3) then VECTOR3D else STRING
  | VNone => STRING
  end.

(** [isinstance(v, (int, float, str, bool))] *)
Definition is_basic (v : pyval) : bool := is_int v || is_float v || is_str v.

(** [FeatureTreeParser._generate_code_fragment] *)
Definition generate_code_fragment (func_name : string) (arg_values : list pyval)
    (kwargs : Dict.t pyval) : string :=
  let arg_strs := map (fun v => if is_number v then py_str v else py_repr v) arg_values in
  let kwarg_strs :=
    map (fun kv => kv.1 +:+ "=" +:+ (if is_number kv.2 then py_str kv.2 else py_repr kv.2))
        kwargs in
  let args_str := join ", " (arg_strs ++ kwarg_strs) in
  if bool_decide (func_name <> "Workplane")
  then "." +:+ func_name +:+ "(" +:+ args_str +:+ ")"
  else "cq.Workplane(" +:+ args_str +:+ ")".

Definition basic_parameter (param_name : string) (v : pyval) : list Param :=
  if is_basic v
  then [mkParam param_name v (infer_parameter_type v) None None None None None]
  else [].

(** [FeatureTreeParser._create_feature_node_from_call]; the node takes a
    new identifier. *)
Definition create_feature_node_from_call (call : CallInfo) (var_name : option string)
    (chain_index : nat) (p : Parser) : FeatureNode * Parser :=
  let func_name := call_function call in
  let feature_type := default WORKPLANE (Dict.get func_name METHOD_TO_FEATURE) in
  let counter := S (node_counter p) in
  let node_name :=
    match var_name with
    | Some v => if bool_decide (v = "") then func_name +:+ "_" +:+ pretty counter else v
    | None => func_name +:+ "_" +:+ pretty counter
    end in
  let node_name :=
    if decide (0 < chain_index) then node_name +:+ "_" +:+ pretty chain_index else node_name in
  let parameters :=
    concat (imap (fun i v => basic_parameter ("arg_" +:+ pretty i) v) (call_args call))
    ++ concat (map (fun kv => basic_parameter kv.1 kv.2) (call_kwargs call)) in
  let code_fragment :=
    generate_code_fragment func_name (call_args call) (call_kwargs call) in
  (mkFeatureNode (uuid4 (drawn p)) node_name feature_type
     (Some ("Generated from " +:+ func_name +:+ "() call")) parameters [] []
     (Some code_fragment) true None,
   mkParser (current_tree p) (variable_tracker p) counter (S (drawn p))).

(** The body of [for i, call in enumerate(chain)]; the second component is
    [parent_id]. *)
Definition process_call (var_name : string) (st : Parser * option string)
    (indexed : nat * CallInfo) : Parser * option string :=
  if Dict.contains (call_function indexed.2) METHOD_TO_FEATURE then
    let '(node, p) := create_feature_node_from_call indexed.2 (Some var_name) indexed.1 st.1 in
    let node :=
      if truthy_id st.2 then
        set_parent_references node
          (parent_references node
           ++ [mkFeatureReference (default "" st.2) "feature" None])
      else node in
    (mkParser (add_node node st.2 (current_tree p))
       (<[var_name := VStr (id node)]> (variable_tracker p)) (node_counter p) (drawn p),
     Some (id node))
  else st.

(** [FeatureTreeParser._process_method_chain] *)
Definition process_method_chain (p : Parser) (chain_info : ChainInfo) : Parser :=
  (foldl (process_call (chain_variable chain_info)) (p, None)
     (imap (fun i call => (i, call)) (chain chain_info))).1.

(** [FeatureTreeParser._resolve_parameter_variables] *)
Definition resolve_parameter (tracker : gmap string pyval) (param : Param) : Param :=
  match p_value param with
  | VStr text =>
      match tracker !! text with
      | Some resolved_value =>
          if is_number resolved_value
          then mkParam (p_name param) resolved_value (infer_parameter_type resolved_value)
                 (p_description param) (p_units param) (p_min_value param) (p_max_value param)
                 (p_original_variable_name param)
          else param
      | None => param
      end
  | _ => param
  end.

Definition set_parameters (n : FeatureNode) (ps : list Param) : FeatureNode :=
  mkFeatureNode (id n) (name n) (feature_type n) (description n) ps
    (parent_references n) (child_ids n) (code_fragment n) (is_valid n) (error_message n).

Definition resolve_parameter_variables (p : Parser) : Parser :=
  let t := current_tree p in
  let resolved :=
    Dict.map_values
      (fun n => set_parameters n (map (resolve_parameter (variable_tracker p)) (parameters n)))
      (nodes t) in
  mkParser (set_structure t (root_node_id t) resolved (regeneration_order t))
    (variable_tracker p) (node_counter p) (drawn p).

(** [FeatureTreeParser._extract_features_from_analysis] *)
Definition extract_features_from_analysis (analysis : CodeAnalysis) (p : Parser) : Parser :=
  let p1 := mkParser (current_tree p) (build_variable_tracker analysis (variable_tracker p))
              (node_counter p) (drawn p) in
  let p2 := foldl process_method_chain p1 (method_chains analysis) in
  let p3 :=
    foldl
      (fun p call =>
         if Dict.contains (call_function call) METHOD_TO_FEATURE
         then (create_feature_node_from_call call None 0 p).2
         else p)
      p2 (function_calls analysis) in
  resolve_parameter_variables p3.

Definition set_generated_code (t : FeatureTree) (code : string) : FeatureTree :=
  mkFeatureTree (tree_id t) (project_id t) (version t) (tree_name t) (root_node_id t)
    (nodes t) (regeneration_order t) (global_parameters t) (Some code) (dirty t)
    (needs_full_regeneration t) (last_good_artifact_id t) (created_by t).

(** [FeatureTreeParser.parse_code_to_tree] after [ast.parse(code)] has
    returned [tree]: the parser as it is left, its tree included.  Every
    exception becomes a [ValueError]. *)
Definition run_parser (code : string) (tree : ast) (project : string) (user_id : string)
    : result Parser :=
  let new_tree :=
    mkFeatureTree (uuid4 0) project 1%Z "Parsed Feature Tree" None [] [] [] None
      false false None user_id in
  let p0 := mkParser new_tree ∅ 0 1 in
  match analyze_ast (variable_tracker p0) tree with
  | Ok analysis =>
      let p := extract_features_from_analysis analysis p0 in
      Ok (mkParser (set_generated_code (current_tree p) code) (variable_tracker p)
            (node_counter p) (drawn p))
  | Raise Unfinished => Raise Unfinished
  | Raise e => Raise (ValueError ("Failed to parse code: " +:+ exn_text e))
  end.

Definition parse_code_to_tree (code : string) (tree : ast) (project : string)
    (user_id : string) : result FeatureTree :=
  p ← run_parser code tree project user_id; Ok (current_tree p).

End parser.

(** Identifiers that are told apart by the order they are drawn in. *)
Definition numbered_ids (n : nat) : string := "id-" +:+ pretty n.

(** The script of C4 and its syntax tree. *)
Definition cylinder_script : string :=
  join newline
    ["radius=5";
     "height=10";
     "result=Workplane(" +:+ String PyRead.dquote "XY" +:+ String PyRead.dquote ""
     +:+ ").cylinder(radius,height)"].

Definition cylinder_ast : ast :=
  AModule
    [AAssign [AName "radius"] (AConstant (VInt 5)) 1;
     AAssign [AName "height"] (AConstant (VInt 10)) 2;
     AAssign [AName "result"]
       (ACall (AAttribute (ACall (AName "Workplane") [AConstant (VStr "XY")] [] 3) "cylinder")
          [AName "radius"; AName "height"] [] 3)
       3].

(** ** [ast.walk] visits every node *)

Definition total_size (l : list ast) : nat := sum_list_with ast_size l.

Lemma total_size_app (l1 l2 : list ast) : total_size (l1 ++ l2) = total_size l1 + total_size l2.
Proof. apply sum_list_with_app. Qed.

Lemma ast_size_children (node : ast) : ast_size node = S (total_size (child_nodes node)).
Proof.
  assert (forall l : list ast,
            (fix sizes (l : list ast) : nat :=
               match l with
               | [] => 0
               | x :: l' => ast_size x + sizes l'
               end) l = total_size l) as Hsizes.
  { induction l as [|x l IH]; [done|]. unfold total_size. cbn [sum_list_with].
    by rewrite IH. }
  unfold total_size in *.
  destruct node; cbn [ast_size child_nodes sum_list_with]; rewrite ?Hsizes;
    rewrite ?sum_list_with_app; cbn [sum_list_with]; try lia.
  rewrite <- Nat.add_assoc. do 3 f_equal.
  induction keywords as [|kw keywords IH]; [done|].
  rewrite IH. cbn [map sum_list_with ast_size snd]. lia.
Qed.

Lemma walk_queue_returns (steps : nat) :
  forall todo, total_size todo <= steps -> exists visited, walk_queue steps todo = Ok visited.
Proof.
  induction steps as [|steps IH]; intros [|node rest] Hsize; cbn [walk_queue];
    [by eexists | | by eexists |].
  - unfold total_size in Hsize. cbn [sum_list_with] in Hsize.
    pose proof (ast_size_children node). lia.
  - destruct (IH (rest ++ child_nodes node)) as (visited & ->).
    + rewrite total_size_app. unfold total_size in Hsize |- *. cbn [sum_list_with] in Hsize.
      pose proof (ast_size_children node) as Hnode. unfold total_size in Hnode. lia.
    + by eexists.
Qed.

Lemma walk_returns (tree : ast) : exists visited, walk tree = Ok visited.
Proof. apply walk_queue_returns. unfold total_size. cbn [sum_list_with]. lia. Qed.

(** ** The script of C4 *)

(** C4 at its script: the tree has a WORKPLANE and a CYLINDER and nothing
    else, and the parser's table of variables ends with [radius = 5] and
    [height = 10]; but the arguments of the cylinder were read by
    [_analyze_ast] while the table was still empty, and both stay at the
    default [1.0] that [_extract_value] gives to an unknown name. *)
Theorem parse_cylinder_keeps_defaults (arith : operator -> pyval -> pyval -> result pyval) :
  exists p,
    run_parser arith numbered_ids cylinder_script cylinder_ast "project" "user" = Ok p /\
    variable_tracker p !! "radius" = Some (VInt 5) /\
    variable_tracker p !! "height" = Some (VInt 10) /\
    map (fun kn => (feature_type kn.2, map (fun q => (p_name q, p_value q)) (parameters kn.2)))
        (nodes (current_tree p))
    = [(WORKPLANE, [("arg_0", VStr "XY")]);
       (CYLINDER, [("arg_0", VFloat PrimFloat.one); ("arg_1", VFloat PrimFloat.one)])].
Proof. eexists. split; [vm_compute; reflexivity|]. repeat split; vm_compute; reflexivity. Qed.

(** ** The patcher ([cadam_style_parameter_extractor.py]) *)

(** [s.split('\n')] *)
Fixpoint split_lines (s : string) : list string :=
  match s with
  | EmptyString => [""]
  | String a rest =>
      if is_newline a then "" :: split_lines rest
      else
        match split_lines rest with
        | line :: lines => String a line :: lines
        | [] => [String a ""]
        end
  end.

(** What is left of [s] after the prefix [pre]. *)
Fixpoint strip_prefix (pre s : string) : option string :=
  match pre, s with
  | EmptyString, _ => Some s
  | String a pre', String b s' => if Ascii.eqb a b then strip_prefix pre' s' else None
  | String _ _, EmptyString => None
  end.

Fixpoint skip_spaces (s : string) : string :=
  match s with
  | String a rest => if PyRead.is_space a then skip_spaces rest else s
  | EmptyString => EmptyString
  end.

(** [\s*.+]: after some of the white space there is a character that is
    not a line break. *)
Fixpoint value_follows (s : string) : bool :=
  match s with
  | EmptyString => false
  | String a rest => negb (is_newline a) || (PyRead.is_space a && value_follows rest)
  end.

(** [\s*=\s*.+] *)
Definition assigns (s : string) : bool :=
  match skip_spaces s with
  | String a rest => Ascii.eqb a "=" && value_follows rest
  | EmptyString => false
  end.

(** [re.match(pattern, line)] for the pattern of
    [update_parameter_in_code]: white space (the first group), the escaped
    name, white space, [=], and [\s*.+].  The result is the first group; it
    is greedy, and gives white space back only when the rest does not
    match. *)
Fixpoint match_assignment (name line : string) : option string :=
  let here :=
    match strip_prefix name line with
    | Some rest => if assigns rest then Some "" else None
    | None => None
    end in
  match line with
  | String a rest =>
      if PyRead.is_space a then
        match match_assignment name rest with
        | Some indent => Some (String a indent)
        | None => here
        end
      else here
  | EmptyString => here
  end.

(** The text written for the new value. *)
Definition value_text (new_value : pyval) : string :=
  match new_value with
  | VStr text =>
      if looks_numeric text then text
      else String PyRead.dquote text +:+ String PyRead.dquote ""
  | _ => py_str new_value
  end.

(** The body of [for line in lines]. *)
Definition update_line (original_var_name : string) (new_value : pyval)
    (updated_lines : list string) (line : string) : list string :=
  match match_assignment original_var_name line with
  | Some indent =>
      updated_lines ++ [indent +:+ original_var_name +:+ " = " +:+ value_text new_value]
  | None => updated_lines ++ [line]
  end.

(** [CADAMStyleParameterExtractor.update_parameter_in_code] *)
Definition update_parameter_in_code (code original_var_name : string) (new_value : pyval)
    : string :=
  let lines := split_lines code in
  let updated_lines := foldl (update_line original_var_name new_value) [] lines in
  join newline updated_lines.

(** [patch(s, source_name, v)] *)
Definition patch := update_parameter_in_code.

Definition keyword_line_script : string :=
  join newline ["width = 10";
                "plate = make_plate(";
                "    width = width,";
                "    depth = 4)"].

(** ** What the patcher changes *)

(** A text without a line break. *)
Fixpoint one_line (s : string) : bool :=
  match s with
  | EmptyString => true
  | String a rest => negb (is_newline a) && one_line rest
  end.

Fixpoint all_space (s : string) : bool :=
  match s with
  | EmptyString => true
  | String a rest => PyRead.is_space a && all_space rest
  end.

(** The line that replaces [line]. *)
Definition rewritten (original_var_name : string) (new_value : pyval) (line : string) : string :=
  match match_assignment original_var_name line with
  | Some indent => indent +:+ original_var_name +:+ " = " +:+ value_text new_value
  | None => line
  end.

Lemma append_cons (a : ascii) (s t : string) : String a s +:+ t = String a (s +:+ t).
Proof. reflexivity. Qed.

Lemma one_line_append (s t : string) : one_line (s +:+ t) = one_line s && one_line t.
Proof.
  induction s as [|a s IH]; [done|].
  rewrite append_cons. cbn [one_line]. rewrite IH. by rewrite andb_assoc.
Qed.

Lemma updated_lines_rewritten name v (lines acc : list string) :
  foldl (update_line name v) acc lines = acc ++ map (rewritten name v) lines.
Proof.
  revert acc. induction lines as [|line lines IH]; intros acc; cbn [foldl map].
  - by rewrite app_nil_r.
  - rewrite IH. unfold update_line, rewritten.
    destruct (match_assignment name line); by rewrite <- app_assoc.
Qed.

Lemma split_lines_nonempty (s : string) : split_lines s <> [].
Proof.
  destruct s as [|a s]; cbn [split_lines]; [done|].
  destruct (is_newline a); [done|]. by destruct (split_lines s).
Qed.

Lemma split_lines_one_line (s : string) : Forall (fun line => one_line line = true) (split_lines s).
Proof.
  induction s as [|a s IH]; cbn [split_lines]; [by repeat constructor|].
  destruct (is_newline a) eqn:Ha; [by constructor|].
  destruct (split_lines s) as [|line lines]; [repeat constructor; cbn; by rewrite Ha|].
  apply Forall_cons in IH as [Hline Hlines].
  constructor; [|done]. cbn [one_line]. by rewrite Ha, Hline.
Qed.

Lemma split_lines_append (line rest : string) :
  one_line line = true ->
  split_lines (line +:+ newline +:+ rest) = line :: split_lines rest.
Proof.
  induction line as [|a line IH]; intros Hline.
  - reflexivity.
  - cbn [one_line] in Hline. apply andb_true_iff in Hline as [Ha Hline].
    rewrite append_cons. cbn [split_lines].
    destruct (is_newline a); [done|]. by rewrite IH.
Qed.

Lemma split_lines_single (line : string) : one_line line = true -> split_lines line = [line].
Proof.
  induction line as [|a line IH]; intros Hline; [done|].
  cbn [one_line] in Hline. apply andb_true_iff in Hline as [Ha Hline].
  cbn [split_lines]. destruct (is_newline a); [done|]. by rewrite IH.
Qed.

Lemma split_lines_join (lines : list string) :
  lines <> [] ->
  Forall (fun line => one_line line = true) lines ->
  split_lines (join newline lines) = lines.
Proof.
  induction lines as [|line lines IH]; intros Hne Hall; [done|].
  apply Forall_cons in Hall as [Hline Hall].
  destruct lines as [|line' lines]; [by apply split_lines_single|].
  cbn [join]. rewrite split_lines_append by done. f_equal. by apply IH.
Qed.

Lemma strip_prefix_cut (pre s rest : string) :
  strip_prefix pre s = Some rest -> s = pre +:+ rest.
Proof.
  revert s. induction pre as [|a pre IH]; intros s; cbn [strip_prefix].
  - by intros [= ->].
  - destruct s as [|b s]; [done|].
    destruct (Ascii.eqb a b) eqn:Hab; [|done].
    apply Ascii.eqb_eq in Hab as ->. intros Hrest%IH. by rewrite append_cons, Hrest.
Qed.

Lemma match_here_cut (name line indent : string) :
  match strip_prefix name line with
  | Some rest => if assigns rest then Some "" else None
  | None => None
  end = Some indent ->
  all_space indent = true /\ exists rest, line = indent +:+ name +:+ rest.
Proof.
  destruct (strip_prefix name line) as [rest|] eqn:Hcut; [|done].
  destruct (assigns rest); [|done]. intros [= <-]. split; [done|].
  exists rest. change (line = name +:+ rest). by apply strip_prefix_cut.
Qed.

Lemma match_assignment_cut (name line : string) :
  forall indent,
    match_assignment name line = Some indent ->
    all_space indent = true /\ exists rest, line = indent +:+ name +:+ rest.
Proof.
  induction line as [|a line IH]; intros indent; cbn [match_assignment].
  - apply match_here_cut.
  - destruct (PyRead.is_space a) eqn:Ha; [|apply match_here_cut].
    destruct (match_assignment name line) as [inner|]; [|apply match_here_cut].
    intros [= <-]. destruct (IH inner eq_refl) as [Hspace [rest ->]].
    split; [cbn [all_space]; by rewrite Ha, Hspace|]. by exists rest.
Qed.





(** ** The modifier ([ast_parameter_modifier.py])

    The other way to change a value: [modify_cadquery_parameters] works on
    the syntax tree of the script and writes the lines again. *)

Record ParameterInfo := mkParameterInfo {
  parameter_value : pyval;
  line_number : Z
}.

(** The body of the loop of [ASTParameterModifier._extract_parameters]. *)
Definition record_parameter (found : Dict.t ParameterInfo) (node : ast) : Dict.t ParameterInfo :=
  match node with
  | AAssign [AName var_name] (AConstant value) lineno =>
      Dict.set var_name (mkParameterInfo value lineno) found
  | _ => found
  end.

Definition extract_parameters (tree : ast) : result (Dict.t ParameterInfo) :=
  visited ← walk tree; Ok (foldl record_parameter [] visited).

(** [ASTParameterModifier.modify_parameter] *)
Definition modify_parameter (found : Dict.t ParameterInfo) (param_name : string)
    (new_value : pyval) : Dict.t ParameterInfo * bool :=
  match Dict.get param_name found with
  | None => (found, false)
  | Some param_info =>
      if is_basic new_value
      then (Dict.set param_name (mkParameterInfo new_value (line_number param_info)) found, true)
      else (found, false)
  end.

(** [ASTParameterModifier.modify_parameters] *)
Definition modify_parameters (found : Dict.t ParameterInfo) (param_changes : Dict.t pyval)
    : Dict.t ParameterInfo * list string :=
  foldl
    (fun st change =>
       let r := modify_parameter st.1 change.1 change.2 in
       (r.1, if r.2 then st.2 else st.2 ++ [change.1]))
    (found, []) param_changes.

(** [len(line) - len(line.lstrip())] *)
Fixpoint leading_space (line : string) : nat :=
  match line with
  | String a rest => if PyRead.is_space a then S (leading_space rest) else 0
  | EmptyString => 0
  end.

Fixpoint spaces (n : nat) : string :=
  match n with
  | O => ""
  | S n' => String " " (spaces n')
  end.

(** The body of the loop of [get_modified_code_simple]; an index below
    zero counts from the end of the list. *)
Definition rewrite_parameter (lines : list string) (param : string * ParameterInfo)
    : result (list string) :=
  let line_idx := (line_number param.2 - 1)%Z in
  if (line_idx <? Z.of_nat (length lines))%Z then
    let position := if (line_idx <? 0)%Z then (line_idx + Z.of_nat (length lines))%Z
                    else line_idx in
    match (if (position <? 0)%Z then None else lines !! Z.to_nat position) with
    | Some original_line =>
        let value := parameter_value param.2 in
        let new_line :=
          param.1 +:+ " = " +:+ (if is_str value then py_repr value else py_str value) in
        Ok (<[Z.to_nat position := spaces (leading_space original_line) +:+ new_line]> lines)
    | None => Raise (IndexError "list index out of range")
    end
  else Ok lines.

(** [ASTParameterModifier.get_modified_code_simple] *)
Definition get_modified_code_simple (original_code : string) (found : Dict.t ParameterInfo)
    : result string :=
  lines ← for_each rewrite_parameter found (split_lines original_code);
  Ok (join newline lines).

(** [modify_cadquery_parameters]; [tree] is what [ast.parse] returns for
    [original_code]. *)
Definition modify_cadquery_parameters (original_code : string) (tree : ast)
    (parameter_changes : Dict.t pyval) : result (string * list string) :=
  found ← extract_parameters tree;
  let r := modify_parameters found parameter_changes in
  modified_code ← get_modified_code_simple original_code r.1;
  Ok (modified_code, r.2).

(** Every line that assigns a constant is written again, not only the
    line of the value that changes: a comment after the value is lost. *)
Example modifier_rewrites_every_parameter :
  modify_cadquery_parameters
    (join newline ["width=10  # of the plate"; "depth = 4"])
    (AModule [AAssign [AName "width"] (AConstant (VInt 10)) 1;
              AAssign [AName "depth"] (AConstant (VInt 4)) 2])
    [("depth", VInt 6)]
  = Ok (join newline ["width = 10"; "depth = 6"], []).
Proof. vm_compute. reflexivity. Qed.

(** ** What the validator accepts *)

(** A candidate type may be created from a parent type: the test of
    [_validate_parent_references]. *)
Definition compatible (child parent : FeatureType) : Prop :=
  match valid_parent_types child with
  | Some valid_parents => parent ∈ valid_parents
  | None => True
  end.

Lemma check_reference_ok tree new_node errors ref :
  check_reference tree new_node errors ref = [] <->
  errors = [] /\
  exists parent_node,
    Dict.get (feature_id ref) (nodes tree) = Some parent_node /\
    compatible (feature_type new_node) (feature_type parent_node).
Proof.
  unfold check_reference, compatible.
  destruct (Dict.get (feature_id ref) (nodes tree)) as [parent_node|].
  - destruct (valid_parent_types (feature_type new_node)) as [valid|].
    + unfold is_type_in. case_bool_decide as Hin.
      * naive_solver.
      * split; [by destruct errors|]. intros [_ (p & [= <-] & Hp)]. done.
    + naive_solver.
  - split; [by destruct errors | naive_solver].
Qed.

Lemma check_references_errors tree new_node (refs_ : list FeatureReference) :
  forall errors,
    foldl (check_reference tree new_node) errors refs_ = [] <->
    errors = [] /\
    forall ref, ref ∈ refs_ ->
      exists parent_node,
        Dict.get (feature_id ref) (nodes tree) = Some parent_node /\
        compatible (feature_type new_node) (feature_type parent_node).
Proof.
  induction refs_ as [|ref refs_ IH]; intros errors; cbn [foldl].
  - split; [intros ->; split; [done|]; by intros ? ?%elem_of_nil | by intros [-> _]].
  - rewrite IH, check_reference_ok. split.
    + intros [[-> Href] Hrest]. split; [done|].
      intros r [->|Hr]%elem_of_cons; [done | by apply Hrest].
    + intros [-> Hall]. split; [split; [done|]; apply Hall; left|].
      intros r Hr. apply Hall. by right.
Qed.

Lemma validate_parent_references_nil tree new_node parent_id :
  validate_parent_references tree new_node parent_id = [] <->
  parent_id_ok tree parent_id /\
  forall ref, ref ∈ parent_references new_node ->
    exists parent_node,
      Dict.get (feature_id ref) (nodes tree) = Some parent_node /\
      compatible (feature_type new_node) (feature_type parent_node).
Proof.
  unfold validate_parent_references, parent_id_ok.
  destruct parent_id as [p|].
  - cbn [truthy_id]. case_bool_decide as Hempty; cbn [negb andb].
    + rewrite check_references_errors. naive_solver.
    + destruct (Dict.contains p (nodes tree)) eqn:Hp; cbn [negb].
      * apply contains_keys in Hp. rewrite check_references_errors. naive_solver.
      * split; [done|]. intros [[?|Hin] _]; [done|].
        apply contains_keys in Hin. congruence.
  - rewrite check_references_errors. naive_solver.
Qed.

(** The dependents of a candidate that no node of the tree refers to are
    the candidate itself, once for each reference it makes to itself. *)
Lemma candidate_dependents tree new_node :
  NoDup (Dict.keys (nodes tree)) ->
  id new_node ∉ Dict.keys (nodes tree) ->
  (forall k n, Dict.get k (nodes tree) = Some n -> id new_node ∉ refs n) ->
  exists deps,
    build_dependency_graph (create_temp_tree_with_node tree new_node) !! id new_node
      = Some deps /\
    Forall (fun d => d = id new_node) deps /\
    (id new_node ∉ refs new_node -> deps = []).
Proof.
  intros Hkeys Hfresh Hunref.
  rewrite build_dependency_graph_lookup. cbn [create_temp_tree_with_node nodes].
  rewrite decide_True by (by eapply get_Some_keys, get_set_eq).
  eexists. split; [done|].
  rewrite set_fresh by done. unfold dependents_in. rewrite bind_app.
  assert (nodes tree ≫= (fun kn => (fun _ => kn.1) <$> filter (fun r => r = id new_node) (refs kn.2))
          = []) as ->.
  { apply (dependents_in_nil (nodes tree)). intros [k n] Hkn. cbn [snd].
    apply (Hunref k). by apply elem_of_dict. }
  cbn [app]. rewrite bind_singleton. cbn [fst snd]. split.
  - apply Forall_forall. by intros d (r & -> & _)%list_elem_of_fmap.
  - intros Hself. rewrite filter_none; [done|].
    apply Forall_forall. by intros r Hr ->.
Qed.

(** Whether a candidate that nothing depends on affects the result: it
    does when it is a solid without a reference to itself. *)
Lemma candidate_impact tree new_node :
  NoDup (Dict.keys (nodes tree)) ->
  id new_node ∉ Dict.keys (nodes tree) ->
  (forall k n, Dict.get k (nodes tree) = Some n -> id new_node ∉ refs n) ->
  node_affects_result (create_temp_tree_with_node tree new_node) (id new_node)
  = Ok (is_type_in (feature_type new_node) solid_types
        && bool_decide (id new_node ∉ refs new_node)).
Proof.
  intros Hkeys Hfresh Hunref.
  destruct (candidate_dependents tree new_node Hkeys Hfresh Hunref)
    as (deps & Hdeps & Hall & Hnone).
  unfold node_affects_result.
  assert (exists d, length (nodes (create_temp_tree_with_node tree new_node)) = S d) as [d Hd].
  { cbn [create_temp_tree_with_node nodes]. rewrite length_set_fresh by done. eauto. }
  rewrite Hd. cbn [traces_to_solid]. rewrite decide_False by set_solver.
  cbn [create_temp_tree_with_node nodes] in *. rewrite get_set_eq, Hdeps. cbn [default].
  destruct (decide (id new_node ∈ refs new_node)) as [Hself|Hself].
  - rewrite (bool_decide_false (id new_node ∉ refs new_node)) by tauto.
    assert (deps <> []) as Hne.
    { intros ->.
      rewrite build_dependency_graph_lookup in Hdeps.
      cbn [create_temp_tree_with_node nodes] in Hdeps.
      rewrite decide_True in Hdeps by (by eapply get_Some_keys, get_set_eq).
      injection Hdeps as Hdeps.
      assert (id new_node ∈ dependents_in (Dict.set (id new_node) new_node (nodes tree))
                (id new_node)) as Hdep; [|rewrite Hdeps in Hdep; by apply elem_of_nil in Hdep].
      unfold dependents_in. apply list_elem_of_bind. exists (id new_node, new_node). split.
      - cbn [fst snd]. apply list_elem_of_fmap. exists (id new_node). split; [done|].
        by apply list_elem_of_filter.
      - rewrite set_fresh by done. apply elem_of_app. right. left. }
    rewrite (bool_decide_false (length deps = 0)) by (by destruct deps).
    rewrite !andb_false_r.
    assert (forall (v : gset string),
              id new_node ∈ v ->
              first_true (fun dependent_id v0 =>
                            traces_to_solid (S d) (Dict.set (id new_node) new_node (nodes tree))
                              (build_dependency_graph (create_temp_tree_with_node tree new_node))
                              dependent_id v0) deps v = Ok (false, v)) as Hloop.
    { clear Hne Hdeps Hnone. induction Hall as [|x deps -> _ IH]; intros v Hv; [done|].
      cbn [first_true traces_to_solid]. rewrite decide_True by done. cbn [bind fst snd].
      by apply IH. }
    cbn [create_temp_tree_with_node nodes] in Hloop.
    rewrite Hloop by set_solver. reflexivity.
  - rewrite (Hnone Hself). cbn [length].
    rewrite (bool_decide_true (0 = 0)), (bool_decide_true (id new_node ∉ refs new_node)) by done.
    rewrite !andb_true_r. by destruct (is_type_in _ _).
Qed.


Lemma unreferenced_by_present tree new_node :
  parents_present tree ->
  id new_node ∉ Dict.keys (nodes tree) ->
  forall k n, Dict.get k (nodes tree) = Some n -> id new_node ∉ refs n.
Proof.
  intros Hpresent Hfresh k n Hget Hin. apply Hfresh, (Hpresent k). by exists n.
Qed.

Lemma validate_result_impact_fresh tree new_node parent_id :
  NoDup (Dict.keys (nodes tree)) ->
  id new_node ∉ Dict.keys (nodes tree) ->
  (forall k n, Dict.get k (nodes tree) = Some n -> id new_node ∉ refs n) ->
  validate_result_impact tree new_node parent_id
  = Ok (if (is_type_in (feature_type new_node) solid_types
            && bool_decide (id new_node ∉ refs new_node))
           || is_type_in (feature_type new_node) [WORKPLANE; SKETCH]
        then []
        else [no_impact_message (name new_node) (feature_type new_node)]).
Proof.
  intros Hkeys Hfresh Hunref. unfold validate_result_impact.
  rewrite candidate_impact by done. cbn [mbind result_bind bind].
  by destruct (is_type_in _ solid_types), (bool_decide _), (is_type_in _ [WORKPLANE; SKETCH]).
Qed.

(** A candidate that is neither a solid nor a WORKPLANE nor a SKETCH (a
    FILLET or a CHAMFER, say) is rejected whatever it refers to: nothing
    depends on a node that is not in the tree yet, so it is found not to
    affect the result. *)
Theorem surface_candidate_rejected (tree : FeatureTree) (new_node : FeatureNode)
    (parent_id : option string) :
  NoDup (Dict.keys (nodes tree)) ->
  id new_node ∉ Dict.keys (nodes tree) ->
  (forall k n, Dict.get k (nodes tree) = Some n -> id new_node ∉ refs n) ->
  feature_type new_node ∉ solid_types ++ [WORKPLANE; SKETCH] ->
  exists errors,
    validate_node_addition tree new_node parent_id = Ok (false, errors) /\
    no_impact_message (name new_node) (feature_type new_node) ∈ errors.
Proof.
  intros Hkeys Hfresh Hunref Hty.
  destruct (validate_node_addition_returns tree new_node parent_id)
    as (de & ie & _ & Hie & Hrun).
  rewrite validate_result_impact_fresh in Hie by done.
  apply not_elem_of_app in Hty as [Hsolid Hplane].
  unfold is_type_in in Hie.
  rewrite (bool_decide_false (_ ∈ solid_types)) in Hie by done.
  rewrite (bool_decide_false (_ ∈ [WORKPLANE; SKETCH])) in Hie by done.
  cbn [andb orb] in Hie. injection Hie as <-.
  cbv zeta in Hrun.
  match type of Hrun with _ = Ok (_, ?l) =>
    assert (no_impact_message (name new_node) (feature_type new_node) ∈ l) as Hin
  end.
  { rewrite !elem_of_app. do 5 right. left. }
  eexists. split; [|exact Hin]. rewrite Hrun. by rewrite (verdict_rejected _ _ Hin).
Qed.

Lemma surface_candidate_rejected_witness :
  exists errors,
    validate_node_addition box_tree (plain_node "round" FILLET ["box"] []) (Some "box")
      = Ok (false, errors) /\
    no_impact_message "round" FILLET ∈ errors.
Proof.
  apply (surface_candidate_rejected box_tree (plain_node "round" FILLET ["box"] []) (Some "box")).
  - compute_done.
  - compute_done.
  - intros k n Hget. cbn [box_tree plain_tree nodes Dict.get] in Hget.
    repeat case_decide; simplify_eq; compute_done.
  - compute_done.
Defined.

(** The additions the validator accepts, for a tree whose parent
    references are present and free of cycles: the identifier is new,
    [parent_id] is absent, empty or a node of the tree, every parent
    reference names a node of a type the candidate may be created from,
    a UNION or DIFFERENCE has two solid parents at least, and the
    candidate is a solid, a WORKPLANE or a SKETCH. *)
Theorem accepted_additions (tree : FeatureTree) (new_node : FeatureNode)
    (parent_id : option string) :
  NoDup (Dict.keys (nodes tree)) -> parents_acyclic tree -> parents_present tree ->
  validate_node_addition tree new_node parent_id = Ok (true, []) <->
  id new_node ∉ Dict.keys (nodes tree) /\
  parent_id_ok tree parent_id /\
  (forall ref, ref ∈ parent_references new_node ->
     exists parent_node,
       Dict.get (feature_id ref) (nodes tree) = Some parent_node /\
       compatible (feature_type new_node) (feature_type parent_node)) /\
  (feature_type new_node ∈ boolean_operation_types ->
   2 <= length (solid_parents tree new_node)) /\
  feature_type new_node ∈ solid_types ++ [WORKPLANE; SKETCH].
Proof.
  intros Hkeys Hacyclic Hpresent.
  destruct (validate_node_addition_returns tree new_node parent_id)
    as (de & ie & Hde & Hie & Hrun).
  cbv zeta in Hrun. rewrite Hrun. clear Hrun.
  assert (forall errors : list string,
            Ok (bool_decide (length errors = 0), errors) = Ok (true, []) <-> errors = [])
    as Hverdict.
  { intros errors. split; [by intros [= _ ->] | by intros ->]. }
  rewrite Hverdict. clear Hverdict.
  rewrite !app_nil. rewrite validate_parent_references_nil.
  assert ((if is_type_in (feature_type new_node) boolean_operation_types
           then validate_boolean_operation tree new_node else []) = [] <->
          (feature_type new_node ∈ boolean_operation_types ->
           2 <= length (solid_parents tree new_node))) as ->.
  { unfold validate_boolean_operation, is_type_in. case_bool_decide as Hbool; cbn [negb].
    - destruct (decide (_ < 2)); split; [done | intros H; specialize (H Hbool); lia | intros; lia | done].
    - split; [done | done]. }
  assert ((if Dict.contains (id new_node) (nodes tree)
           then [already_exists_message (id new_node)] else []) = [] <->
          id new_node ∉ Dict.keys (nodes tree)) as ->.
  { destruct (Dict.contains _ _) eqn:E.
    - apply contains_keys in E. split; [done | tauto].
    - split; [|done]. intros _ Hin. apply contains_keys in Hin. congruence. }
  split.
  - intros (Hfresh & (Hpid & Hrefs) & _ & _ & Hbool & ->).
    split; [done|]. split; [done|]. split; [done|]. split; [done|].
    rewrite validate_result_impact_fresh in Hie
      by eauto using unreferenced_by_present.
    unfold is_type_in in Hie. apply elem_of_app.
    destruct (decide (feature_type new_node ∈ solid_types)) as [|Hsolid]; [by left|].
    destruct (decide (feature_type new_node ∈ [WORKPLANE; SKETCH])) as [|Hplane]; [by right|].
    rewrite (bool_decide_false (_ ∈ solid_types)) in Hie by done.
    rewrite (bool_decide_false (_ ∈ [WORKPLANE; SKETCH])) in Hie by done.
    done.
  - intros (Hfresh & Hpid & Hrefs & Hbool & Hty).
    assert (forall r, r ∈ refs new_node -> r ∈ Dict.keys (nodes tree)) as Hrefs'.
    { intros r (ref & -> & Href)%list_elem_of_fmap.
      destruct (Hrefs ref Href) as (p & Hp & _). by eapply get_Some_keys. }
    rewrite (candidate_no_cycle tree new_node Hkeys Hacyclic Hpresent Hfresh Hrefs') in Hde.
    injection Hde as <-.
    rewrite validate_result_impact_fresh in Hie by eauto using unreferenced_by_present.
    split; [done|]. split; [done|]. split; [done|]. split; [done|]. split; [done|].
    injection Hie as <-.
    rewrite (bool_decide_true (id new_node ∉ refs new_node)) by (intros Hin; by apply Hfresh, Hrefs').
    rewrite andb_true_r. unfold is_type_in.
    apply elem_of_app in Hty as [Hsolid|Hplane].
    + by rewrite (bool_decide_true (_ ∈ solid_types)).
    + rewrite (bool_decide_true (_ ∈ [WORKPLANE; SKETCH])) by done. by rewrite orb_true_r.
Qed.

Lemma accepted_additions_witness :
  validate_node_addition box_tree (plain_node "ball" SPHERE ["wp"] []) (Some "wp") = Ok (true, [])
  <->
  "ball" ∉ Dict.keys (nodes box_tree) /\
  parent_id_ok box_tree (Some "wp") /\
  (forall ref, ref ∈ parent_references (plain_node "ball" SPHERE ["wp"] []) ->
     exists parent_node,
       Dict.get (feature_id ref) (nodes box_tree) = Some parent_node /\
       compatible SPHERE (feature_type parent_node)) /\
  (SPHERE ∈ boolean_operation_types ->
   2 <= length (solid_parents box_tree (plain_node "ball" SPHERE ["wp"] []))) /\
  SPHERE ∈ solid_types ++ [WORKPLANE; SKETCH].
Proof.
  apply (accepted_additions box_tree (plain_node "ball" SPHERE ["wp"] []) (Some "wp")).
  - compute_done.
  - apply (parents_acyclic_by_rank _ (fun k => if decide (k = "wp") then 0 else 1)).
    compute_done.
  - apply parents_present_by_check. compute_done.
Defined.

(** Every type that [suggest_valid_additions] proposes for a parent is a
    type that [valid_parent_types] lets be created from it, unless the
    parent is a UNION or a DIFFERENCE. *)
Theorem suggestions_fit_parent (tree : FeatureTree) (p : string) (parent_node : FeatureNode)
    (suggestion : string * string) :
  Dict.get p (nodes tree) = Some parent_node ->
  feature_type parent_node ∉ [UNION; DIFFERENCE] ->
  suggestion ∈ suggest_valid_additions tree (Some p) ->
  exists ft valid_parents,
    feature_type_value ft = suggestion.1 /\
    valid_parent_types ft = Some valid_parents /\
    feature_type parent_node ∈ valid_parents.
Proof.
  intros Hget Hty. unfold suggest_valid_additions.
  destruct (nodes tree) as [|kn ns] eqn:Hnodes; [done|].
  destruct (truthy_id (Some p)); [|by intros ?%elem_of_nil].
  rewrite Hget.
  destruct (existsb _ _);
    destruct (feature_type parent_node) eqn:Hparent;
    try (exfalso; apply Hty; compute_done);
    intros Hin%list_elem_of_In; cbv in Hin;
    repeat (destruct Hin as [<-|Hin]); try done;
    first [ by exists SKETCH; eexists; repeat split; compute_done
          | by exists BOX; eexists; repeat split; compute_done
          | by exists CYLINDER; eexists; repeat split; compute_done
          | by exists SPHERE; eexists; repeat split; compute_done
          | by exists EXTRUDE; eexists; repeat split; compute_done
          | by exists REVOLVE; eexists; repeat split; compute_done
          | by exists FILLET; eexists; repeat split; compute_done
          | by exists CHAMFER; eexists; repeat split; compute_done
          | by exists UNION; eexists; repeat split; compute_done
          | by exists DIFFERENCE; eexists; repeat split; compute_done ].
Qed.

Lemma suggestions_fit_parent_witness :
  exists ft valid_parents,
    feature_type_value ft = "cylinder" /\
    valid_parent_types ft = Some valid_parents /\
    WORKPLANE ∈ valid_parents.
Proof.
  apply (suggestions_fit_parent box_tree "wp" (plain_node "wp" WORKPLANE [] ["box"])
           ("cylinder", "Create a cylindrical solid")).
  - reflexivity.
  - compute_done.
  - compute_done.
Defined.

(** On a UNION the suggestions do not fit: a sketch is proposed, and a
    SKETCH may not be created from a UNION. *)
Example suggestion_for_union_does_not_fit :
  let tree := plain_tree [("wp", plain_node "wp" WORKPLANE [] ["a"; "b"]);
                          ("a", plain_node "a" BOX ["wp"] ["u"]);
                          ("b", plain_node "b" BOX ["wp"] ["u"]);
                          ("u", plain_node "u" UNION ["a"; "b"] [])]
                         ["wp"; "a"; "b"; "u"] in
  ("sketch", "Create new sketch on solid face") ∈ suggest_valid_additions tree (Some "u") /\
  ~ compatible SKETCH UNION.
Proof. split; [compute_done|]. unfold compatible. cbn. compute_done. Qed.

(** ** Adding a node and taking it away again *)

Lemma set_same {V} k (v : V) (d : Dict.t V) : Dict.get k d = Some v -> Dict.set k v d = d.
Proof.
  induction d as [|[k' v'] d IH]; cbn [Dict.get Dict.set]; [done|].
  destruct (decide (k = k')) as [->|Hne]; [by intros [= ->]|].
  intros Hget. by rewrite IH.
Qed.

Lemma set_app_present {V} k (v : V) (d d' : Dict.t V) :
  k ∈ Dict.keys d -> Dict.set k v (d ++ d') = Dict.set k v d ++ d'.
Proof.
  induction d as [|[k' v'] d IH]; cbn [Dict.keys map fst Dict.set app].
  - by intros ?%elem_of_nil.
  - destruct (decide (k = k')) as [->|Hne]; [done|].
    intros [?|Hin]%elem_of_cons; [done|]. by rewrite IH.
Qed.

Lemma map_values_set {V W} (f : V -> W) k v (d : Dict.t V) :
  Dict.map_values f (Dict.set k v d) = Dict.set k (f v) (Dict.map_values f d).
Proof.
  unfold Dict.map_values.
  induction d as [|[k' v'] d IH]; cbn [Dict.set map fst snd]; [done|].
  destruct (decide (k = k')); cbn [map fst snd]; [done|]. by rewrite IH.
Qed.

Lemma map_values_same {V} (f : V -> V) (d : Dict.t V) :
  Forall (fun v => f v = v) (Dict.values d) -> Dict.map_values f d = d.
Proof.
  unfold Dict.map_values, Dict.values.
  induction d as [|[k v] d IH]; [done|]. cbn [map fst snd].
  intros [Hv Hd]%Forall_cons. by rewrite Hv, IH.
Qed.

Lemma del_last {V} k (v : V) (d : Dict.t V) :
  k ∉ Dict.keys d -> Dict.del k (d ++ [(k, v)]) = d.
Proof.
  induction d as [|[k' v'] d IH]; cbn [Dict.keys map fst Dict.del app].
  - intros _. by rewrite decide_True.
  - rewrite not_elem_of_cons. intros [Hne Hd]. rewrite decide_False by done. by rewrite IH.
Qed.

Lemma remove_first_last (x : string) (l : list string) :
  x ∉ l -> remove_first x (l ++ [x]) = l.
Proof.
  induction l as [|y l IH]; cbn [remove_first app].
  - intros _. by rewrite decide_True.
  - rewrite not_elem_of_cons. intros [Hne Hl]. rewrite decide_False by done. by rewrite IH.
Qed.

Lemma unlink_child_absent x n : x ∉ child_ids n -> unlink_child x n = n.
Proof. intros Hx. unfold unlink_child. apply mem_false in Hx. by rewrite Hx. Qed.

Lemma set_structure_same t :
  set_structure t (root_node_id t) (nodes t) (regeneration_order t) = t.
Proof. by destruct t. Qed.

Lemma remove_node_step depth node_id t :
  remove_node (S depth) node_id t
  = match Dict.get node_id (nodes t) with
    | None => Ok t
    | Some node =>
        t1 ← for_each (fun t' child_id => remove_node depth child_id t') (child_ids node) t;
        let nodes2 := Dict.map_values (unlink_child node_id) (nodes t1) in
        let order2 :=
          if mem node_id (regeneration_order t1)
          then remove_first node_id (regeneration_order t1)
          else regeneration_order t1 in
        if Dict.contains node_id nodes2 then
          let nodes3 := Dict.del node_id nodes2 in
          let root3 :=
            if decide (root_node_id t1 = Some node_id)
            then head order2
            else root_node_id t1 in
          Ok (set_structure t1 root3 nodes3 order2)
        else Raise (KeyError node_id)
    end.
Proof. reflexivity. Qed.

(** The nodes of the tree after [add_node], for a new identifier that is
    not its own parent and that no node lists as a child yet. *)
Lemma add_node_nodes node parent_id t :
  id node ∉ Dict.keys (nodes t) ->
  parent_id <> Some (id node) ->
  Forall (fun n => id node ∉ child_ids n) (Dict.values (nodes t)) ->
  nodes (add_node node parent_id t)
  = match parent_id with
    | Some p =>
        if truthy_id parent_id then
          match Dict.get p (nodes t) with
          | Some pn => Dict.set p (set_child_ids pn (child_ids pn ++ [id node])) (nodes t)
          | None => nodes t
          end
        else nodes t
    | None => nodes t
    end ++ [(id node, node)].
Proof.
  intros Hfresh Hself Hunlisted. unfold add_node. cbn [set_structure nodes].
  rewrite set_fresh by done.
  destruct parent_id as [p|]; [|done].
  destruct (truthy_id (Some p)); [|done].
  assert (p <> id node) as Hp by congruence.
  assert (Dict.get p (nodes t ++ [(id node, node)]) = Dict.get p (nodes t)) as ->.
  { rewrite <- (set_fresh (id node) node (nodes t)) by done. apply get_set_ne. congruence. }
  destruct (Dict.get p (nodes t)) as [pn|] eqn:Hget; [|done].
  assert (mem (id node) (child_ids pn) = false) as ->.
  { apply mem_false. rewrite Forall_forall in Hunlisted.
    by eapply Hunlisted, get_Some_values. }
  apply set_app_present. by eapply get_Some_keys.
Qed.

(** Removing a node that has just been added gives back the nodes and the
    regeneration order, and the whole tree when its root was set: the node
    is new to the tree, to every list of children and to the order, it is
    not its own parent, and the children it names are not in the tree. *)
Theorem add_then_remove (node : FeatureNode) (parent_id : option string) (t : FeatureTree)
    (depth : nat) :
  id node ∉ Dict.keys (nodes t) ->
  id node ∉ regeneration_order t ->
  parent_id <> Some (id node) ->
  Forall (fun n => id node ∉ child_ids n) (Dict.values (nodes t)) ->
  (forall c, c ∈ child_ids node -> c ∉ Dict.keys (nodes t) /\ c <> id node) ->
  exists t',
    remove_node (S (S depth)) (id node) (add_node node parent_id t) = Ok t' /\
    nodes t' = nodes t /\
    regeneration_order t' = regeneration_order t /\
    (truthy_id (root_node_id t) = true -> root_node_id t <> Some (id node) -> t' = t).
Proof.
  intros Hfresh Horder Hself Hunlisted Hchildren.
  pose proof (add_node_nodes node parent_id t Hfresh Hself Hunlisted) as Hnodes.
  set (t1 := add_node node parent_id t) in *.
  set (older := match parent_id with
                | Some p =>
                    if truthy_id parent_id then
                      match Dict.get p (nodes t) with
                      | Some pn =>
                          Dict.set p (set_child_ids pn (child_ids pn ++ [id node])) (nodes t)
                      | None => nodes t
                      end
                    else nodes t
                | None => nodes t
                end) in *.
  assert (Dict.keys older = Dict.keys (nodes t)) as Hkeys_older.
  { unfold older. destruct parent_id as [p|]; [|done].
    destruct (truthy_id _); [|done].
    destruct (Dict.get p (nodes t)) as [pn|] eqn:Hget; [|done].
    rewrite keys_set, decide_True; [done|]. by eapply get_Some_keys. }
  assert (Dict.map_values (unlink_child (id node)) older = nodes t) as Hunlink.
  { unfold older. destruct parent_id as [p|].
    2:{ apply map_values_same. eapply Forall_impl; [exact Hunlisted|].
        intros n Hn. by apply unlink_child_absent. }
    destruct (truthy_id _).
    2:{ apply map_values_same. eapply Forall_impl; [exact Hunlisted|].
        intros n Hn. by apply unlink_child_absent. }
    destruct (Dict.get p (nodes t)) as [pn|] eqn:Hget.
    2:{ apply map_values_same. eapply Forall_impl; [exact Hunlisted|].
        intros n Hn. by apply unlink_child_absent. }
    rewrite map_values_set.
    rewrite (map_values_same _ (nodes t)).
    2:{ eapply Forall_impl; [exact Hunlisted|].
        intros n Hn. by apply unlink_child_absent. }
    apply set_same. rewrite Hget. f_equal.
    unfold unlink_child. cbn [set_child_ids child_ids].
    assert (mem (id node) (child_ids pn ++ [id node]) = true) as ->.
    { apply mem_true, elem_of_app. right. left. }
    rewrite remove_first_last.
    - by destruct pn.
    - rewrite Forall_forall in Hunlisted. by eapply Hunlisted, get_Some_values. }
  assert (Dict.get (id node) (nodes t1) = Some node) as Hget.
  { rewrite Hnodes. rewrite <- (set_fresh (id node) node older) by (by rewrite Hkeys_older).
    apply get_set_eq. }
  assert (for_each (fun t' child_id => remove_node (S depth) child_id t') (child_ids node) t1
          = Ok t1) as Hloop.
  { assert (forall cs : list string,
              (forall c, c ∈ cs -> c ∈ child_ids node) ->
              for_each (fun t' child_id => remove_node (S depth) child_id t') cs t1 = Ok t1)
      as Hcs; [|apply Hcs; auto].
    induction cs as [|c cs IH]; intros Hsub; [done|].
    cbn [for_each]. rewrite remove_node_step.
    assert (Dict.get c (nodes t1) = None) as ->.
    { apply get_None_keys. rewrite Hnodes. unfold Dict.keys. rewrite map_app.
      fold (Dict.keys older). rewrite Hkeys_older. cbn [map fst].
      destruct (Hchildren c) as [Hc Hne]; [apply Hsub; left|].
      intros [?|?%list_elem_of_singleton]%elem_of_app; done. }
    cbn [bind]. apply IH. intros c' Hc'. apply Hsub. by right. }
  rewrite remove_node_step, Hget. unfold mbind, result_bind. rewrite Hloop. cbn [bind].
  cbv zeta.
  assert (Dict.map_values (unlink_child (id node)) (nodes t1)
          = nodes t ++ [(id node, node)]) as Hunlinked.
  { rewrite Hnodes. unfold Dict.map_values. rewrite map_app.
    fold (Dict.map_values (unlink_child (id node)) older). rewrite Hunlink.
    cbn [map fst snd]. rewrite unlink_child_absent; [done|].
    intros Hin. by destruct (Hchildren _ Hin). }
  rewrite Hunlinked.
  assert (Dict.contains (id node) (nodes t ++ [(id node, node)]) = true) as ->.
  { apply contains_keys. unfold Dict.keys. rewrite map_app. apply elem_of_app. right. left. }
  rewrite del_last by done.
  assert (regeneration_order t1 = regeneration_order t ++ [id node]) as Hord by done.
  rewrite Hord.
  assert (mem (id node) (regeneration_order t ++ [id node]) = true) as ->.
  { apply mem_true, elem_of_app. right. left. }
  rewrite remove_first_last by done.
  eexists. split; [done|]. split; [done|]. split; [done|].
  intros Hroot Hne.
  assert (root_node_id t1 = root_node_id t) as Hr.
  { unfold t1, add_node. cbn [set_structure root_node_id]. by rewrite Hroot. }
  rewrite Hr, decide_False by done.
  unfold t1, add_node, set_structure. cbn [tree_id project_id version tree_name
    global_parameters generated_code dirty needs_full_regeneration last_good_artifact_id
    created_by]. by destruct t.
Qed.

Lemma add_then_remove_witness :
  exists t',
    remove_node 2 "ball" (add_node (plain_node "ball" SPHERE ["wp"] []) (Some "wp") box_tree)
      = Ok t' /\
    nodes t' = nodes box_tree /\
    regeneration_order t' = regeneration_order box_tree /\
    (truthy_id (root_node_id box_tree) = true -> root_node_id box_tree <> Some "ball" ->
     t' = box_tree).
Proof.
  apply (add_then_remove (plain_node "ball" SPHERE ["wp"] []) (Some "wp") box_tree 0).
  - compute_done.
  - compute_done.
  - done.
  - repeat constructor; compute_done.
  - intros c Hc. by apply elem_of_nil in Hc.
Defined.

(** ** What [get_node_dependencies] collects *)

(** A parent reference to a node of the dictionary. *)
Definition present_edge (ns : Dict.t FeatureNode) (a b : string) : Prop :=
  exists n, Dict.get a ns = Some n /\ b ∈ refs n /\ b ∈ Dict.keys ns.

(** The state of the loop over the parent references of [x], entered with
    the visited set [v]: what is collected is reachable from [x], and a node
    visited since has been reached from [x] and has all its parents
    collected and visited. *)
Record collecting (ns : Dict.t FeatureNode) (x : string) (v : gset string)
    (st : gset string * gset string) : Prop := mk_collecting {
  col_visited : {[x]} ∪ v ⊆ st.2;
  col_sound : forall d, d ∈ st.1 -> tc (present_edge ns) x d;
  col_reached : forall w, w ∈ st.2 -> w ∉ v -> rtc (present_edge ns) x w;
  col_closed : forall w d, w ∈ st.2 -> w ∉ {[x]} ∪ v -> present_edge ns w d ->
      d ∈ st.1 /\ d ∈ st.2
}.

Lemma get_node_dependencies_spec ns depth : forall x (v : gset string),
  unvisited ns v < depth ->
  exists deps v',
    get_node_dependencies depth ns x v = Ok (deps, v') /\
    v ⊆ v' /\
    (x ∈ Dict.keys ns -> x ∈ v') /\
    (forall d, d ∈ deps -> tc (present_edge ns) x d) /\
    (forall w, w ∈ v' -> w ∉ v -> rtc (present_edge ns) x w) /\
    (forall w d, w ∈ v' -> w ∉ v -> present_edge ns w d -> d ∈ deps /\ d ∈ v').
Proof.
  induction depth as [|depth IH]; intros x v Hlt; [lia|].
  cbn [get_node_dependencies].
  destruct (Dict.get x ns) as [node|] eqn:Hget.
  2:{ exists ∅, v. split; [done|]. split; [done|]. split.
      { intros Hx. apply keys_get_Some in Hx as [? ?]. congruence. }
      split; [set_solver|]. split; intros; done. }
  destruct (decide (x ∈ v)) as [Hv|Hv].
  { exists ∅, v. split; [done|]. split; [done|]. split; [done|].
    split; [set_solver|]. split; intros; done. }
  assert (unvisited ns ({[x]} ∪ v) < depth) as Hlt1.
  { pose proof (unvisited_add ns v x (get_Some_keys _ _ _ Hget) Hv). lia. }
  assert (forall (rs : list FeatureReference) (st : gset string * gset string),
            (forall ref, ref ∈ rs -> ref ∈ parent_references node) ->
            collecting ns x v st ->
            exists st',
              for_each
                (fun st ref =>
                   if Dict.contains (feature_id ref) ns then
                     bind (get_node_dependencies depth ns (feature_id ref) (snd st))
                       (fun sub => Ok (fst st ∪ {[feature_id ref]} ∪ fst sub, snd sub))
                   else Ok st) rs st = Ok st' /\
              collecting ns x v st' /\
              st.1 ⊆ st'.1 /\ st.2 ⊆ st'.2 /\
              forall ref, ref ∈ rs -> feature_id ref ∈ Dict.keys ns ->
                feature_id ref ∈ st'.1 /\ feature_id ref ∈ st'.2) as Hloop.
  { induction rs as [|ref rs IHrs]; intros [acc cur] Hsub Hst.
    - exists (acc, cur). split; [done|]. split; [done|]. split; [done|]. split; [done|].
      by intros ? ?%elem_of_nil.
    - cbn [for_each].
      assert (ref ∈ parent_references node) as Href by (apply Hsub; left).
      destruct (Dict.contains (feature_id ref) ns) eqn:Hcont.
      + apply contains_keys in Hcont.
        assert (present_edge ns x (feature_id ref)) as Hedge.
        { exists node. split; [done|]. split; [|done].
          apply list_elem_of_fmap. by exists ref. }
        destruct Hst as [Hvis Hsound Hreach Hclosed]. cbn [fst snd] in *.
        destruct (IH (feature_id ref) cur)
          as (sub & v1 & Hrun & Hmono & Hin & Hs & Hr & Hc).
        { pose proof (unvisited_mono ns _ _ Hvis). lia. }
        cbn [fst snd]. rewrite Hrun. cbn [bind fst snd].
        destruct (IHrs (acc ∪ {[feature_id ref]} ∪ sub, v1))
          as (st' & Hrest & Hst' & Ha & Hb & Hrs).
        { intros r Hr'. apply Hsub. by right. }
        { split; cbn [fst snd].
          - set_solver.
          - intros d [[Hd|Hd%elem_of_singleton]%elem_of_union|Hd]%elem_of_union.
            + by apply Hsound.
            + subst d. by apply tc_once.
            + eapply tc_l; [exact Hedge|]. by apply Hs.
          - intros w Hw Hwv. destruct (decide (w ∈ cur)) as [Hcur|Hcur].
            + by apply Hreach.
            + eapply rtc_l; [exact Hedge|]. by apply Hr.
          - intros w d Hw Hwx Hwd. destruct (decide (w ∈ cur)) as [Hcur|Hcur].
            + destruct (Hclosed w d Hcur Hwx Hwd). set_solver.
            + destruct (Hc w d Hw Hcur Hwd). set_solver. }
        cbn [fst snd] in *. exists st'. split; [done|]. split; [done|].
        split; [set_solver|]. split; [set_solver|].
        intros r [->|Hr']%elem_of_cons Hkey; [|by apply Hrs].
        split; [set_solver|]. apply Hb. by apply Hin.
      + destruct (IHrs (acc, cur)) as (st' & Hrest & Hst' & Ha & Hb & Hrs); [|done|].
        { intros r Hr'. apply Hsub. by right. }
        exists st'. split; [done|]. split; [done|]. split; [done|]. split; [done|].
        intros r [->|Hr']%elem_of_cons Hkey; [|by apply Hrs].
        apply contains_keys in Hkey. congruence. }
  destruct (Hloop (parent_references node) (∅, {[x]} ∪ v))
    as ([deps v'] & Hrun & [Hvis Hsound Hreach Hclosed] & _ & _ & Hrefs); [done| |].
  { split; cbn [fst snd].
    - done.
    - set_solver.
    - intros w [->%elem_of_singleton|Hw]%elem_of_union Hwv; [done | done].
    - intros w d Hw Hwx. done. }
  cbn [fst snd] in *.
  exists deps, v'. split; [done|]. split; [set_solver|]. split; [set_solver|].
  split; [done|]. split; [done|].
  intros w d Hw Hwv Hwd. destruct (decide (w = x)) as [->|Hne].
  - destruct Hwd as (n & Hn & Hd & Hkey). rewrite Hget in Hn. injection Hn as <-.
    apply list_elem_of_fmap in Hd as (ref & -> & Href). by apply Hrefs.
  - apply (Hclosed w d); [done | set_solver | done].
Qed.

Lemma tc_last {A} (R : relation A) (x z : A) :
  tc R x z -> exists y, rtc R x y /\ R y z.
Proof.
  induction 1 as [x z Hxz|x y z Hxy _ (w & Hyw & Hwz)].
  - by exists x.
  - exists w. split; [by eapply rtc_l|done].
Qed.

Lemma dependencies_exact (ns : Dict.t FeatureNode) (depth : nat) (node_id : string) :
  length ns < depth ->
  exists deps visited,
    get_node_dependencies depth ns node_id ∅ = Ok (deps, visited) /\
    forall d, d ∈ deps <-> tc (present_edge ns) node_id d.
Proof.
  intros Hdepth.
  destruct (get_node_dependencies_spec ns depth node_id ∅)
    as (deps & v' & Hrun & _ & Hin & Hsound & _ & Hclosed).
  { pose proof (unvisited_le ns ∅). lia. }
  exists deps, v'. split; [done|]. intros d. split; [apply Hsound|].
  intros Hreach.
  assert (forall w, rtc (present_edge ns) node_id w ->
                    (exists d', present_edge ns w d') -> w ∈ v') as Hvisited.
  { intros w Hw. revert Hw. apply (rtc_ind_r (fun w => (exists d', present_edge ns w d') -> w ∈ v')).
    - intros [d' (n & Hn & _)]. apply Hin. by eapply get_Some_keys.
    - intros y z Hxy Hyz IHy _. apply (Hclosed y z); [|set_solver|done].
      apply IHy. by exists z. }
  apply tc_last in Hreach as (w & Hxw & Hwd).
  apply (Hclosed w d); [|set_solver|done]. apply Hvisited; [done|]. by exists d.
Qed.

(** The result of [tree.get_node_dependencies(node_id)], when the
    recursion has room for one frame per node: exactly the nodes that
    [node_id] reaches by one or more parent references through nodes of
    the tree; the node itself is among them when it lies on a cycle. *)
Theorem get_node_dependencies_reaches (t : FeatureTree) (depth : nat) (node_id : string) :
  length (nodes t) < depth ->
  exists deps visited,
    get_node_dependencies depth (nodes t) node_id ∅ = Ok (deps, visited) /\
    forall d, d ∈ deps <-> tc (present_edge (nodes t)) node_id d.
Proof. apply dependencies_exact. Qed.

Lemma get_node_dependencies_reaches_witness :
  exists deps visited,
    get_node_dependencies 5 (nodes diamond_tree) "u" ∅ = Ok (deps, visited) /\
    forall d, d ∈ deps <-> tc (present_edge (nodes diamond_tree)) "u" d.
Proof. apply (get_node_dependencies_reaches diamond_tree 5 "u"). simpl. lia. Defined.

(** ** What [validate_tree] reports *)

Lemma circular_loop (ns : Dict.t FeatureNode) (ks : list string) : forall errors,
  exists extra,
    for_each
      (fun errors node_id =>
         bind (get_node_dependencies (S (length ns)) ns node_id ∅)
           (fun deps =>
              if decide (node_id ∈ fst deps)
              then Ok (errors ++ [circular_dependency_message node_id])
              else Ok errors))
      ks errors = Ok (errors ++ extra) /\
    (extra = [] <-> forall k, k ∈ ks -> ~ tc (present_edge ns) k k).
Proof.
  induction ks as [|k ks IH]; intros errors.
  - exists []. rewrite app_nil_r. split; [done|]. split; [|done]. by intros _ ? ?%elem_of_nil.
  - cbn [for_each].
    destruct (dependencies_exact ns (S (length ns)) k) as (deps & v & -> & Hdeps); [lia|].
    cbn [bind fst]. destruct (decide (k ∈ deps)) as [Hin|Hout].
    + destruct (IH (errors ++ [circular_dependency_message k])) as (extra & Hrun & _).
      exists (circular_dependency_message k :: extra). split.
      { rewrite <- app_assoc in Hrun. exact Hrun. }
      split; [done|]. intros Hall. exfalso. apply (Hall k); [left|]. by apply Hdeps.
    + destruct (IH errors) as (extra & Hrun & Hextra).
      exists extra. split; [exact Hrun|]. rewrite Hextra. split.
      * intros Hall k' [->|Hk']%elem_of_cons; [|by apply Hall]. by rewrite <- Hdeps.
      * intros Hall k' Hk'. apply Hall. by right.
Qed.

Lemma missing_loop (ns : Dict.t FeatureNode) (node_id : string) (rs : list FeatureReference) :
  forall errors,
  exists extra,
    foldl
      (fun errors ref =>
         if Dict.contains (feature_id ref) ns then errors
         else errors ++ [missing_reference_message node_id (feature_id ref)])
      errors rs = errors ++ extra /\
    (extra = [] <-> forall ref, ref ∈ rs -> feature_id ref ∈ Dict.keys ns).
Proof.
  induction rs as [|ref rs IH]; intros errors.
  - exists []. rewrite app_nil_r. split; [done|]. split; [|done]. by intros _ ? ?%elem_of_nil.
  - cbn [foldl]. destruct (Dict.contains (feature_id ref) ns) eqn:Hcont.
    + destruct (IH errors) as (extra & -> & Hextra). exists extra. split; [done|].
      rewrite Hextra. apply contains_keys in Hcont. split.
      * intros Hall r [->|Hr]%elem_of_cons; [done|by apply Hall].
      * intros Hall r Hr. apply Hall. by right.
    + destruct (IH (errors ++ [missing_reference_message node_id (feature_id ref)]))
        as (extra & -> & _).
      exists (missing_reference_message node_id (feature_id ref) :: extra). split.
      { by rewrite <- app_assoc. }
      split; [done|]. intros Hall. exfalso.
      assert (Dict.contains (feature_id ref) ns = true) as Hyes; [|congruence].
      apply contains_keys, Hall. left.
Qed.

Lemma missing_loops (ns : Dict.t FeatureNode) (vs : list FeatureNode) : forall errors,
  exists extra,
    foldl
      (fun errors node =>
         foldl
           (fun errors ref =>
              if Dict.contains (feature_id ref) ns then errors
              else errors ++ [missing_reference_message (id node) (feature_id ref)])
           errors (parent_references node))
      errors vs = errors ++ extra /\
    (extra = [] <->
     forall node ref, node ∈ vs -> ref ∈ parent_references node ->
                      feature_id ref ∈ Dict.keys ns).
Proof.
  induction vs as [|n vs IH]; intros errors.
  - exists []. rewrite app_nil_r. split; [done|]. split; [|done]. by intros _ ? ? ?%elem_of_nil.
  - cbn [foldl].
    destruct (missing_loop ns (id n) (parent_references n) errors) as (e1 & -> & He1).
    destruct (IH (errors ++ e1)) as (e2 & -> & He2).
    exists (e1 ++ e2). split; [by rewrite <- app_assoc|].
    split.
    + intros [-> ->]%app_eq_nil.
      intros node ref [->|Hnode]%elem_of_cons Href.
      * by apply He1.
      * by eapply He2.
    + intros Hall.
      assert (e1 = []) as ->.
      { apply He1. intros ref Href. apply (Hall n ref); [left|done]. }
      assert (e2 = []) as ->; [|done].
      apply He2. intros node ref Hnode Href. apply (Hall node ref); [by right|done].
Qed.

Lemma present_edge_parent_edge (t : FeatureTree) :
  parents_present t ->
  forall a b, present_edge (nodes t) a b <-> parent_edge t a b.
Proof.
  intros Hpresent a b. split.
  - intros (n & Hn & Hb & _). by exists n.
  - intros Hedge. pose proof (Hpresent a b Hedge) as Hkey.
    destruct Hedge as (n & Hn & Hb). by exists n.
Qed.

Lemma tc_iff {A} (R R' : relation A) (x y : A) :
  (forall a b, R a b <-> R' a b) -> tc R x y <-> tc R' x y.
Proof.
  intros Hiff. split.
  - apply (tc_congruence (fun a => a) R'). intros a b. apply Hiff.
  - apply (tc_congruence (fun a => a) R). intros a b. apply Hiff.
Qed.

Lemma validate_tree_nil (t : FeatureTree) :
  NoDup (Dict.keys (nodes t)) ->
  validate_tree t = Ok [] <->
  parents_acyclic t /\ parents_present t /\
  (forall k, k ∈ regeneration_order t <-> k ∈ Dict.keys (nodes t)).
Proof.
  intros Hnodup. unfold validate_tree.
  destruct (circular_loop (nodes t) (Dict.keys (nodes t)) []) as (e1 & -> & He1).
  unfold mbind, result_bind. cbn [bind app].
  destruct (missing_loops (nodes t) (Dict.values (nodes t)) e1) as (e2 & -> & He2).
  assert ((forall node ref, node ∈ Dict.values (nodes t) -> ref ∈ parent_references node ->
             feature_id ref ∈ Dict.keys (nodes t)) <-> parents_present t) as Hpresent.
  { split.
    - intros Hall a b (n & Hn & Hb). apply list_elem_of_fmap in Hb as (ref & -> & Href).
      apply (Hall n ref); [by eapply get_Some_values|done].
    - intros Hall node ref Hnode Href.
      destruct (values_get_Some _ _ Hnode Hnodup) as [k Hk].
      apply (Hall k). exists node. split; [done|]. apply list_elem_of_fmap. by exists ref. }
  assert (parents_present t ->
          (forall k, k ∈ Dict.keys (nodes t) -> ~ tc (present_edge (nodes t)) k k)
          <-> parents_acyclic t) as Hacyclic.
  { intros Hp. split.
    - intros Hall x Hx. apply (Hall x).
      + apply tc_last in Hx as (y & _ & Hedge).
        apply (Hp y x Hedge).
      + by apply (tc_iff _ _ x x (present_edge_parent_edge t Hp)).
    - intros Hall k _ Hk. apply (Hall k).
      by apply (tc_iff _ _ k k (present_edge_parent_edge t Hp)). }
  assert ((list_to_set (regeneration_order t) : gset string) = list_to_set (Dict.keys (nodes t))
          <-> forall k, k ∈ regeneration_order t <-> k ∈ Dict.keys (nodes t)) as Horder.
  { rewrite set_eq. by setoid_rewrite elem_of_list_to_set. }
  destruct (decide _) as [Hne|Heq].
  - split.
    + intros [= Habs]. by apply app_eq_nil in Habs as [_ ?].
    + intros (_ & _ & Hall). exfalso. apply Hne. by apply Horder.
  - apply dec_stable in Heq. split.
    + intros [= [-> ->]%app_eq_nil].
      assert (parents_present t) as Hp by (by apply Hpresent, He2).
      split; [|split; [done|by apply Horder]]. apply Hacyclic; [done|]. by apply He1.
    + intros (Ha & Hp & Ho).
      assert (e1 = []) as -> by (by apply He1, Hacyclic).
      assert (e2 = []) as -> by (by apply He2, Hpresent).
      done.
Qed.

(** [validate_tree] reports nothing exactly for the trees in which no
    node reaches itself through parent references, every parent reference
    names a node of the tree, and the regeneration order lists the ids of
    the nodes, each at least once and nothing else. *)
Theorem validate_tree_clean (t : FeatureTree) :
  NoDup (Dict.keys (nodes t)) ->
  validate_tree t = Ok [] <->
  parents_acyclic t /\ parents_present t /\
  (forall k, k ∈ regeneration_order t <-> k ∈ Dict.keys (nodes t)).
Proof. apply validate_tree_nil. Qed.

Lemma validate_tree_clean_witness :
  validate_tree diamond_tree = Ok [] <->
  parents_acyclic diamond_tree /\ parents_present diamond_tree /\
  (forall k, k ∈ regeneration_order diamond_tree <-> k ∈ Dict.keys (nodes diamond_tree)).
Proof. apply (validate_tree_clean diamond_tree). compute_done. Defined.

(** ** [add_node_to_tree] keeps a valid tree valid *)

Lemma add_node_keys node parent_id t :
  Dict.keys (nodes (add_node node parent_id t))
  = Dict.keys (Dict.set (id node) node (nodes t)).
Proof.
  unfold add_node. cbn [nodes set_structure].
  destruct parent_id as [p|]; [|done].
  destruct (truthy_id (Some p)); [|done].
  destruct (Dict.get p _) as [pn|] eqn:Hp; [|done].
  destruct (mem _ _); [done|].
  rewrite keys_set. rewrite decide_True; [done|]. by eapply get_Some_keys.
Qed.

Lemma add_node_get node parent_id t k n' :
  Dict.get k (nodes (add_node node parent_id t)) = Some n' ->
  exists n, Dict.get k (Dict.set (id node) node (nodes t)) = Some n /\
            parent_references n' = parent_references n.
Proof.
  unfold add_node. cbn [nodes set_structure].
  destruct parent_id as [p|]; [|by exists n'].
  destruct (truthy_id (Some p)); [|by exists n'].
  destruct (Dict.get p _) as [pn|] eqn:Hp; [|by exists n'].
  destruct (mem _ _); [by exists n'|].
  destruct (decide (p = k)) as [->|Hne].
  - rewrite get_set_eq. intros [= <-]. by exists pn.
  - rewrite get_set_ne by done. by exists n'.
Qed.

(** A node whose parent references all name nodes of a valid tree, added
    under an id the tree does not have, gives a valid tree. *)
Lemma add_node_valid node parent_id t :
  NoDup (Dict.keys (nodes t)) ->
  validate_tree t = Ok [] ->
  id node ∉ Dict.keys (nodes t) ->
  (forall r, r ∈ refs node -> r ∈ Dict.keys (nodes t)) ->
  NoDup (Dict.keys (nodes (add_node node parent_id t))) /\
  validate_tree (add_node node parent_id t) = Ok [].
Proof.
  intros Hnodup Hvalid Hfresh Hrefs.
  apply validate_tree_nil in Hvalid as (Hacyclic & Hpresent & Horder); [|done].
  assert (Dict.keys (nodes (add_node node parent_id t)) = Dict.keys (nodes t) ++ [id node])
    as Hkeys.
  { rewrite add_node_keys, keys_set. by rewrite decide_False. }
  assert (NoDup (Dict.keys (nodes (add_node node parent_id t)))) as Hnodup1.
  { rewrite Hkeys. apply NoDup_app. split; [done|]. split; [|apply NoDup_singleton].
    intros x Hx Hx1. apply list_elem_of_singleton in Hx1 as ->. done. }
  split; [done|].
  assert (forall a b, parent_edge (add_node node parent_id t) a b ->
            b ∈ Dict.keys (nodes t) /\ (a <> id node -> parent_edge t a b)) as Hedge.
  { intros a b (n' & Hn' & Hb).
    apply add_node_get in Hn' as (n & Hn & Heq).
    unfold refs in Hb. rewrite Heq in Hb.
    destruct (decide (id node = a)) as [<-|Hne].
    - rewrite get_set_eq in Hn. injection Hn as <-. split; [by apply Hrefs|done].
    - rewrite get_set_ne in Hn by done.
      assert (parent_edge t a b) as Hab by (by exists n).
      split; [by apply (Hpresent a b)|done]. }
  apply validate_tree_nil; [done|]. split; [|split].
  - assert (forall x y, tc (parent_edge (add_node node parent_id t)) x y ->
              x <> id node -> tc (parent_edge t) x y) as Hold.
    { induction 1 as [x y Hxy|x y z Hxy Hyz IH]; intros Hx.
      - apply tc_once. by destruct (Hedge x y Hxy) as [_ Hold]; apply Hold.
      - eapply tc_l; [by destruct (Hedge x y Hxy) as [_ Hold]; apply Hold|]. apply IH.
        destruct (Hedge x y Hxy) as [Hy _]. by intros ->. }
    intros x Hx. apply (Hacyclic x). apply Hold; [done|].
    apply tc_last in Hx as (y & _ & Hyx). destruct (Hedge y x Hyx) as [Hkey _].
    by intros ->.
  - intros a b Hab. rewrite Hkeys. apply elem_of_app. left.
    by destruct (Hedge a b Hab).
  - intros k. rewrite Hkeys. unfold add_node. cbn [regeneration_order set_structure].
    rewrite !elem_of_app, Horder. done.
Qed.

(** On a tree that passes [validate_tree], the check [add_node_to_tree]
    runs after the insertion never fails: for a node other than the
    design-parameters node the call either returns a tree that passes
    [validate_tree] again, with the node appended to the nodes and to the
    regeneration order, or raises the error of the validator's rejection. *)
Theorem add_node_to_tree_keeps_valid (tree : FeatureTree) (node : FeatureNode)
    (parent_id : option string) :
  NoDup (Dict.keys (nodes tree)) ->
  validate_tree tree = Ok [] ->
  ~ (is_substring "design_params" (id node) = true /\ name node = "Design Parameters") ->
  (exists t',
     add_node_to_tree tree node parent_id = Ok t' /\
     validate_tree t' = Ok [] /\
     Dict.keys (nodes t') = Dict.keys (nodes tree) ++ [id node] /\
     regeneration_order t' = regeneration_order tree ++ [id node]) \/
  (exists errors,
     errors <> [] /\
     add_node_to_tree tree node parent_id
     = Raise (ValueError (invalid_addition_message tree parent_id errors))).
Proof.
  intros Hnodup Hvalid Hplain. unfold add_node_to_tree. cbv zeta.
  match goal with |- context [validate_node_addition tree ?n _] => set (node1 := n) end.
  assert (id node1 = id node /\ name node1 = name node) as [Hid Hname].
  { subst node1. destruct parent_id as [p|]; [|done]. by destruct (_ && _). }
  assert (negb (is_substring "design_params" (id node1)
                && bool_decide (name node1 = "Design Parameters")) = true) as ->.
  { rewrite Hid, Hname. apply negb_true_iff, andb_false_iff.
    destruct (is_substring _ _) eqn:Hsub; [right|by left].
    apply bool_decide_eq_false. intros Hn. by apply Hplain. }
  destruct (validate_node_addition_returns tree node1 parent_id)
    as (de & ie & _ & _ & Hverdict). cbv zeta in Hverdict. rewrite Hverdict.
  match type of Hverdict with _ = Ok (_, ?e) => set (errors := e) in * end.
  cbn [bind fst snd]. case_bool_decide as Hlen.
  - left. apply length_zero_iff_nil in Hlen.
    subst errors. apply app_eq_nil in Hlen as [Hexists Hlen].
    apply app_eq_nil in Hlen as [Hparents _].
    assert (id node1 ∉ Dict.keys (nodes tree)) as Hfresh.
    { destruct (Dict.contains _ _) eqn:Hc; [done|]. intros Hin.
      apply contains_keys in Hin. congruence. }
    apply validate_parent_references_nil in Hparents as [_ Hparents].
    destruct (add_node_valid node1 parent_id tree Hnodup Hvalid Hfresh) as [Hnd1 Hvalid1].
    { intros r (ref & -> & Href)%list_elem_of_fmap.
      destruct (Hparents ref Href) as (pn & Hpn & _). by eapply get_Some_keys. }
    unfold mbind, result_bind. cbn [bind]. rewrite Hvalid1. cbn [bind].
    eexists. split; [done|]. split; [exact Hvalid1|].
    cbn [set_flags nodes regeneration_order]. split.
    + rewrite add_node_keys, keys_set, decide_False by done. by rewrite Hid.
    + unfold add_node. cbn [regeneration_order set_structure]. by rewrite Hid.
  - right. exists errors. split; [by intros Hnil; rewrite Hnil in Hlen|]. done.
Qed.

Lemma add_node_to_tree_keeps_valid_witness :
  (exists t',
     add_node_to_tree box_tree (plain_node "ball" SPHERE ["wp"] []) (Some "wp") = Ok t' /\
     validate_tree t' = Ok [] /\
     Dict.keys (nodes t') = Dict.keys (nodes box_tree) ++ ["ball"] /\
     regeneration_order t' = regeneration_order box_tree ++ ["ball"]) \/
  (exists errors,
     errors <> [] /\
     add_node_to_tree box_tree (plain_node "ball" SPHERE ["wp"] []) (Some "wp")
     = Raise (ValueError (invalid_addition_message box_tree (Some "wp") errors))).
Proof.
  apply (add_node_to_tree_keeps_valid box_tree (plain_node "ball" SPHERE ["wp"] []) (Some "wp")).
  - compute_done.
  - vm_compute. reflexivity.
  - intros [Hsub _]. vm_compute in Hsub. discriminate.
Defined.

(** ** Reordering and parameter updates of the storage service *)

(** [FeatureTreeStorage.reorder_nodes], from the tree it has loaded to the
    tree it saves and returns. *)
Definition reorder_nodes (tree : FeatureTree) (new_order : list string) : result FeatureTree :=
  if decide ((list_to_set new_order : gset string) ≠ list_to_set (Dict.keys (nodes tree)))
  then Raise (ValueError "New order must contain exactly the same nodes")
  else Ok (set_flags (set_structure tree (root_node_id tree) (nodes tree) new_order) true true).

Definition set_value (p : Param) (v : pyval) : Param :=
  mkParam (p_name p) v (p_type p) (p_description p) (p_units p) (p_min_value p)
    (p_max_value p) (p_original_variable_name p).

(** [for param in node.parameters: if param.name == param_name:
    param.value = new_value; break] *)
Fixpoint set_first_value (param_name : string) (new_value : pyval) (ps : list Param)
    : list Param :=
  match ps with
  | [] => []
  | p :: ps' =>
      if decide (p_name p = param_name) then set_value p new_value :: ps'
      else p :: set_first_value param_name new_value ps'
  end.

(** [FeatureTreeStorage.update_node_in_tree], from the tree it has loaded
    to the tree it saves and returns; the node is changed in place, so it
    keeps its position in [nodes]. *)
Definition update_node_in_tree (tree : FeatureTree) (node_id : string)
    (parameter_changes : Dict.t pyval) : result FeatureTree :=
  match Dict.get node_id (nodes tree) with
  | None => Raise (ValueError ("Node " +:+ node_id +:+ " not found in tree"))
  | Some node =>
      let ps :=
        foldl (fun ps change => set_first_value change.1 change.2 ps)
          (parameters node) parameter_changes in
      Ok (set_structure tree (root_node_id tree)
            (Dict.set node_id (set_parameters node ps) (nodes tree))
            (regeneration_order tree))
  end.

(** On a tree that passes [validate_tree], a reordering that
    [reorder_nodes] accepts gives a tree that passes it again, and the
    generator resolves the same order of nodes as before: the stored order
    is not consulted while the parent references have no cycle. *)
Theorem reorder_nodes_keeps_resolved_order (tree t' : FeatureTree) (new_order : list string) :
  NoDup (Dict.keys (nodes tree)) ->
  validate_tree tree = Ok [] ->
  reorder_nodes tree new_order = Ok t' ->
  validate_tree t' = Ok [] /\ resolve t' = resolve tree.
Proof.
  intros Hnodup Hvalid Hrun. unfold reorder_nodes in Hrun.
  destruct (decide _) as [|Heq]; [done|]. apply dec_stable in Heq.
  injection Hrun as <-.
  apply validate_tree_nil in Hvalid as (Hacyclic & Hpresent & Horder); [|done].
  split.
  - apply validate_tree_nil; [done|]. split; [done|]. split; [done|].
    intros k. cbn [set_flags set_structure regeneration_order nodes].
    rewrite set_eq in Heq. specialize (Heq k).
    by rewrite !elem_of_list_to_set in Heq.
  - destruct (resolve_loop_spec tree Hnodup) as (deg & order & deg' & Hdeg & Hloop & Hinv).
    assert (length order = length (nodes tree)) as Hlen.
    { pose proof (ki_nodup _ _ _ _ Hinv) as Hnd. rewrite app_nil_r in Hnd.
      assert (order ≡ₚ Dict.keys (nodes tree)) as ->.
      { apply NoDup_Permutation; [done..|]. intros k. split.
        - intros Hk. apply (ki_keys _ _ _ _ Hinv). by rewrite app_nil_r.
        - by apply (kahn_complete tree deg' order). }
      unfold Dict.keys. by rewrite length_map. }
    unfold resolve, resolve_dependencies.
    change (initial_in_degree (set_flags _ _ _)) with (initial_in_degree tree).
    change (build_dependency_graph (set_flags _ _ _)) with (build_dependency_graph tree).
    cbn [set_flags set_structure nodes regeneration_order].
    rewrite Hdeg. unfold mbind, result_bind. cbn [bind]. rewrite Hloop. cbn [bind].
    by rewrite !decide_False by (by intros Hne; apply Hne).
Qed.

Lemma reorder_nodes_keeps_resolved_order_witness :
  validate_tree (set_flags (plain_tree (nodes diamond_tree) ["u"; "u"; "b1"; "b2"; "wp"])
                   true true) = Ok [] /\
  resolve (set_flags (plain_tree (nodes diamond_tree) ["u"; "u"; "b1"; "b2"; "wp"]) true true)
  = resolve diamond_tree.
Proof.
  apply (reorder_nodes_keeps_resolved_order diamond_tree _ ["u"; "u"; "b1"; "b2"; "wp"]).
  - compute_done.
  - vm_compute. reflexivity.
  - unfold reorder_nodes. rewrite decide_False; [|intros Hne; apply Hne; compute_done].
    reflexivity.
Defined.

Lemma set_first_value_unknown param_name new_value ps :
  param_name ∉ map p_name ps -> set_first_value param_name new_value ps = ps.
Proof.
  induction ps as [|p ps IH]; cbn [map set_first_value]; [done|].
  rewrite not_elem_of_cons. intros [Hne Hps].
  rewrite decide_False by done. by rewrite IH.
Qed.

(** [update_node_in_tree] reports no unknown parameter: given changes
    that name no parameter of the node, it returns the tree as it was. *)
Theorem update_ignores_unknown_names (tree : FeatureTree) (node_id : string) (node : FeatureNode)
    (parameter_changes : Dict.t pyval) :
  Dict.get node_id (nodes tree) = Some node ->
  (forall k, k ∈ Dict.keys parameter_changes -> k ∉ map p_name (parameters node)) ->
  update_node_in_tree tree node_id parameter_changes = Ok tree.
Proof.
  intros Hnode Hunknown. unfold update_node_in_tree. rewrite Hnode. cbv zeta.
  assert (foldl (fun ps change => set_first_value change.1 change.2 ps)
            (parameters node) parameter_changes = parameters node) as ->.
  { induction parameter_changes as [|[k v] changes IH]; [done|].
    cbn [foldl fst snd]. rewrite set_first_value_unknown.
    - apply IH. intros k' Hk'. apply Hunknown. by right.
    - apply Hunknown. left. }
  assert (set_parameters node (parameters node) = node) as -> by (by destruct node).
  rewrite set_same by done. by destruct tree.
Qed.

Lemma update_ignores_unknown_names_witness :
  update_node_in_tree box_tree "box" [("length", VInt 20)] = Ok box_tree.
Proof.
  apply (update_ignores_unknown_names box_tree "box" (plain_node "box" BOX ["wp"] [])).
  - reflexivity.
  - intros k Hk. cbn. apply not_elem_of_nil.
Defined.






(** ** The variables of the generated script *)

Lemma unique_name_first_free (base_name : string) (used : gset string) (steps : nat) :
  forall j w,
    unique_name steps base_name (S j) (candidate base_name j) used = Ok w ->
    exists j', w = candidate base_name j' /\ j <= j' /\ w ∉ used /\
               forall i, j <= i < j' -> candidate base_name i ∈ used.
Proof.
  induction steps as [|steps IH]; intros j w Hrun; [done|].
  cbn [unique_name] in Hrun. destruct (decide _) as [Hj|Hj].
  - destruct (IH (S j) w Hrun) as (j' & -> & Hle & Hfresh & Hbelow).
    exists j'. split; [done|]. split; [lia|]. split; [done|].
    intros i Hi. destruct (decide (i = j)) as [->|]; [done|]. apply Hbelow. lia.
  - injection Hrun as <-. exists j. split; [done|]. split; [done|]. split; [done|].
    intros i Hi. lia.
Qed.

Lemma get_variable_name_spec (node : FeatureNode) (used : gset string) :
  exists j,
    get_variable_name node used
    = Ok (candidate (lower (feature_type_value (feature_type node))) j,
          used ∪ {[candidate (lower (feature_type_value (feature_type node))) j]}) /\
    candidate (lower (feature_type_value (feature_type node))) j ∉ used /\
    forall i, i < j -> candidate (lower (feature_type_value (feature_type node))) i ∈ used.
Proof.
  destruct (get_variable_name_returns node used) as (v & Hrun).
  unfold get_variable_name in *.
  destruct (unique_name _ _ _ _ _) as [w|] eqn:Hw; [|done].
  cbn [mbind result_bind bind] in *. injection Hrun as <-.
  apply (unique_name_first_free _ _ _ 0) in Hw as (j & -> & _ & Hfresh & Hbelow).
  exists j. split; [done|]. split; [done|]. intros i Hi. apply Hbelow. lia.
Qed.

(** [_get_variable_name] returns the first name that is not in use of the
    sequence [box], [box_1], [box_2], ... for the type of the node, and
    marks it as used. *)
Theorem get_variable_name_first_free (node : FeatureNode) (used : gset string) :
  exists j,
    get_variable_name node used
    = Ok (candidate (lower (feature_type_value (feature_type node))) j,
          used ∪ {[candidate (lower (feature_type_value (feature_type node))) j]}) /\
    candidate (lower (feature_type_value (feature_type node))) j ∉ used /\
    forall i, i < j -> candidate (lower (feature_type_value (feature_type node))) i ∈ used.
Proof. apply get_variable_name_spec. Qed.

(** The variables given out so far: each is marked as used, none is one
    of the names [reserved] before the first node, and no two nodes share
    one. *)
Record distinct_names (reserved : gset string) (st : Names) : Prop := mk_distinct_names {
  dn_reserved : reserved ⊆ used_variables st;
  dn_used : forall k v, variables st !! k = Some v -> v ∈ used_variables st /\ v ∉ reserved;
  dn_inj : forall a b v, variables st !! a = Some v -> variables st !! b = Some v -> a = b
}.

Lemma distinct_names_fresh (reserved : gset string) (st : Names) (k v : string) :
  distinct_names reserved st -> v ∉ used_variables st ->
  distinct_names reserved (mkNames (used_variables st ∪ {[v]}) (<[k := v]> (variables st))).
Proof.
  intros [Hres Hused Hinj] Hfresh. split; cbn [used_variables variables].
  - set_solver.
  - intros k' v' Hk'. destruct (decide (k = k')) as [->|Hne].
    + rewrite lookup_insert_eq in Hk'. injection Hk' as <-. set_solver.
    + rewrite lookup_insert_ne in Hk' by done. destruct (Hused k' v' Hk'). set_solver.
  - intros a b w Ha Hb.
    destruct (decide (a = k)) as [->|Hna]; destruct (decide (b = k)) as [->|Hnb]; [done| | |].
    + rewrite lookup_insert_eq in Ha. injection Ha as <-.
      rewrite lookup_insert_ne in Hb by done. destruct (Hused b v Hb). done.
    + rewrite lookup_insert_eq in Hb. injection Hb as <-.
      rewrite lookup_insert_ne in Ha by done. destruct (Hused a v Ha). done.
    + rewrite lookup_insert_ne in Ha, Hb by done. by eapply Hinj.
Qed.

Lemma generate_node_code_distinct reserved node st t names line :
  generate_node_code node st t = Ok (names, line) ->
  distinct_names reserved st -> distinct_names reserved names.
Proof.
  unfold generate_node_code, assigned_variable. intros Hrun Hst.
  destruct (get_variable_name_spec node (used_variables st)) as (j & Hname & Hfresh & _).
  destruct (variables st !! id node) as [v|] eqn:Hv.
  - case_bool_decide as Hempty.
    + rewrite Hname in Hrun. cbn [mbind result_bind bind fst snd] in Hrun.
      injection Hrun as <- _. by apply distinct_names_fresh.
    + cbn [mbind result_bind bind fst snd] in Hrun. by injection Hrun as <- _.
  - rewrite Hname in Hrun. cbn [mbind result_bind bind fst snd] in Hrun.
    injection Hrun as <- _. by apply distinct_names_fresh.
Qed.

Lemma generate_node_distinct reserved t st node_id st' :
  generate_node t st node_id = Ok st' ->
  distinct_names reserved st.2 -> distinct_names reserved st'.2.
Proof.
  unfold generate_node. intros Hrun Hst.
  destruct (Dict.get node_id (nodes t)) as [node|]; [|by injection Hrun as <-].
  destruct (_ && _); [by injection Hrun as <-|].
  destruct (get_variable_name_spec node (used_variables st.2)) as (j & Hname & Hfresh & _).
  rewrite Hname in Hrun. cbn [mbind result_bind bind fst snd] in Hrun.
  destruct (generate_node_code _ _ _) as [[names line]|] eqn:Hcode; [|done].
  cbn [bind fst snd] in Hrun.
  apply (generate_node_code_distinct reserved) in Hcode; [|by apply distinct_names_fresh].
  destruct line as [code_line|e].
  - by injection Hrun as <-.
  - destruct e; first [done | by injection Hrun as <-].
Qed.

(** The variables of a generated script are distinct: whatever the order
    in which the nodes are generated, two nodes never share a variable,
    and no node takes a name that was reserved for a parameter. *)
Theorem generated_variables_distinct (t : FeatureTree) (order : list string)
    (code_lines code_lines' : list string) (reserved : gset string) (names : Names) :
  for_each (generate_node t) order (code_lines, mkNames reserved ∅) = Ok (code_lines', names) ->
  (forall a v, variables names !! a = Some v -> v ∉ reserved) /\
  (forall a b v, variables names !! a = Some v -> variables names !! b = Some v -> a = b).
Proof.
  intros Hrun.
  assert (distinct_names reserved (mkNames reserved ∅)) as Hstart.
  { split; cbn [used_variables variables]; [done| |]; intros *; by rewrite lookup_empty. }
  assert (forall st st', for_each (generate_node t) order st = Ok st' ->
            distinct_names reserved st.2 -> distinct_names reserved st'.2) as Hloop.
  { clear Hrun. induction order as [|node_id order IH]; intros st st' Hloop Hst.
    - by injection Hloop as <-.
    - cbn [for_each] in Hloop.
      destruct (generate_node t st node_id) as [st1|] eqn:Hstep; [|done].
      cbn [bind] in Hloop. apply (IH st1 st' Hloop). by eapply generate_node_distinct. }
  destruct (Hloop _ _ Hrun Hstart) as [_ Hused Hinj]. cbn [snd] in *.
  split; [|done]. intros a v Ha. by destruct (Hused a v Ha).
Qed.

Lemma generated_variables_distinct_witness :
  exists code_lines' names,
    for_each (generate_node diamond_tree) ["wp"; "b2"; "b1"; "u"] ([], mkNames {["box"]} ∅)
    = Ok (code_lines', names) /\
    (forall a v, variables names !! a = Some v -> v ∉ ({["box"]} : gset string)) /\
    (forall a b v, variables names !! a = Some v -> variables names !! b = Some v -> a = b).
Proof.
  eexists _, _. split; [vm_compute; reflexivity|].
  eapply (generated_variables_distinct diamond_tree ["wp"; "b2"; "b1"; "u"] [] _ {["box"]}).
  vm_compute. reflexivity.
Defined.

(** ** Patching twice, and patching a name the script does not assign *)

Lemma join_cons_char (sep : string) (a : ascii) (line : string) (lines : list string) :
  join sep (String a line :: lines) = String a (join sep (line :: lines)).
Proof. by destruct lines. Qed.

(** ['\n'.join(s.split('\n')) == s] *)
Lemma join_split_lines (s : string) : join newline (split_lines s) = s.
Proof.
  induction s as [|a s IH]; [done|]. cbn [split_lines].
  destruct (is_newline a) eqn:Ha.
  - apply Ascii.eqb_eq in Ha as ->.
    pose proof (split_lines_nonempty s) as Hne.
    destruct (split_lines s) as [|line lines]; [done|].
    change (join newline ("" :: line :: lines)) with (newline +:+ join newline (line :: lines)).
    by rewrite IH.
  - pose proof (split_lines_nonempty s) as Hne.
    destruct (split_lines s) as [|line lines]; [done|].
    by rewrite join_cons_char, IH.
Qed.

(** The lines of a patched script. *)
Lemma patch_lines (code name : string) (new_value : pyval) :
  one_line (value_text new_value) = true ->
  split_lines (patch code name new_value) = map (rewritten name new_value) (split_lines code).
Proof.
  intros Hvalue. unfold patch, update_parameter_in_code.
  rewrite updated_lines_rewritten. cbn [app]. apply split_lines_join.
  - pose proof (split_lines_nonempty code). by destruct (split_lines code).
  - apply Forall_forall. intros line' Hin.
    change (map ?f ?l) with (f <$> l) in Hin.
    apply list_elem_of_fmap in Hin as (line & -> & Hline).
    pose proof (split_lines_one_line code) as Hall.
    rewrite Forall_forall in Hall. specialize (Hall line Hline).
    unfold rewritten.
    destruct (match_assignment name line) as [indent|] eqn:Hmatch; [|done].
    apply match_assignment_cut in Hmatch as [_ [rest ->]].
    rewrite !one_line_append in Hall |- *.
    apply andb_true_iff in Hall as [Hindent Hall].
    apply andb_true_iff in Hall as [Hname _].
    rewrite Hindent, Hname. apply Hvalue.
Qed.

Lemma strip_prefix_append (pre rest : string) : strip_prefix pre (pre +:+ rest) = Some rest.
Proof.
  induction pre as [|a pre IH]; [by destruct rest|].
  rewrite append_cons. cbn [strip_prefix]. by rewrite Ascii.eqb_refl.
Qed.

(** A name as the patcher expects it: it does not start with white space. *)
Definition starts_plain (name : string) : Prop :=
  match name with
  | String a _ => PyRead.is_space a = false
  | EmptyString => False
  end.

Lemma match_assignment_built (name rest indent : string) :
  starts_plain name -> assigns rest = true -> all_space indent = true ->
  match_assignment name (indent +:+ name +:+ rest) = Some indent.
Proof.
  intros Hname Hrest. induction indent as [|a indent IH]; intros Hindent.
  - change ("" +:+ name +:+ rest) with (name +:+ rest).
    destruct name as [|c name']; [done|]. cbn [starts_plain] in Hname.
    rewrite append_cons. cbn [match_assignment]. rewrite Hname.
    rewrite <- append_cons. by rewrite strip_prefix_append, Hrest.
  - cbn [all_space] in Hindent. apply andb_true_iff in Hindent as [Ha Hindent].
    rewrite append_cons. cbn [match_assignment]. by rewrite Ha, IH.
Qed.

Lemma assigns_value (text : string) : assigns (" = " +:+ text) = true.
Proof. reflexivity. Qed.

Lemma rewritten_twice (name : string) (v1 v2 : pyval) (line : string) :
  starts_plain name ->
  rewritten name v2 (rewritten name v1 line) = rewritten name v2 line.
Proof.
  intros Hname. unfold rewritten at 2 3.
  destruct (match_assignment name line) as [indent|] eqn:Hmatch.
  - apply match_assignment_cut in Hmatch as [Hspace _].
    unfold rewritten. rewrite match_assignment_built; [done..|apply assigns_value|done].
  - unfold rewritten. by rewrite Hmatch.
Qed.

(** Of two patches of the same variable the later one wins: patching with
    one value and then with another gives the script that the second patch
    alone gives; in particular patching twice with the same value changes
    nothing more.  (The name starts with a character that is not white
    space, and the text of the first value has no line break.) *)
Theorem patch_last_wins (code source_name : string) (v1 v2 : pyval) :
  starts_plain source_name ->
  one_line (value_text v1) = true ->
  patch (patch code source_name v1) source_name v2 = patch code source_name v2.
Proof.
  intros Hname Hvalue.
  unfold patch at 1 3, update_parameter_in_code.
  rewrite !updated_lines_rewritten. cbn [app]. f_equal.
  rewrite patch_lines by done. rewrite map_map.
  apply map_ext. intros line. by apply rewritten_twice.
Qed.

Lemma patch_last_wins_witness :
  patch (patch keyword_line_script "width" (VInt 20)) "width" (VStr "wide")
  = patch keyword_line_script "width" (VStr "wide").
Proof. apply patch_last_wins; reflexivity. Defined.

(** Patching a variable that no line of the script assigns gives the
    script back, byte for byte, and reports nothing. *)
Theorem patch_without_match (code source_name : string) (new_value : pyval) :
  (forall line, line ∈ split_lines code -> match_assignment source_name line = None) ->
  patch code source_name new_value = code.
Proof.
  intros Hnone. unfold patch, update_parameter_in_code.
  rewrite updated_lines_rewritten. cbn [app].
  rewrite <- (join_split_lines code) at 2. f_equal.
  rewrite <- (map_id (split_lines code)) at 2.
  apply map_ext_in. intros line Hin. unfold rewritten.
  rewrite Hnone; [done|]. by apply list_elem_of_In.
Qed.

Lemma patch_without_match_witness :
  patch keyword_line_script "height" (VInt 3) = keyword_line_script.
Proof.
  apply patch_without_match. intros line Hin%list_elem_of_In. cbv in Hin.
  repeat (destruct Hin as [<-|Hin]); try done; reflexivity.
Defined.

(** ** The extractor ([cadam_style_parameter_extractor.py])

    The functions that decide which lines of a script hold parameters and
    how a parameter is typed; the value itself is read by
    [ast.literal_eval]. *)

(** [s.strip()] for a string. *)
Definition strip_string (s : string) : string :=
  string_of_list_ascii (PyRead.strip (list_ascii_of_string s)).







(** The first test of the loop of [_extract_parameter_section]: empty
    lines, comments and imports are passed over. *)
Definition passed_over (stripped : string) : bool :=
  bool_decide (stripped = "") || startswith stripped "#"
  || startswith stripped "import " || startswith stripped "from ".

(** The second test: the line at which the parameter section ends. *)
Definition ends_section (stripped : string) : bool :=
  startswith stripped "def " || startswith stripped "class "
  || is_substring "cq.Workplane" stripped
  || is_substring ".extrude(" stripped
  || is_substring ".circle(" stripped.

(** [CADAMStyleParameterExtractor._extract_parameter_section] *)
Fixpoint extract_parameter_section (lines : list string) : list string :=
  match lines with
  | [] => []
  | line :: rest =>
      let stripped := strip_string line in
      if passed_over stripped then extract_parameter_section rest
      else if ends_section stripped then []
      else line :: extract_parameter_section rest
  end.

(** [re.match('.*word.*', s)]: the word occurs before the first line
    break of [s]. *)
Definition mentions (word s : string) : bool :=
  is_substring word (default "" (head (split_lines s))).

(** [self.type_patterns], in the order in which the dictionary is
    written and iterated. *)
Definition type_patterns : list (ParameterType * list string) :=
  [(FLOAT, ["radius"; "diameter"; "width"; "height"; "thickness"; "depth"; "length";
            "size"; "distance"; "offset"; "spacing"]);
   (INTEGER, ["count"; "number"; "quantity"; "steps"]);
   (ANGLE, ["angle"; "rotation"; "degrees"]);
   (LENGTH, ["radius"; "diameter"; "width"; "height"; "thickness"; "depth"; "length"])].

(** [CADAMStyleParameterExtractor._determine_parameter_type] *)
Definition determine_parameter_type (var_name : string) (value : pyval) : ParameterType :=
  let var_name_lower := lower var_name in
  match List.find (fun entry => existsb (fun word => mentions word var_name_lower) entry.2)
          type_patterns with
  | Some entry => entry.1
  | None =>
      match value with
      | VBool _ => BOOLEAN
      | VInt _ => INTEGER
      | VFloat _ => FLOAT
      | VList l => if decide (length l = 3) then VECTOR3D else POINT3D
      | _ => STRING
      end
  end.

(** ** What the extractor finds, the patcher can change *)

















Definition plate_script : string :=
  join newline ["# a plate"; "  plate_width = 10"; "depth=4 "; "plate = cq.Workplane('XY')";
                "hole_radius = 2"].


(** The section ends at the first line that builds geometry: a parameter
    assigned after it is not extracted. *)
Example section_ends_at_workplane :
  extract_parameter_section (split_lines plate_script) = ["  plate_width = 10"; "depth=4 "].
Proof. vm_compute. reflexivity. Qed.

(** The type [LENGTH] is never assigned: every word that would select it
    selects [FLOAT] first. *)
Theorem determine_parameter_type_never_length (var_name : string) (value : pyval) :
  determine_parameter_type var_name value <> LENGTH.
Proof.
  unfold determine_parameter_type, type_patterns. cbn [List.find existsb snd fst].
  destruct (mentions "radius" _); [done|].
  destruct (mentions "diameter" _); [done|].
  destruct (mentions "width" _); [done|].
  destruct (mentions "height" _); [done|].
  destruct (mentions "thickness" _); [done|].
  destruct (mentions "depth" _); [done|].
  destruct (mentions "length" _); [done|].
  cbn [orb].
  destruct (mentions "size" _ || _); [done|].
  destruct (mentions "count" _ || _); [done|].
  destruct (mentions "angle" _ || _); [done|].
  destruct value; try done. by destruct (decide _).
Qed.

(** ** The tree the parser builds *)

Section parsed.

Variable arith : operator -> pyval -> pyval -> result pyval.
Variable uuid4 : nat -> string.
Hypothesis uuid4_inj : Inj (=) (=) uuid4.

(** The tree of a parser between two steps: it passes [validate_tree], its
    regeneration order is the order of its nodes, and its nodes carry
    identifiers drawn so far. *)
Record well_built (p : Parser) : Prop := mk_well_built {
  wb_nodup : NoDup (Dict.keys (nodes (current_tree p)));
  wb_valid : validate_tree (current_tree p) = Ok [];
  wb_order : regeneration_order (current_tree p) = Dict.keys (nodes (current_tree p));
  wb_drawn : forall k, k ∈ Dict.keys (nodes (current_tree p)) ->
                       exists i, i < drawn p /\ k = uuid4 i
}.

Lemma process_call_well_built (var_name : string) (st : Parser * option string)
    (indexed : nat * CallInfo) :
  well_built st.1 ->
  (forall pid, st.2 = Some pid -> truthy_id st.2 = true ->
               pid ∈ Dict.keys (nodes (current_tree st.1))) ->
  well_built (process_call uuid4 var_name st indexed).1 /\
  (forall pid, (process_call uuid4 var_name st indexed).2 = Some pid ->
               truthy_id (process_call uuid4 var_name st indexed).2 = true ->
               pid ∈ Dict.keys (nodes (current_tree (process_call uuid4 var_name st indexed).1))).
Proof.
  intros [Hnodup Hvalid Horder Hdrawn] Hparent. unfold process_call.
  destruct (Dict.contains _ _); [|done].
  unfold create_feature_node_from_call. cbv zeta.
  match goal with
  | |- context [add_node ?n _ _] => set (node := n)
  end.
  assert (id node = uuid4 (drawn st.1)) as Hid.
  { subst node. by destruct (truthy_id st.2). }
  assert (forall r, r ∈ refs node -> r ∈ Dict.keys (nodes (current_tree st.1))) as Hrefs.
  { subst node. destruct st as [p [pid|]]; cbn [fst snd truthy_id] in *.
    - destruct (negb (bool_decide (pid = ""))) eqn:Hpid.
      + intros r Hr. cbn in Hr. apply list_elem_of_singleton in Hr as ->. by apply Hparent.
      + by intros r Hr%elem_of_nil.
    - by intros r Hr%elem_of_nil. }
  assert (id node ∉ Dict.keys (nodes (current_tree st.1))) as Hfresh.
  { intros Hin. destruct (Hdrawn _ Hin) as (i & Hlt & Heq).
    rewrite Hid in Heq. apply uuid4_inj in Heq. lia. }
  cbn [fst snd current_tree drawn].
  destruct (add_node_valid node st.2 (current_tree st.1) Hnodup Hvalid Hfresh Hrefs)
    as [Hnodup1 Hvalid1].
  assert (Dict.keys (nodes (add_node node st.2 (current_tree st.1)))
          = Dict.keys (nodes (current_tree st.1)) ++ [id node]) as Hkeys.
  { rewrite add_node_keys, keys_set. by rewrite decide_False. }
  split.
  - split; cbn [current_tree drawn]; [done | done | |].
    + rewrite Hkeys. unfold add_node. cbn [regeneration_order set_structure].
      by rewrite Horder.
    + intros k Hk. rewrite Hkeys in Hk. apply elem_of_app in Hk as [Hk|Hk].
      * destruct (Hdrawn k Hk) as (i & Hlt & ->). exists i. split; [lia|done].
      * apply list_elem_of_singleton in Hk as ->. exists (drawn st.1). split; [lia|done].
  - intros pid [= <-] _. rewrite Hkeys. apply elem_of_app. right. left.
Qed.

Lemma process_method_chain_well_built (p : Parser) (chain_info : ChainInfo) :
  well_built p -> well_built (process_method_chain uuid4 p chain_info).
Proof.
  intros Hp. unfold process_method_chain.
  assert (forall calls (st : Parser * option string),
            well_built st.1 ->
            (forall pid, st.2 = Some pid -> truthy_id st.2 = true ->
                         pid ∈ Dict.keys (nodes (current_tree st.1))) ->
            well_built (foldl (process_call uuid4 (chain_variable chain_info)) st calls).1)
    as Hloop.
  { induction calls as [|call calls IH]; intros st Hst Hparent; [done|].
    cbn [foldl].
    destruct (process_call_well_built (chain_variable chain_info) st call Hst Hparent).
    by apply IH. }
  apply Hloop; [done|]. by intros pid [=].
Qed.

Lemma standalone_calls_tree (calls : list CallInfo) : forall p,
  current_tree
    (foldl (fun p call =>
              if Dict.contains (call_function call) METHOD_TO_FEATURE
              then (create_feature_node_from_call uuid4 call None 0 p).2
              else p) p calls) = current_tree p /\
  drawn p <= drawn
    (foldl (fun p call =>
              if Dict.contains (call_function call) METHOD_TO_FEATURE
              then (create_feature_node_from_call uuid4 call None 0 p).2
              else p) p calls).
Proof.
  induction calls as [|call calls IH]; intros p; [done|]. cbn [foldl].
  destruct (Dict.contains _ _); [|apply IH].
  destruct (IH (create_feature_node_from_call uuid4 call None 0 p).2) as [Htree Hdrawn].
  split; [by rewrite Htree|].
  assert (drawn (create_feature_node_from_call uuid4 call None 0 p).2 = S (drawn p)) as Hone
    by reflexivity.
  lia.
Qed.

Lemma resolved_edges (f : FeatureNode -> FeatureNode) (t t' : FeatureTree) :
  (forall n, parent_references (f n) = parent_references n) ->
  nodes t' = Dict.map_values f (nodes t) ->
  forall a b, parent_edge t' a b <-> parent_edge t a b.
Proof.
  intros Hf Hnodes a b. unfold parent_edge. rewrite Hnodes. split.
  - intros (n' & Hn' & Hb). rewrite get_map_values in Hn'.
    destruct (Dict.get a (nodes t)) as [n|]; [|done]. injection Hn' as <-.
    exists n. split; [done|]. unfold refs in *. by rewrite Hf in Hb.
  - intros (n & Hn & Hb). exists (f n). rewrite get_map_values, Hn. split; [done|].
    unfold refs in *. by rewrite Hf.
Qed.

Lemma resolve_parameter_variables_well_built (p : Parser) :
  well_built p -> well_built (resolve_parameter_variables p).
Proof.
  intros [Hnodup Hvalid Horder Hdrawn].
  set (f := fun n => set_parameters n (map (resolve_parameter (variable_tracker p))
                                          (parameters n))).
  assert (forall a b, parent_edge (current_tree (resolve_parameter_variables p)) a b
                      <-> parent_edge (current_tree p) a b) as Hedges.
  { by apply (resolved_edges f). }
  assert (Dict.keys (nodes (current_tree (resolve_parameter_variables p)))
          = Dict.keys (nodes (current_tree p))) as Hkeys.
  { unfold resolve_parameter_variables. cbn [current_tree nodes set_structure].
    apply keys_map_values. }
  split.
  - by rewrite Hkeys.
  - apply validate_tree_nil in Hvalid as (Hacyclic & Hpresent & Hord); [|done].
    apply validate_tree_nil; [by rewrite Hkeys|]. split; [|split].
    + intros x Hx. apply (Hacyclic x).
      by apply (tc_iff _ _ x x Hedges).
    + intros a b Hab. rewrite Hkeys. apply (Hpresent a b). by apply Hedges.
    + intros k. rewrite Hkeys. apply Hord.
  - by rewrite Hkeys.
  - intros k Hk. rewrite Hkeys in Hk. by apply Hdrawn.
Qed.

Lemma extract_features_well_built (analysis : CodeAnalysis) (p : Parser) :
  well_built p -> well_built (extract_features_from_analysis arith uuid4 analysis p).
Proof.
  intros Hp. unfold extract_features_from_analysis. cbv zeta.
  apply resolve_parameter_variables_well_built.
  set (p1 := mkParser _ _ _ _).
  assert (well_built p1) as Hp1 by (by destruct Hp).
  assert (well_built (foldl (process_method_chain uuid4) p1 (method_chains analysis))) as Hp2.
  { generalize dependent p1. clear Hp.
    induction (method_chains analysis) as [|chain_info chains IH]; intros p1 Hp1; [done|].
    cbn [foldl]. apply IH. by apply process_method_chain_well_built. }
  destruct (standalone_calls_tree (function_calls analysis)
              (foldl (process_method_chain uuid4) p1 (method_chains analysis)))
    as [Htree Hdrawn].
  destruct Hp2 as [Hnodup Hvalid Horder Hdrawn2].
  split; rewrite ?Htree; [done..|].
  intros k Hk. destruct (Hdrawn2 k Hk) as (i & Hlt & ->). exists i. split; [lia|done].
Qed.

(** Whatever script it is given, the parser builds a tree that passes
    [validate_tree]: the nodes have distinct identifiers, no node reaches
    itself through parent references, every parent reference names a node
    of the tree, and the regeneration order is the order of the nodes.
    (The identifiers [uuid4] hands out are distinct.) *)
Theorem parsed_tree_is_valid (code : string) (tree : ast) (project user_id : string)
    (t : FeatureTree) :
  parse_code_to_tree arith uuid4 code tree project user_id = Ok t ->
  NoDup (Dict.keys (nodes t)) /\
  validate_tree t = Ok [] /\
  regeneration_order t = Dict.keys (nodes t).
Proof.
  intros Hrun. unfold parse_code_to_tree in Hrun.
  apply bind_Ok in Hrun as (p & Hp & [= <-]).
  unfold run_parser in Hp. cbv zeta in Hp.
  set (p0 := mkParser _ ∅ 0 1) in Hp.
  assert (well_built p0) as Hstart.
  { split; cbn [p0 current_tree nodes regeneration_order drawn Dict.keys map].
    - constructor.
    - apply validate_tree_nil; [constructor|]. split; [|split].
      + intros x Hx. apply tc_last in Hx as (y & _ & n & Hn & _). done.
      + intros a b (n & Hn & _). done.
      + done.
    - done.
    - by intros k Hk%elem_of_nil. }
  destruct (analyze_ast _ _ _) as [analysis|e]; [|by destruct e].
  destruct (extract_features_well_built analysis p0 Hstart) as [Hnodup Hvalid Horder _].
  injection Hp as <-.
  change (current_tree (mkParser ?a _ _ _)) with a.
  split; [done|]. split; [|done].
  apply validate_tree_nil in Hvalid as (Hacyclic & Hpresent & Hord); [|done].
  by apply validate_tree_nil.
Qed.

Lemma analyze_nodes_assignments (tracker : gmap string pyval) (visited : list ast) :
  forall analysis analysis',
    for_each (analyze_node arith tracker) visited analysis = Ok analysis' ->
    forall assignment, assignment ∈ assignments analysis' ->
      assignment ∈ assignments analysis \/
      AAssign [AName (assignment_variable assignment)] (assignment_value assignment)
        (assignment_lineno assignment) ∈ visited.
Proof.
  induction visited as [|node visited IH]; intros analysis analysis' Hrun assignment Hin.
  - injection Hrun as <-. by left.
  - cbn [for_each] in Hrun.
    destruct (analyze_node arith tracker analysis node) as [analysis1|] eqn:Hnode; [|done].
    cbn [bind] in Hrun. destruct (IH _ _ Hrun assignment Hin) as [Hold|Hnew].
    + assert (assignment ∈ assignments analysis \/
              node = AAssign [AName (assignment_variable assignment)]
                       (assignment_value assignment) (assignment_lineno assignment))
        as [?| ->]; [|by left|right; left].
      unfold analyze_node in Hnode.
      destruct node as [| | |targets value lineno| | | | | | | |func args keywords lineno| |];
        try (injection Hnode as <-; by left).
      * destruct targets as [|target targets]; [injection Hnode as <-; by left|].
        destruct target; try (injection Hnode as <-; by left).
        destruct targets; [|injection Hnode as <-; by left].
        injection Hnode as <-. cbn [assignments] in Hold.
        apply elem_of_app in Hold as [?|Hlast]; [by left|].
        apply list_elem_of_singleton in Hlast as ->. by right.
      * destruct (extract_call_info _ _ _ _ _ _) as [call_info|]; [|done].
        cbn [mbind result_bind bind] in Hnode. injection Hnode as <-. by left.
    + right. by right.
Qed.

Lemma extract_features_no_chain (analysis : CodeAnalysis) (p : Parser) :
  method_chains analysis = [] -> nodes (current_tree p) = [] ->
  nodes (current_tree (extract_features_from_analysis arith uuid4 analysis p)) = [] /\
  regeneration_order (current_tree (extract_features_from_analysis arith uuid4 analysis p))
  = regeneration_order (current_tree p) /\
  root_node_id (current_tree (extract_features_from_analysis arith uuid4 analysis p))
  = root_node_id (current_tree p).
Proof.
  intros Hchains Hnodes. unfold extract_features_from_analysis. cbv zeta. rewrite Hchains.
  change (foldl (process_method_chain uuid4) ?p []) with p.
  match goal with
  | |- context [foldl ?f ?p (function_calls analysis)] =>
      destruct (standalone_calls_tree (function_calls analysis) p) as [Htree _]
  end.
  unfold resolve_parameter_variables. cbv zeta. rewrite !Htree.
  cbn [current_tree nodes regeneration_order root_node_id set_structure]. by rewrite Hnodes.
Qed.

(** A call that the script does not assign to a single variable leaves
    no node: when no assignment of the script has a name as its only
    target and a call as its value, the parsed tree is empty, however many
    calls of CadQuery methods the script makes. *)
Theorem unassigned_calls_leave_no_node (code : string) (tree : ast) (project user_id : string)
    (t : FeatureTree) :
  (forall visited, walk tree = Ok visited ->
     forall var_name func args keywords lineno lineno',
       AAssign [AName var_name] (ACall func args keywords lineno) lineno' ∉ visited) ->
  parse_code_to_tree arith uuid4 code tree project user_id = Ok t ->
  nodes t = [] /\ regeneration_order t = [] /\ root_node_id t = None.
Proof.
  intros Hnone Hrun. unfold parse_code_to_tree in Hrun.
  apply bind_Ok in Hrun as (p & Hp & [= <-]).
  unfold run_parser in Hp. cbv zeta in Hp.
  set (p0 := mkParser _ ∅ 0 1) in Hp.
  destruct (analyze_ast _ _ _) as [analysis|e] eqn:Hanalysis; [|by destruct e].
  injection Hp as <-.
  assert (method_chains analysis = []) as Hchains.
  { unfold analyze_ast in Hanalysis.
    apply bind_Ok in Hanalysis as (visited & Hwalk & Hanalysis).
    apply bind_Ok in Hanalysis as (analysis1 & Hnodes & Hanalysis).
    apply bind_Ok in Hanalysis as (chains & Hloop & [= <-]). cbn [method_chains].
    assert (forall assignment, assignment ∈ assignments analysis1 ->
              forall func args keywords lineno,
                assignment_value assignment <> ACall func args keywords lineno) as Hplain.
    { intros assignment Hin func args keywords lineno Hcall.
      destruct (analyze_nodes_assignments _ _ _ _ Hnodes assignment Hin) as [Hold|Hnew].
      - by apply elem_of_nil in Hold.
      - rewrite Hcall in Hnew. by apply (Hnone visited Hwalk) in Hnew. }
    match type of Hloop with
    | for_each ?body _ _ = _ =>
        assert (forall assigned start found,
                  (forall a, a ∈ assigned -> forall func args keywords lineno,
                     assignment_value a <> ACall func args keywords lineno) ->
                  for_each body assigned start = Ok found -> found = start) as Hgen
    end.
    { induction assigned as [|assignment assigned IH]; intros start found Hall Hfound.
      - by injection Hfound as <-.
      - cbn [for_each] in Hfound.
        destruct (assignment_value assignment) eqn:Hvalue;
          try (cbn [bind] in Hfound; apply (IH _ _ (fun a Ha => Hall a (list_elem_of_further _ _ _ Ha)) Hfound)).
        exfalso. eapply (Hall assignment); [left|done]. }
    by apply (Hgen _ _ _ Hplain Hloop). }
  destruct (extract_features_no_chain analysis p0 Hchains eq_refl) as (Hn & Ho & Hr).
  split; [exact Hn|]. split; [exact Ho|exact Hr].
Qed.

End parsed.

Lemma numbered_ids_inj : Inj (=) (=) numbered_ids.
Proof.
  intros i j Heq. unfold numbered_ids in Heq.
  apply (inj (String.append "id-")) in Heq. by apply (inj pretty) in Heq.
Qed.

Lemma parsed_tree_is_valid_witness :
  exists t,
    parse_code_to_tree (fun _ _ _ => Ok VNone) numbered_ids cylinder_script cylinder_ast
      "project" "user" = Ok t /\
    NoDup (Dict.keys (nodes t)) /\
    validate_tree t = Ok [] /\
    regeneration_order t = Dict.keys (nodes t).
Proof.
  eexists. split; [vm_compute; reflexivity|].
  apply (parsed_tree_is_valid (fun _ _ _ => Ok VNone) numbered_ids numbered_ids_inj
           cylinder_script cylinder_ast "project" "user").
  vm_compute. reflexivity.
Defined.

Definition shown_box_ast : ast :=
  AModule
    [AExpr (ACall (AName "show")
              [ACall (AAttribute (ACall (AAttribute (AName "cq") "Workplane") [] [] 1) "box")
                 [AConstant (VInt 1); AConstant (VInt 2); AConstant (VInt 3)] [] 1]
              [] 1)].

Lemma unassigned_calls_leave_no_node_witness :
  exists t,
    parse_code_to_tree (fun _ _ _ => Ok VNone) numbered_ids "show(cq.Workplane().box(1, 2, 3))"
      shown_box_ast "project" "user" = Ok t /\
    nodes t = [] /\ regeneration_order t = [] /\ root_node_id t = None.
Proof.
  eexists. split; [vm_compute; reflexivity|].
  apply (unassigned_calls_leave_no_node (fun _ _ _ => Ok VNone) numbered_ids
           "show(cq.Workplane().box(1, 2, 3))" shown_box_ast "project" "user").
  - intros visited Hwalk. vm_compute in Hwalk. injection Hwalk as <-.
    intros var_name func args keywords lineno lineno' Hin%list_elem_of_In.
    cbv in Hin. repeat (destruct Hin as [Hin|Hin]; [discriminate|]). done.
  - vm_compute. reflexivity.
Defined.

(** ** The variables the parser tracks *)

Section tracked.

Variable arith : operator -> pyval -> pyval -> result pyval.

Lemma track_expression_keeps (last_pass : bool) (st : gmap string pyval * bool)
    (assignment : Assignment) (k : string) (v : pyval) :
  st.1 !! k = Some v -> (track_expression arith last_pass st assignment).1 !! k = Some v.
Proof.
  intros Hk. unfold track_expression. cbv zeta.
  destruct (st.1 !! assignment_variable assignment) eqn:Hvar; [done|].
  assert (assignment_variable assignment <> k) as Hne
    by (intros Heq; rewrite Heq in Hvar; congruence).
  assert (forall (x : pyval) (b : bool),
            (<[assignment_variable assignment := x]> st.1, b).1 !! k = Some v) as Hinsert.
  { intros x b. cbn [fst]. by rewrite lookup_insert_ne. }
  assert ((if last_pass
           then (<[assignment_variable assignment := VFloat PrimFloat.one]> st.1, st.2)
           else st).1 !! k = Some v) as Hdefault.
  { destruct last_pass; [apply Hinsert|done]. }
  repeat case_match; first [done | apply Hinsert].
Qed.

Lemma track_passes_keeps (remaining : nat) (assigned : list Assignment) (k : string)
    (v : pyval) : forall tracker,
  tracker !! k = Some v -> track_passes arith remaining assigned tracker !! k = Some v.
Proof.
  induction remaining as [|remaining IH]; intros tracker Hk; [done|].
  cbn [track_passes].
  assert (forall l (st : gmap string pyval * bool), st.1 !! k = Some v ->
            (foldl (track_expression arith (bool_decide (remaining = 0))) st l).1 !! k = Some v)
    as Hpass.
  { induction l as [|a l IHl]; intros st Hst; [done|].
    cbn [foldl]. apply IHl. by apply track_expression_keeps. }
  specialize (Hpass assigned (tracker, false) Hk).
  destruct (foldl _ _ _) as [tracker' resolved_any]. cbn [fst snd] in *.
  destruct resolved_any; [by apply IH|done].
Qed.

Lemma track_literals_app (l1 l2 : list Assignment) (tracker : gmap string pyval) :
  track_literals (l1 ++ l2) tracker = track_literals l2 (track_literals l1 tracker).
Proof. unfold track_literals. by rewrite foldl_app. Qed.

Lemma track_literals_keeps (assigned : list Assignment) (k : string) (v : pyval) :
  forall tracker,
    (forall a, a ∈ assigned -> assignment_variable a = k ->
               forall c, assignment_value a <> AConstant c) ->
    tracker !! k = Some v -> track_literals assigned tracker !! k = Some v.
Proof.
  induction assigned as [|a assigned IH]; intros tracker Hlater Hk; [done|].
  unfold track_literals. cbn [foldl]. apply IH.
  - intros a' Ha'. apply Hlater. by right.
  - destruct (assignment_value a) eqn:Hvalue; try done.
    destruct (decide (assignment_variable a = k)) as [Heq|Hne].
    + exfalso. eapply (Hlater a); [left|done|done].
    + by rewrite lookup_insert_ne.
Qed.

(** A variable that the script assigns a constant is tracked with the
    constant of the last such assignment: what the script assigns to it
    otherwise, a computed value or a chain of calls, does not replace it
    while the table is built. *)
Theorem literal_assignment_is_tracked (analysis : CodeAnalysis) (tracker : gmap string pyval)
    (before after : list Assignment) (var_name : string) (value : pyval) (lineno : Z) :
  assignments analysis = before ++ mkAssignment var_name (AConstant value) lineno :: after ->
  (forall a, a ∈ after -> assignment_variable a = var_name ->
             forall c, assignment_value a <> AConstant c) ->
  build_variable_tracker arith analysis tracker !! var_name = Some value.
Proof.
  intros Hassigned Hlater. unfold build_variable_tracker. rewrite Hassigned.
  apply track_passes_keeps.
  rewrite track_literals_app.
  change (track_literals (?a :: after) ?t)
    with (track_literals after (track_literals [a] t)).
  apply track_literals_keeps; [done|].
  unfold track_literals. cbn [foldl assignment_value assignment_variable].
  apply lookup_insert_eq.
Qed.

End tracked.

Lemma literal_assignment_is_tracked_witness :
  build_variable_tracker (fun _ _ _ => Ok VNone)
    (mkCodeAnalysis [] []
       [mkAssignment "width" (AConstant (VInt 5)) 1;
        mkAssignment "width" (ABinOp (AName "width") Mult (AConstant (VInt 2))) 2]
       [])
    ∅ !! "width" = Some (VInt 5).
Proof.
  apply (literal_assignment_is_tracked (fun _ _ _ => Ok VNone) _ ∅ []
           [mkAssignment "width" (ABinOp (AName "width") Mult (AConstant (VInt 2))) 2]
           "width" (VInt 5) 1).
  - reflexivity.
  - intros a Ha%list_elem_of_singleton _ c. by subst a.
Defined.

(** ** What the modifier reports *)

Lemma modify_parameter_keys (found : Dict.t ParameterInfo) (param_name : string)
    (new_value : pyval) :
  Dict.keys (modify_parameter found param_name new_value).1 = Dict.keys found.
Proof.
  unfold modify_parameter.
  destruct (Dict.get param_name found) as [param_info|] eqn:Hget; [|done].
  destruct (is_basic new_value); [|done]. cbn [fst].
  rewrite keys_set, decide_True; [done|]. by eapply get_Some_keys.
Qed.

Lemma contains_same_keys {V} (d d' : Dict.t V) (k : string) :
  Dict.keys d = Dict.keys d' -> Dict.contains k d = Dict.contains k d'.
Proof.
  intros Hkeys. destruct (Dict.contains k d') eqn:Hd'.
  - apply contains_keys. rewrite Hkeys. by apply contains_keys.
  - destruct (Dict.contains k d) eqn:Hd; [|done].
    apply contains_keys in Hd. rewrite Hkeys in Hd. apply contains_keys in Hd. congruence.
Qed.

Lemma modify_parameter_verdict (found : Dict.t ParameterInfo) (param_name : string)
    (new_value : pyval) :
  (modify_parameter found param_name new_value).2
  = Dict.contains param_name found && is_basic new_value.
Proof.
  unfold modify_parameter, Dict.contains.
  destruct (Dict.get param_name found); [|done]. by destruct (is_basic new_value).
Qed.

(** [modify_parameters] returns, in the order of the changes, exactly the
    names it did not change: those for which the script has no assignment
    of a constant, and those whose new value is neither a number nor a
    string.  The variables it knows stay the same. *)
Theorem modify_parameters_reports (found : Dict.t ParameterInfo) (param_changes : Dict.t pyval) :
  (modify_parameters found param_changes).2
  = map fst (List.filter
               (fun change => negb (Dict.contains change.1 found && is_basic change.2))
               param_changes) /\
  Dict.keys (modify_parameters found param_changes).1 = Dict.keys found.
Proof.
  unfold modify_parameters.
  assert (forall changes (st : Dict.t ParameterInfo * list string),
            Dict.keys st.1 = Dict.keys found ->
            (foldl
               (fun st change =>
                  let r := modify_parameter st.1 change.1 change.2 in
                  (r.1, if r.2 then st.2 else st.2 ++ [change.1]))
               st changes).2
            = st.2 ++ map fst (List.filter
                                 (fun change => negb (Dict.contains change.1 found
                                                      && is_basic change.2))
                                 changes) /\
            Dict.keys (foldl
               (fun st change =>
                  let r := modify_parameter st.1 change.1 change.2 in
                  (r.1, if r.2 then st.2 else st.2 ++ [change.1]))
               st changes).1 = Dict.keys found) as Hloop.
  { induction changes as [|change changes IH]; intros st Hkeys.
    - cbn [foldl List.filter map]. by rewrite app_nil_r.
    - cbn [foldl List.filter]. cbv zeta.
      rewrite modify_parameter_verdict, (contains_same_keys st.1 found) by done.
      match goal with
      | |- context [foldl ?f ?st1 changes] => destruct (IH st1) as [Hfailed Hkeys1]
      end.
      { cbn [fst]. by rewrite modify_parameter_keys. }
      split; [|exact Hkeys1]. etrans; [exact Hfailed|]. cbn [snd].
      destruct (Dict.contains change.1 found && is_basic change.2); cbn [negb map]; [done|].
      by rewrite <- app_assoc. }
  destruct (Hloop param_changes (found, [])) as [Hfailed Hkeys]; [done|].
  split; [exact Hfailed|exact Hkeys].
Qed.

(** ** One line for every node *)

Lemma assignment_nonempty (var_name rest : string) : var_name +:+ " = " +:+ rest <> "".
Proof. by destruct var_name. Qed.

Lemma node_statement_nonempty (node : FeatureNode) (var_name : string)
    (vars : gmap string string) (t : FeatureTree) (code_line : string) :
  node_statement node var_name vars t = Ok code_line -> code_line <> "".
Proof.
  unfold node_statement. cbv zeta.
  destruct (feature_type node);
    repeat (let H := fresh in
            intros H; apply bind_Ok in H as (? & _ & H); revert H);
    intros [= <-]; apply assignment_nonempty.
Qed.

(** The nodes of the resolved order that get a line: the ids that are in
    the tree and are not the design-parameters node. *)
Definition written (t : FeatureTree) (node_id : string) : bool :=
  match Dict.get node_id (nodes t) with
  | Some node =>
      negb (bool_decide (feature_type node = SKETCH) && is_substring "design_params" (id node))
  | None => false
  end.

Lemma generate_node_one_line (t : FeatureTree) (st st' : list string * Names)
    (node_id : string) :
  generate_node t st node_id = Ok st' ->
  length st'.1 = length st.1 + (if written t node_id then 1 else 0).
Proof.
  unfold generate_node, written.
  destruct (Dict.get node_id (nodes t)) as [node|]; [|intros [= <-]; lia].
  destruct (_ && _); cbn [negb]; [intros [= <-]; lia|].
  intros Hrun. apply bind_Ok in Hrun as (r & _ & Hrun).
  apply bind_Ok in Hrun as (out & Hcode & Hrun).
  unfold generate_node_code in Hcode.
  apply bind_Ok in Hcode as (named & _ & [= <-]). cbn [fst snd] in Hrun.
  destruct (node_statement _ _ _ _) as [code_line|e] eqn:Hline.
  - apply node_statement_nonempty in Hline.
    rewrite bool_decide_false in Hrun by done. injection Hrun as <-.
    cbn [fst]. rewrite length_app. cbn. lia.
  - destruct e; try done; injection Hrun as <-; cbn [fst]; rewrite length_app; cbn; lia.
Qed.

(** The node loop of [generate_cadquery_code] drops no node in silence:
    every id of the resolved order that names a node of the tree, the
    design-parameters node apart, adds exactly one line to the script, its
    statement or the comment that reports its error. *)
Theorem generated_lines_count (t : FeatureTree) (order : list string)
    (st st' : list string * Names) :
  for_each (generate_node t) order st = Ok st' ->
  length st'.1 = length st.1 + length (List.filter (written t) order).
Proof.
  revert st. induction order as [|node_id order IH]; intros st Hrun.
  - injection Hrun as <-. cbn. lia.
  - cbn [for_each] in Hrun.
    destruct (generate_node t st node_id) as [st1|] eqn:Hstep; [|done].
    cbn [bind] in Hrun. apply IH in Hrun. apply generate_node_one_line in Hstep.
    cbn [List.filter]. destruct (written t node_id); cbn [length]; lia.
Qed.

Lemma generated_lines_count_witness :
  exists st',
    for_each (generate_node diamond_tree) ["wp"; "b2"; "b1"; "u"] ([], mkNames ∅ ∅) = Ok st' /\
    length st'.1 = length ([] : list string)
                   + length (List.filter (written diamond_tree) ["wp"; "b2"; "b1"; "u"]).
Proof.
  eexists. split; [vm_compute; reflexivity|].
  eapply (generated_lines_count diamond_tree ["wp"; "b2"; "b1"; "u"] ([], mkNames ∅ ∅)).
  vm_compute. reflexivity.
Defined.

(** ** The lines the modifier writes *)



